(** * The SAAAM language compiler of [desktop-exporter.js]

    A shallow embedding of the class [SaaamCompiler]: the regular-expression
    lexer [tokenize], the recursive-descent parser [parse], the static
    analysis [analyzeCode], the code generator [generate] and the two entry
    points [compile] and [compileToJS], followed by the properties of the
    compiler that its specification states. *)

From Stdlib Require Import String Ascii DecimalString NArith Bool Arith Lia List Sorted.
Import ListNotations.

Set Implicit Arguments.

(** ** JavaScript strings

    A JavaScript string is a sequence of UTF-16 code units; [length],
    [charAt], [slice] and the regular expressions of the lexer (which carry no
    [u] flag) all count in code units. *)

Definition code_unit := N.
Definition jsstring := list code_unit.

Definition utf16 (s : string) : jsstring :=
  map N_of_ascii (list_ascii_of_string s).

Definition nl : jsstring := [10%N].
Definition dquote : jsstring := [34%N].
Definition squote : jsstring := [39%N].
Definition backslash : jsstring := [92%N].

Fixpoint str_eqb (a b : jsstring) : bool :=
  match a, b with
  | [], [] => true
  | x :: a', y :: b' => N.eqb x y && str_eqb a' b'
  | _, _ => false
  end.

(** [Array.prototype.includes] on an array of strings. *)
Definition includes (l : list jsstring) (s : jsstring) : bool :=
  existsb (str_eqb s) l.

(** [Array.prototype.join]. *)
Fixpoint join (sep : jsstring) (l : list jsstring) : jsstring :=
  match l with
  | [] => []
  | [x] => x
  | x :: rest => x ++ sep ++ join sep rest
  end.

(** [String.prototype.split] on a one-unit separator. *)
Fixpoint split_on (sep : code_unit) (s : jsstring) : list jsstring :=
  match s with
  | [] => [[]]
  | c :: s' =>
      if N.eqb c sep then [] :: split_on sep s'
      else match split_on sep s' with
           | [] => [[c]]
           | line :: lines => (c :: line) :: lines
           end
  end.

(** Template-literal interpolation of a non-negative integer. *)
Definition num_str (n : nat) : jsstring :=
  utf16 (NilZero.string_of_uint (Nat.to_uint n)).

(** [s.startsWith(p)] and [s.includes(p)]: the substring tests in which the
    properties of the emitted text are stated. *)
Fixpoint starts_with (p s : jsstring) : bool :=
  match p, s with
  | [], _ => true
  | x :: p', y :: s' => N.eqb x y && starts_with p' s'
  | _ :: _, [] => false
  end.

Fixpoint contains (p s : jsstring) : bool :=
  starts_with p s ||
  match s with
  | [] => false
  | _ :: s' => contains p s'
  end.

(** ** Regular expressions

    The abstract syntax of the patterns that occur in the token table, and a
    backtracking matcher with the priorities of the JavaScript one: the first
    alternative that lets the rest of the pattern succeed wins, [*], [+] and
    [?] are greedy, [*?] is lazy, and an iteration of a starred pattern that
    consumes nothing is rejected. *)

Inductive regex : Type :=
| Chr (c : code_unit)
| Lit (s : jsstring)
| Cls (p : code_unit -> bool)
| Seq (r1 r2 : regex)
| Alt (r1 r2 : regex)
| Grp (r : regex)
| Opt (r : regex)
| Star (r : regex)
| LazyStar (r : regex)
| Plus (r : regex)
| Bol
| Eol
| WordB.

Local Open Scope N_scope.

Definition in_range (lo hi c : code_unit) : bool :=
  N.leb lo c && N.leb c hi.

Definition one_of (s : string) (c : code_unit) : bool :=
  existsb (N.eqb c) (utf16 s).

(** [\d], [\w], the line terminators, [.], [\s] and [[\s\S]]. *)
Definition is_digit (c : code_unit) : bool := in_range 48 57 c.

Definition is_word (c : code_unit) : bool :=
  in_range 97 122 c || in_range 65 90 c || in_range 48 57 c || N.eqb c 95.

Definition is_line_terminator (c : code_unit) : bool :=
  N.eqb c 10 || N.eqb c 13 || N.eqb c 8232 || N.eqb c 8233.

Definition is_dot (c : code_unit) : bool := negb (is_line_terminator c).

Definition is_space (c : code_unit) : bool :=
  in_range 9 13 c || N.eqb c 32 || N.eqb c 160 || N.eqb c 5760 ||
  in_range 8192 8202 c || N.eqb c 8232 || N.eqb c 8233 || N.eqb c 8239 ||
  N.eqb c 8287 || N.eqb c 12288 || N.eqb c 65279.

Definition is_any (c : code_unit) : bool := true.

Definition is_ident_start (c : code_unit) : bool :=
  in_range 97 122 c || in_range 65 90 c || N.eqb c 95.

Local Close Scope N_scope.

(** The matcher works on the text that is left, together with the code unit
    just before it ([None] at the start of the string), which the assertions
    [^] and [\b] look at.  The continuation [k] is the rest of the pattern;
    it returns what is left of the text after the whole match. *)
Definition cont := option code_unit -> jsstring -> option jsstring.

Definition or_else (a : option jsstring) (b : unit -> option jsstring) :=
  match a with
  | Some x => Some x
  | None => b tt
  end.

Definition word_before (prev : option code_unit) : bool :=
  match prev with Some c => is_word c | None => false end.

Definition word_after (s : jsstring) : bool :=
  match s with c :: _ => is_word c | [] => false end.

Fixpoint match_lit (l : jsstring) (prev : option code_unit) (s : jsstring)
  (k : cont) : option jsstring :=
  match l with
  | [] => k prev s
  | c :: l' =>
      match s with
      | x :: s' => if N.eqb x c then match_lit l' (Some x) s' k else None
      | [] => None
      end
  end.

(** Greedy iteration of [step]: one more iteration that consumes something,
    or else the continuation.  At most [length s] iterations can consume. *)
Fixpoint star_loop (step : option code_unit -> jsstring -> cont -> option jsstring)
  (fuel : nat) (prev : option code_unit) (s : jsstring) (k : cont)
  : option jsstring :=
  match fuel with
  | 0 => k prev s
  | S fuel' =>
      or_else
        (step prev s (fun p s' =>
           if length s' <? length s then star_loop step fuel' p s' k else None))
        (fun _ => k prev s)
  end.

Fixpoint lazy_loop (step : option code_unit -> jsstring -> cont -> option jsstring)
  (fuel : nat) (prev : option code_unit) (s : jsstring) (k : cont)
  : option jsstring :=
  match fuel with
  | 0 => k prev s
  | S fuel' =>
      or_else (k prev s)
        (fun _ => step prev s (fun p s' =>
           if length s' <? length s then lazy_loop step fuel' p s' k else None))
  end.

Section Matcher.

(** The [m] flag: [^] and [$] also match at line terminators. *)
Variable multiline : bool.

Fixpoint rmatch (r : regex) (prev : option code_unit) (s : jsstring)
  (k : cont) {struct r} : option jsstring :=
  match r with
  | Chr c =>
      match s with
      | x :: s' => if N.eqb x c then k (Some x) s' else None
      | [] => None
      end
  | Lit l => match_lit l prev s k
  | Cls p =>
      match s with
      | x :: s' => if p x then k (Some x) s' else None
      | [] => None
      end
  | Seq r1 r2 => rmatch r1 prev s (fun p s' => rmatch r2 p s' k)
  | Alt r1 r2 => or_else (rmatch r1 prev s k) (fun _ => rmatch r2 prev s k)
  | Grp r1 => rmatch r1 prev s k
  | Opt r1 => or_else (rmatch r1 prev s k) (fun _ => k prev s)
  | Star r1 => star_loop (rmatch r1) (length s) prev s k
  | LazyStar r1 => lazy_loop (rmatch r1) (length s) prev s k
  | Plus r1 =>
      rmatch r1 prev s (fun p s' => star_loop (rmatch r1) (length s') p s' k)
  | Bol =>
      match prev with
      | None => k prev s
      | Some c => if multiline && is_line_terminator c then k prev s else None
      end
  | Eol =>
      match s with
      | [] => k prev s
      | c :: _ => if multiline && is_line_terminator c then k prev s else None
      end
  | WordB => if xorb (word_before prev) (word_after s) then k prev s else None
  end.

(** [RegExp.prototype.exec] without the [g] flag: the leftmost start at
    which the pattern matches; the result is the matched text [match[0]]. *)
Fixpoint exec_from (r : regex) (prev : option code_unit) (s : jsstring)
  : option jsstring :=
  match rmatch r prev s (fun _ s' => Some s') with
  | Some s' => Some (firstn (length s - length s') s)
  | None =>
      match s with
      | [] => None
      | c :: s' => exec_from r (Some c) s'
      end
  end.

End Matcher.

(** [str.match(new RegExp(source, flags))]. *)
Definition str_match (s : jsstring) (r : regex) (multiline : bool)
  : option jsstring :=
  exec_from multiline r None s.

(** ** Tokens and the token table *)

Inductive token_kind : Type :=
| KEYWORD | SAAAM_KEYWORD | IDENTIFIER | NUMBER | STRING | OPERATOR
| PUNCTUATION | BRACKET | WHITESPACE | COMMENT | EOF.

Definition kind_name (k : token_kind) : jsstring :=
  match k with
  | KEYWORD => utf16 "KEYWORD"
  | SAAAM_KEYWORD => utf16 "SAAAM_KEYWORD"
  | IDENTIFIER => utf16 "IDENTIFIER"
  | NUMBER => utf16 "NUMBER"
  | STRING => utf16 "STRING"
  | OPERATOR => utf16 "OPERATOR"
  | PUNCTUATION => utf16 "PUNCTUATION"
  | BRACKET => utf16 "BRACKET"
  | WHITESPACE => utf16 "WHITESPACE"
  | COMMENT => utf16 "COMMENT"
  | EOF => utf16 "EOF"
  end.

Definition kind_eqb (a b : token_kind) : bool :=
  match a, b with
  | KEYWORD, KEYWORD | SAAAM_KEYWORD, SAAAM_KEYWORD | IDENTIFIER, IDENTIFIER
  | NUMBER, NUMBER | STRING, STRING | OPERATOR, OPERATOR
  | PUNCTUATION, PUNCTUATION | BRACKET, BRACKET | WHITESPACE, WHITESPACE
  | COMMENT, COMMENT | EOF, EOF => true
  | _, _ => false
  end.

Record Token : Type := mkToken {
  type : token_kind;
  value : jsstring;
  position : nat
}.

Record TokenType : Type := mkTokenType {
  tt_type : token_kind;
  tt_regex : regex;
  tt_ignore : bool;
  tt_multiline : bool
}.

(** [a|b|c] *)
Fixpoint alts (first : regex) (rest : list regex) : regex :=
  match rest with
  | [] => first
  | r :: rest' => Alt first (alts r rest')
  end.

Definition words (first : string) (rest : list string) : regex :=
  alts (Lit (utf16 first)) (map (fun w => Lit (utf16 w)) rest).

Definition keyword_regex : regex :=
  Seq WordB (Seq (Grp (words "var"
    ["const"; "let"; "function"; "if"; "else"; "for"; "while"; "do";
     "switch"; "case"; "break"; "continue"; "return"; "this"; "new"; "true";
     "false"; "null"; "undefined"]%string)) WordB).

Definition saaam_keyword_regex : regex :=
  Seq WordB (Seq (Grp (words "vec2"
    ["vec3"; "yield"; "signal"; "state"; "create"; "step"; "draw";
     "on_collision"]%string)) WordB).

Definition identifier_regex : regex :=
  Seq WordB (Seq (Cls is_ident_start) (Seq (Star (Cls is_word)) WordB)).

Definition number_regex : regex :=
  Seq WordB
    (Seq (Plus (Cls is_digit))
       (Seq (Opt (Grp (Seq (Chr 46%N) (Plus (Cls is_digit)))))
          (Seq (Opt (Grp (Seq (Chr 101%N)
                            (Seq (Opt (Cls (one_of "+-")))
                               (Plus (Cls is_digit))))))
             WordB))).

Definition quoted (q : code_unit) : regex :=
  Seq (Chr q)
    (Seq (Star (Grp (Alt (Cls (fun c => negb (N.eqb c q || N.eqb c 92%N)))
                         (Seq (Chr 92%N) (Cls is_dot)))))
       (Chr q)).

Definition string_regex : regex := Alt (quoted 39%N) (quoted 34%N).

Definition operator_regex : regex :=
  Alt (Seq (Cls (one_of "+-*/=<>!&|^%")) (Opt (Chr 61%N)))
    (Alt (Lit (utf16 "&&"))
       (Alt (Lit (utf16 "||"))
          (Alt (Cls (one_of "?:")) (Lit (utf16 "..."))))).

Definition punctuation_regex : regex := Cls (one_of ".,;()").

Definition bracket_regex : regex := Cls (one_of "[]{}").

Definition whitespace_regex : regex := Plus (Cls is_space).

Definition comment_regex : regex :=
  Alt (Seq (Lit (utf16 "//")) (Seq (Star (Cls is_dot)) Eol))
      (Seq (Lit (utf16 "/*")) (Seq (LazyStar (Cls is_any)) (Lit (utf16 "*/")))).

Definition tokenTypes : list TokenType :=
  [ mkTokenType KEYWORD keyword_regex false false;
    mkTokenType SAAAM_KEYWORD saaam_keyword_regex false false;
    mkTokenType IDENTIFIER identifier_regex false false;
    mkTokenType NUMBER number_regex false false;
    mkTokenType STRING string_regex false false;
    mkTokenType OPERATOR operator_regex false false;
    mkTokenType PUNCTUATION punctuation_regex false false;
    mkTokenType BRACKET bracket_regex false false;
    mkTokenType WHITESPACE whitespace_regex true false;
    mkTokenType COMMENT comment_regex true true ].

(** [new RegExp("^" + tokenType.regex.source, ...)]: the caret is put in
    front of the pattern's text, so that where the pattern is an alternation
    at its top level the caret belongs to the first alternative only. *)
Fixpoint caret_source (r : regex) : regex :=
  match r with
  | Alt r1 r2 => Alt (caret_source r1) r2
  | _ => Seq Bol r
  end.

(** The [for (const tokenType of tokenTypes)] loop of [tokenize]: the first
    entry of the table whose pattern is found in [remaining]. *)
Fixpoint first_match (table : list TokenType) (remaining : jsstring)
  : option (jsstring * TokenType) :=
  match table with
  | [] => None
  | tokenType :: rest =>
      match str_match remaining (caret_source (tt_regex tokenType))
              (tt_multiline tokenType) with
      | Some tokenValue => Some (tokenValue, tokenType)
      | None => first_match rest remaining
      end
  end.

Definition unexpected_character (position : nat) (errorChar : code_unit)
  : jsstring :=
  utf16 "Unexpected character at position " ++ num_str position ++ utf16 ": '"
    ++ [errorChar] ++ utf16 "'".

(** The [while (remaining.length > 0)] loop of [tokenize], threading the
    fields [tokens] and [errors] of the compiler.  Each iteration costs one
    unit of [fuel]; [None] is the loop still running when the fuel is gone. *)
Fixpoint tokenize_loop (fuel : nat) (remaining : jsstring) (pos : nat)
  (tokens : list Token) (errors : list jsstring)
  : option (list Token * list jsstring) :=
  match remaining with
  | [] => Some (tokens, errors)
  | errorChar :: _ =>
      match fuel with
      | 0 => None
      | S fuel' =>
          match first_match tokenTypes remaining with
          | None =>
              tokenize_loop fuel' (skipn 1 remaining) (pos + 1) tokens
                (errors ++ [unexpected_character pos errorChar])
          | Some (tokenValue, matchedType) =>
              tokenize_loop fuel'
                (skipn (length tokenValue) remaining)
                (pos + length tokenValue)
                (if tt_ignore matchedType then tokens
                 else tokens ++ [mkToken (tt_type matchedType) tokenValue pos])
                errors
          end
      end
  end.

Definition eof_token (code : jsstring) : Token :=
  mkToken EOF [] (length code).

(** [tokenize(code)], from the compiler's [errors] to the token list and the
    new [errors]. *)
Definition tokenize_fuel (fuel : nat) (code : jsstring) (errors : list jsstring)
  : option (list Token * list jsstring) :=
  match tokenize_loop fuel code 0 [] errors with
  | Some (tokens, errors') => Some (tokens ++ [eof_token code], errors')
  | None => None
  end.

(** ** The abstract syntax tree

    The nodes that the parser builds, one constructor for each value of the
    [type] field.  The [value] of a numeric literal is the number that
    [Number.parseFloat] reads from the token; it is kept as the token's text.
    The [property] of a member expression is a name when [computed] is false
    and a node when it is true. *)

Inductive LiteralValue : Type :=
| LNumber (lexeme : jsstring)
| LString (s : jsstring)
| LBool (b : bool)
| LNull.

#[warnings="-register-all"]
Inductive ASTNode : Type :=
| Program (body : list ASTNode)
| VariableDeclaration (kind identifier : jsstring) (init : option ASTNode)
| FunctionDefinition (name : jsstring) (params : list jsstring) (body : ASTNode)
| Block (statements : list ASTNode)
| ExpressionStatement (expression : ASTNode)
| IfStatement (condition consequent : ASTNode) (alternate : option ASTNode)
| ForLoop (init condition update : option ASTNode) (body : ASTNode)
| WhileLoop (condition body : ASTNode)
| DoWhileLoop (body condition : ASTNode)
| SwitchStatement (discriminant : ASTNode) (cases : list SwitchCaseNode)
| ReturnStatement (argument : option ASTNode)
| BreakStatement
| ContinueStatement
| EmptyStatement
| AssignmentExpression (operator : jsstring) (left right : ASTNode)
| BinaryExpression (operator : jsstring) (left right : ASTNode)
| UnaryExpression (operator : jsstring) (argument : ASTNode)
| CallExpression (callee : ASTNode) (arguments : list ASTNode)
| MemberExpression (object : ASTNode) (property : jsstring + ASTNode)
| ThisExpression
| Vec2Expression (x y : ASTNode)
| Vec3Expression (x y z : ASTNode)
| ObjectExpression (properties : list PropertyNode)
| ArrayExpression (elements : list (option ASTNode))
| Identifier (name : jsstring) (isPredefined : option bool)
| Literal (value : LiteralValue) (raw : option jsstring)
with SwitchCaseNode : Type :=
| SwitchCase (test : option ASTNode) (consequent : list ASTNode)
with PropertyNode : Type :=
| Property (key value : ASTNode) (computed : bool).

Definition case_test (c : SwitchCaseNode) : option ASTNode :=
  match c with SwitchCase test _ => test end.

Definition case_consequent (c : SwitchCaseNode) : list ASTNode :=
  match c with SwitchCase _ consequent => consequent end.

(** ** The compiler object and its methods

    The private fields of the class.  A method is a function from the state
    of the object to an outcome and the new state: it returns a value, or
    throws an [Error] with a message (the state keeps what the method did
    before it threw), or is still running when its fuel is gone. *)

Record SaaamCompiler : Type := mkCompiler {
  tokens : list Token;
  ast : option ASTNode;
  currentToken : nat;
  errors : list jsstring;
  warnings : list jsstring
}.

Inductive outcome (A : Type) : Type :=
| Ret (a : A)
| Thrown (message : jsstring)
| OutOfFuel.

Arguments Thrown {A} message.
Arguments OutOfFuel {A}.

Definition M (A : Type) : Type := SaaamCompiler -> outcome A * SaaamCompiler.

Definition ret {A} (a : A) : M A := fun st => (Ret a, st).

Definition bind {A B} (m : M A) (f : A -> M B) : M B :=
  fun st =>
    match m st with
    | (Ret a, st') => f a st'
    | (Thrown e, st') => (Thrown e, st')
    | (OutOfFuel, st') => (OutOfFuel, st')
    end.

Definition throw {A} (message : jsstring) : M A := fun st => (Thrown message, st).

Definition out_of_fuel {A} : M A := fun st => (OutOfFuel, st).

(** [try { m } catch (error) { handler(error.message) }] *)
Definition try_catch {A} (m : M A) (handler : jsstring -> M A) : M A :=
  fun st =>
    match m st with
    | (Thrown e, st') => handler e st'
    | r => r
    end.

Declare Scope monad_scope.
Delimit Scope monad_scope with monad.
Notation "x <- m ;; k" := (bind m (fun x => k))
  (at level 61, m at next level, right associativity) : monad_scope.
Notation "m ;; k" := (bind m (fun _ => k))
  (at level 61, right associativity) : monad_scope.
Local Open Scope monad_scope.

Definition andM (a b : M bool) : M bool :=
  x <- a ;; if x then b else ret false.

Definition orM (a b : M bool) : M bool :=
  x <- a ;; if x then ret true else b.

Definition notM (a : M bool) : M bool :=
  x <- a ;; ret (negb x).

Definition when (b : bool) (m : M unit) : M unit :=
  if b then m else ret tt.

(** Loops: the body says whether to go round again.  Each iteration costs one
    unit of fuel. *)
Inductive loop_ctl (S : Type) : Type :=
| Next (s : S)
| Break (s : S).

Fixpoint loop {S} (fuel : nat) (body : S -> M (loop_ctl S)) (s : S) : M S :=
  match fuel with
  | 0 => out_of_fuel
  | S fuel' =>
      c <- body s ;;
      match c with
      | Next s' => loop fuel' body s'
      | Break s' => ret s'
      end
  end.

(** [while (cond) { s = body(s) }] *)
Definition while_ {S} (fuel : nat) (cond : M bool) (body : S -> M S) (s : S)
  : M S :=
  loop fuel
    (fun s => c <- cond ;;
              if c then s' <- body s ;; ret (Next s') else ret (Break s))
    s.

Definition addError (message : jsstring) : M unit :=
  fun st =>
    (Ret tt, mkCompiler (tokens st) (ast st) (currentToken st)
               (errors st ++ [message]) (warnings st)).

Definition addWarning (message : jsstring) : M unit :=
  fun st =>
    (Ret tt, mkCompiler (tokens st) (ast st) (currentToken st)
               (errors st) (warnings st ++ [message])).

(** What reading [.type] of [undefined] throws, when [currentToken] is not an
    index of [tokens]. *)
Definition undefined_token : jsstring :=
  utf16 "Cannot read properties of undefined (reading 'type')".

(** [peek()], together with the access to a field of its result that every
    caller makes at once. *)
Definition peek : M Token :=
  fun st =>
    match nth_error (tokens st) (currentToken st) with
    | Some token => (Ret token, st)
    | None => (Thrown undefined_token, st)
    end.

Definition match_ (ty : token_kind) (val : option jsstring) : M bool :=
  token <- peek ;;
  if negb (kind_eqb (type token) ty) then ret false
  else match val with
       | Some v => if negb (str_eqb (value token) v) then ret false else ret true
       | None => ret true
       end.

Definition advance : M unit :=
  fun st =>
    (Ret tt, mkCompiler (tokens st) (ast st) (S (currentToken st))
               (errors st) (warnings st)).

Definition expected_type (ty got : token_kind) : jsstring :=
  utf16 "Expected token of type " ++ kind_name ty ++ utf16 ", but got " ++ kind_name got.

Definition expected_value (v got : jsstring) : jsstring :=
  utf16 "Expected token with value " ++ v ++ utf16 ", but got " ++ got.

Definition consume (ty : option token_kind) (val : option jsstring) : M Token :=
  token <- peek ;;
  match ty with
  | Some t =>
      if negb (kind_eqb (type token) t)
      then addError (expected_type t (type token)) ;;
           throw (expected_type t (type token))
      else ret tt
  | None => ret tt
  end ;;
  match val with
  | Some v =>
      if negb (str_eqb (value token) v)
      then addError (expected_value v (value token)) ;;
           throw (expected_value v (value token))
      else ret tt
  | None => ret tt
  end ;;
  advance ;;
  ret token.

(** The call shapes that occur in the parser. *)
Definition match_tv (ty : token_kind) (v : string) : M bool := match_ ty (Some (utf16 v)).
Definition match_type (ty : token_kind) : M bool := match_ ty None.
Definition consume_any : M Token := consume None None.
Definition consume_type (ty : token_kind) : M Token := consume (Some ty) None.
Definition consume_tv (ty : token_kind) (v : string) : M Token :=
  consume (Some ty) (Some (utf16 v)).

(** [this.peek().type !== "EOF"] *)
Definition not_eof : M bool :=
  token <- peek ;; ret (negb (kind_eqb (type token) EOF)).

Definition predefinedVariables : list jsstring :=
  map utf16 ["position"; "velocity"; "size"; "color";
          "rotation"; "scale"; "visible"; "active";
          "tag"; "components"; "GRAVITY"; "FRICTION";
          "MAX_FALL_SPEED"; "delta_time"; "current_time"; "game_time"]%string.

Definition predefinedFunctions : list jsstring :=
  map utf16 ["create"; "step"; "draw"; "on_collision";
          "keyboard_check"; "keyboard_check_pressed"; "keyboard_check_released";
          "mouse_check"; "mouse_check_pressed"; "mouse_check_released";
          "draw_sprite"; "draw_text"; "draw_rectangle"; "draw_circle"; "draw_line";
          "play_sound"; "play_music"; "stop_sound"; "stop_music";
          "vec2"; "vec3"; "point_distance"; "check_collision";
          "create_object"; "destroy_object"; "find_object"; "find_nearest"]%string.

(** ** The parser

    The parsing methods call one another recursively.  [parsers] is the table
    of the methods as a caller sees them; each method below is written against
    such a table [self], and [parser] ties the knot: a call of a method
    through [self] costs one unit of fuel, as does an iteration of a loop. *)

Record parsers : Type := mkParsers {
  p_VariableDeclaration : M ASTNode;
  p_FunctionDefinition : M ASTNode;
  p_Block : M ASTNode;
  p_Statement : M ASTNode;
  p_IfStatement : M ASTNode;
  p_ForLoop : M ASTNode;
  p_WhileLoop : M ASTNode;
  p_DoWhileLoop : M ASTNode;
  p_SwitchStatement : M ASTNode;
  p_ReturnStatement : M ASTNode;
  p_BreakStatement : M ASTNode;
  p_ContinueStatement : M ASTNode;
  p_Expression : M ASTNode;
  p_Assignment : M ASTNode;
  p_LogicalOr : M ASTNode;
  p_LogicalAnd : M ASTNode;
  p_Equality : M ASTNode;
  p_Comparison : M ASTNode;
  p_Additive : M ASTNode;
  p_Multiplicative : M ASTNode;
  p_Unary : M ASTNode;
  p_CallOrMember : M ASTNode;
  p_CallExpression : ASTNode -> M ASTNode;
  p_MemberExpression : ASTNode -> M ASTNode;
  p_IndexExpression : ASTNode -> M ASTNode;
  p_ObjectLiteral : M ASTNode;
  p_ArrayLiteral : M ASTNode;
  p_Primary : M ASTNode
}.

(** [match(ty, v1) || match(ty, v2) || ...] *)
Fixpoint match_any (ty : token_kind) (vs : list string) : M bool :=
  match vs with
  | [] => ret false
  | v :: rest => orM (match_tv ty v) (match_any ty rest)
  end.

Definition match_declaration : M bool :=
  match_any KEYWORD ["var"; "const"; "let"]%string.

(** The shared tail of the statements whose semicolon is optional. *)
Definition optional_semicolon (warning : jsstring) : M unit :=
  semi <- match_tv PUNCTUATION ";" ;;
  if semi then consume_any ;; ret tt else addWarning warning.

Section Methods.

Variable self : parsers.
Variable fuel : nat.

Definition parseVariableDeclaration : M ASTNode :=
  kind <- consume_any ;;
  identifier <- consume_type IDENTIFIER ;;
  assign <- match_tv OPERATOR "=" ;;
  init <- (if assign
           then consume_any ;; e <- p_Expression self ;; ret (Some e)
           else ret None) ;;
  optional_semicolon
    (utf16 "Missing semicolon after variable declaration for '"
       ++ value identifier ++ utf16 "'") ;;
  ret (VariableDeclaration (value kind) (value identifier) init).

Definition parseFunctionDefinition : M ASTNode :=
  consume_tv KEYWORD "function" ;;
  name <- consume_type IDENTIFIER ;;
  consume_tv PUNCTUATION "(" ;;
  close <- match_tv PUNCTUATION ")" ;;
  params <- (if negb close
             then loop fuel
                    (fun params =>
                       p <- consume_type IDENTIFIER ;;
                       comma <- match_tv PUNCTUATION "," ;;
                       if comma
                       then consume_any ;; ret (Next (params ++ [value p]))
                       else ret (Break (params ++ [value p])))
                    []
             else ret []) ;;
  consume_tv PUNCTUATION ")" ;;
  body <- p_Block self ;;
  when (includes (map utf16 ["create"; "step"; "draw"; "on_collision"]%string)
          (value name))
    (when (str_eqb (value name) (utf16 "step") && (length params =? 0))
       (addWarning (utf16 "The 'step' function should have a 'deltaTime' parameter for time-based movement")) ;;
     when (str_eqb (value name) (utf16 "draw") && (length params =? 0))
       (addWarning (utf16 "The 'draw' function should have a 'ctx' parameter for drawing context"))) ;;
  ret (FunctionDefinition (value name) params body).

Definition parseBlock : M ASTNode :=
  consume_tv BRACKET "{" ;;
  statements <- while_ fuel
                  (andM (notM (match_tv BRACKET "}")) not_eof)
                  (fun statements =>
                     s <- p_Statement self ;; ret (statements ++ [s]))
                  [] ;;
  token <- peek ;;
  when (kind_eqb (type token) EOF)
    (addError (utf16 "Unexpected end of file, expected '}'") ;;
     throw (utf16 "Unexpected end of file")) ;;
  consume_tv BRACKET "}" ;;
  ret (Block statements).

Definition parseStatement : M ASTNode :=
  decl <- match_declaration ;;
  if decl then p_VariableDeclaration self else
  b <- match_tv KEYWORD "if" ;;
  if b then p_IfStatement self else
  b <- match_tv KEYWORD "for" ;;
  if b then p_ForLoop self else
  b <- match_tv KEYWORD "while" ;;
  if b then p_WhileLoop self else
  b <- match_tv KEYWORD "do" ;;
  if b then p_DoWhileLoop self else
  b <- match_tv KEYWORD "switch" ;;
  if b then p_SwitchStatement self else
  b <- match_tv KEYWORD "return" ;;
  if b then p_ReturnStatement self else
  b <- match_tv KEYWORD "break" ;;
  if b then p_BreakStatement self else
  b <- match_tv KEYWORD "continue" ;;
  if b then p_ContinueStatement self else
  b <- match_tv BRACKET "{" ;;
  if b then p_Block self else
  b <- match_tv PUNCTUATION ";" ;;
  if b then consume_any ;; ret EmptyStatement else
  expr <- p_Expression self ;;
  optional_semicolon (utf16 "Missing semicolon after expression") ;;
  ret (ExpressionStatement expr).

Definition parseIfStatement : M ASTNode :=
  consume_tv KEYWORD "if" ;;
  consume_tv PUNCTUATION "(" ;;
  condition <- p_Expression self ;;
  consume_tv PUNCTUATION ")" ;;
  consequent <- p_Statement self ;;
  has_else <- match_tv KEYWORD "else" ;;
  alternate <- (if has_else
                then consume_any ;; s <- p_Statement self ;; ret (Some s)
                else ret None) ;;
  ret (IfStatement condition consequent alternate).

Definition parseForLoop : M ASTNode :=
  consume_tv KEYWORD "for" ;;
  consume_tv PUNCTUATION "(" ;;
  semi <- match_tv PUNCTUATION ";" ;;
  init <- (if negb semi
           then decl <- match_declaration ;;
                if decl
                then d <- p_VariableDeclaration self ;; ret (Some d)
                else e <- p_Expression self ;;
                     consume_tv PUNCTUATION ";" ;;
                     ret (Some e)
           else consume_tv PUNCTUATION ";" ;; ret None) ;;
  semi <- match_tv PUNCTUATION ";" ;;
  condition <- (if negb semi
                then e <- p_Expression self ;; ret (Some e)
                else ret (Some (Literal (LBool true) None))) ;;
  consume_tv PUNCTUATION ";" ;;
  close <- match_tv PUNCTUATION ")" ;;
  update <- (if negb close
             then e <- p_Expression self ;; ret (Some e)
             else ret None) ;;
  consume_tv PUNCTUATION ")" ;;
  body <- p_Statement self ;;
  ret (ForLoop init condition update body).

Definition parseWhileLoop : M ASTNode :=
  consume_tv KEYWORD "while" ;;
  consume_tv PUNCTUATION "(" ;;
  condition <- p_Expression self ;;
  consume_tv PUNCTUATION ")" ;;
  body <- p_Statement self ;;
  ret (WhileLoop condition body).

Definition parseDoWhileLoop : M ASTNode :=
  consume_tv KEYWORD "do" ;;
  body <- p_Statement self ;;
  consume_tv KEYWORD "while" ;;
  consume_tv PUNCTUATION "(" ;;
  condition <- p_Expression self ;;
  consume_tv PUNCTUATION ")" ;;
  optional_semicolon (utf16 "Missing semicolon after do-while statement") ;;
  ret (DoWhileLoop body condition).

(** The statements of a [case] clause, up to the next clause. *)
Definition case_consequent_loop : M (list ASTNode) :=
  while_ fuel
    (andM (notM (match_tv KEYWORD "case"))
       (andM (notM (match_tv KEYWORD "default"))
          (andM (notM (match_tv BRACKET "}")) not_eof)))
    (fun consequent => s <- p_Statement self ;; ret (consequent ++ [s]))
    [].

(** The statements of the [default] clause. *)
Definition default_consequent_loop : M (list ASTNode) :=
  while_ fuel
    (andM (notM (match_tv KEYWORD "case"))
       (andM (notM (match_tv BRACKET "}")) not_eof))
    (fun consequent => s <- p_Statement self ;; ret (consequent ++ [s]))
    [].

(** One iteration of the loop over the clauses; the loop carries the array
    [cases] and the variable [defaultCase]. *)
Definition switch_clause (st : list SwitchCaseNode * option SwitchCaseNode)
  : M (list SwitchCaseNode * option SwitchCaseNode) :=
  let (cases, defaultCase) := st in
  is_case <- match_tv KEYWORD "case" ;;
  if is_case then
    consume_any ;;
    test <- p_Expression self ;;
    consume_tv PUNCTUATION ":" ;;
    consequent <- case_consequent_loop ;;
    ret (cases ++ [SwitchCase (Some test) consequent], defaultCase)
  else
    is_default <- match_tv KEYWORD "default" ;;
    if is_default then
      consume_any ;;
      consume_tv PUNCTUATION ":" ;;
      consequent <- default_consequent_loop ;;
      ret (cases, Some (SwitchCase None consequent))
    else
      addError (utf16 "Expected 'case' or 'default' in switch statement") ;;
      consume_any ;;
      ret (cases, defaultCase).

Definition parseSwitchStatement : M ASTNode :=
  consume_tv KEYWORD "switch" ;;
  consume_tv PUNCTUATION "(" ;;
  discriminant <- p_Expression self ;;
  consume_tv PUNCTUATION ")" ;;
  consume_tv BRACKET "{" ;;
  st <- while_ fuel
          (andM (notM (match_tv BRACKET "}")) not_eof)
          switch_clause
          ([], None) ;;
  let cases := match snd st with
               | Some defaultCase => fst st ++ [defaultCase]
               | None => fst st
               end in
  consume_tv BRACKET "}" ;;
  ret (SwitchStatement discriminant cases).

Definition parseReturnStatement : M ASTNode :=
  consume_tv KEYWORD "return" ;;
  stop <- orM (match_tv PUNCTUATION ";") (match_tv BRACKET "}") ;;
  argument <- (if negb stop
               then e <- p_Expression self ;; ret (Some e)
               else ret None) ;;
  semi <- match_tv PUNCTUATION ";" ;;
  (if semi then consume_any ;; ret tt
   else close <- match_tv BRACKET "}" ;;
        when (negb close)
          (addWarning (utf16 "Missing semicolon after return statement"))) ;;
  ret (ReturnStatement argument).

Definition parseBreakStatement : M ASTNode :=
  consume_tv KEYWORD "break" ;;
  optional_semicolon (utf16 "Missing semicolon after break statement") ;;
  ret BreakStatement.

Definition parseContinueStatement : M ASTNode :=
  consume_tv KEYWORD "continue" ;;
  optional_semicolon (utf16 "Missing semicolon after continue statement") ;;
  ret ContinueStatement.

Definition parseExpression : M ASTNode := p_Assignment self.

Definition parseAssignment : M ASTNode :=
  left <- p_LogicalOr self ;;
  assign <- match_any OPERATOR ["="; "+="; "-="; "*="; "/="; "%="]%string ;;
  if assign then
    operator <- consume_any ;;
    right <- p_Assignment self ;;
    ret (AssignmentExpression (value operator) left right)
  else ret left.

(** The loop shared by the left-associative binary levels: while one of
    [operators] is next, consume it and parse the right operand with
    [operand]; [name] is the operator that the node records. *)
Definition binary_loop (operators : list string) (operand : M ASTNode)
  (name : Token -> jsstring) (left : ASTNode) : M ASTNode :=
  while_ fuel (match_any OPERATOR operators)
    (fun left =>
       operator <- consume_any ;;
       right <- operand ;;
       ret (BinaryExpression (name operator) left right))
    left.

Definition parseLogicalOr : M ASTNode :=
  left <- p_LogicalAnd self ;;
  binary_loop ["||"]%string (p_LogicalAnd self) (fun _ => utf16 "||") left.

Definition parseLogicalAnd : M ASTNode :=
  left <- p_Equality self ;;
  binary_loop ["&&"]%string (p_Equality self) (fun _ => utf16 "&&") left.

Definition parseEquality : M ASTNode :=
  left <- p_Comparison self ;;
  binary_loop ["=="; "!="]%string (p_Comparison self) value left.

Definition parseComparison : M ASTNode :=
  left <- p_Additive self ;;
  binary_loop [">"; ">="; "<"; "<="]%string (p_Additive self) value left.

Definition parseAdditive : M ASTNode :=
  left <- p_Multiplicative self ;;
  binary_loop ["+"; "-"]%string (p_Multiplicative self) value left.

Definition parseMultiplicative : M ASTNode :=
  left <- p_Unary self ;;
  binary_loop ["*"; "/"; "%"]%string (p_Unary self) value left.

Definition parseUnary : M ASTNode :=
  prefix <- match_any OPERATOR ["-"; "!"; "+"]%string ;;
  if prefix then
    operator <- consume_any ;;
    argument <- p_Unary self ;;
    ret (UnaryExpression (value operator) argument)
  else p_CallOrMember self.

Definition parseCallOrMember : M ASTNode :=
  expression <- p_Primary self ;;
  loop fuel
    (fun expression =>
       call <- match_tv PUNCTUATION "(" ;;
       if call then e <- p_CallExpression self expression ;; ret (Next e) else
       dot <- match_tv PUNCTUATION "." ;;
       if dot then e <- p_MemberExpression self expression ;; ret (Next e) else
       index <- match_tv BRACKET "[" ;;
       if index then e <- p_IndexExpression self expression ;; ret (Next e)
       else ret (Break expression))
    expression.

(** The checks of the built-in functions' argument counts. *)
Definition check_builtin_call (callee : ASTNode) (args : list ASTNode)
  : M unit :=
  match callee with
  | Identifier funcName _ =>
      when ((str_eqb funcName (utf16 "keyboard_check")
             || str_eqb funcName (utf16 "keyboard_check_pressed")
             || str_eqb funcName (utf16 "keyboard_check_released"))
            && negb (length args =? 1))
        (addWarning (funcName ++ utf16 " expects exactly 1 argument (key code)")) ;;
      when (str_eqb funcName (utf16 "draw_sprite") && (length args <? 3))
        (addWarning (utf16 "draw_sprite requires at least 3 arguments (sprite, x, y)")) ;;
      when (str_eqb funcName (utf16 "draw_text") && (length args <? 3))
        (addWarning (utf16 "draw_text requires at least 3 arguments (text, x, y)"))
  | _ => ret tt
  end.

Definition parseCallExpression (callee : ASTNode) : M ASTNode :=
  consume_tv PUNCTUATION "(" ;;
  close <- match_tv PUNCTUATION ")" ;;
  args <- (if negb close
           then loop fuel
                  (fun args =>
                     e <- p_Expression self ;;
                     comma <- match_tv PUNCTUATION "," ;;
                     if comma
                     then consume_any ;; ret (Next (args ++ [e]))
                     else ret (Break (args ++ [e])))
                  []
           else ret []) ;;
  consume_tv PUNCTUATION ")" ;;
  check_builtin_call callee args ;;
  ret (CallExpression callee args).

Definition parseMemberExpression (object : ASTNode) : M ASTNode :=
  consume_tv PUNCTUATION "." ;;
  property <- consume_type IDENTIFIER ;;
  ret (MemberExpression object (inl (value property))).

Definition parseIndexExpression (object : ASTNode) : M ASTNode :=
  consume_tv BRACKET "[" ;;
  property <- p_Expression self ;;
  consume_tv BRACKET "]" ;;
  ret (MemberExpression object (inr property)).

(** [str.substring(1, str.length - 1)] *)
Definition strip_quotes (str : jsstring) : jsstring :=
  firstn (length str - 1 - 1) (skipn 1 str).

(** The key of a property: a name, or the expression of a computed key. *)
Definition property_key_node (key : jsstring + ASTNode) : ASTNode :=
  match key with
  | inl name => Identifier name None
  | inr node => node
  end.

(** The part of an iteration of the object-literal loop that follows the
    key. *)
Definition object_property (properties : list PropertyNode)
  (key : jsstring + ASTNode) (computed : bool) : M (list PropertyNode) :=
  colon <- match_tv PUNCTUATION ":" ;;
  value_opt <- (if colon
                then consume_tv PUNCTUATION ":" ;;
                     v <- p_Expression self ;; ret (Some v)
                else match key with
                     | inl name =>
                         if negb computed then ret (Some (Identifier name None))
                         else ret None
                     | inr _ => ret None
                     end) ;;
  match value_opt with
  | Some v =>
      let properties' :=
        properties ++ [Property (property_key_node key) v computed] in
      comma <- match_tv PUNCTUATION "," ;;
      (if comma then consume_any ;; ret tt
       else close <- match_tv BRACKET "}" ;;
            when (negb close)
              (addWarning (utf16 "Expected ',' after property in object literal"))) ;;
      ret properties'
  | None =>
      addError (utf16 "Expected ':' after property name in object literal") ;;
      comma <- match_tv PUNCTUATION "," ;;
      when comma (consume_any ;; ret tt) ;;
      ret properties
  end.

Definition parseObjectLiteral : M ASTNode :=
  consume_tv BRACKET "{" ;;
  properties <-
    while_ fuel
      (andM (notM (match_tv BRACKET "}")) not_eof)
      (fun properties =>
         is_computed <- match_tv BRACKET "[" ;;
         if is_computed then
           consume_tv BRACKET "[" ;;
           key <- p_Expression self ;;
           consume_tv BRACKET "]" ;;
           object_property properties (inr key) true
         else
           is_name <- match_type IDENTIFIER ;;
           if is_name then
             key <- consume_type IDENTIFIER ;;
             object_property properties (inl (value key)) false
           else
             is_string <- match_type STRING ;;
             if is_string then
               token <- consume_type STRING ;;
               object_property properties
                 (inl (strip_quotes (value token))) false
             else
               addError (utf16 "Expected property name in object literal") ;;
               comma <- match_tv PUNCTUATION "," ;;
               when comma (consume_any ;; ret tt) ;;
               ret properties)
      [] ;;
  consume_tv BRACKET "}" ;;
  ret (ObjectExpression properties).

Definition parseArrayLiteral : M ASTNode :=
  consume_tv BRACKET "[" ;;
  elements <-
    while_ fuel
      (andM (notM (match_tv BRACKET "]")) not_eof)
      (fun elements =>
         hole <- match_tv PUNCTUATION "," ;;
         if hole then
           consume_any ;;
           ret (elements ++ [None])
         else
           e <- p_Expression self ;;
           comma <- match_tv PUNCTUATION "," ;;
           (if comma then consume_any ;; ret tt
            else close <- match_tv BRACKET "]" ;;
                 when (negb close)
                   (addWarning (utf16 "Expected ',' after array element"))) ;;
           ret (elements ++ [Some e]))
      [] ;;
  consume_tv BRACKET "]" ;;
  ret (ArrayExpression elements).

Definition parsePrimary : M ASTNode :=
  b <- match_tv KEYWORD "this" ;;
  if b then consume_any ;; ret ThisExpression else
  b <- match_tv SAAAM_KEYWORD "vec2" ;;
  if b then
    consume_any ;;
    consume_tv PUNCTUATION "(" ;;
    x <- p_Expression self ;;
    consume_tv PUNCTUATION "," ;;
    y <- p_Expression self ;;
    consume_tv PUNCTUATION ")" ;;
    ret (Vec2Expression x y)
  else
  b <- match_tv SAAAM_KEYWORD "vec3" ;;
  if b then
    consume_any ;;
    consume_tv PUNCTUATION "(" ;;
    x <- p_Expression self ;;
    consume_tv PUNCTUATION "," ;;
    y <- p_Expression self ;;
    consume_tv PUNCTUATION "," ;;
    z <- p_Expression self ;;
    consume_tv PUNCTUATION ")" ;;
    ret (Vec3Expression x y z)
  else
  b <- match_type IDENTIFIER ;;
  if b then
    identifier <- consume_type IDENTIFIER ;;
    let isPredefinedVar := includes predefinedVariables (value identifier) in
    let isPredefinedFunc := includes predefinedFunctions (value identifier) in
    ret (Identifier (value identifier) (Some (isPredefinedVar || isPredefinedFunc)))
  else
  b <- match_type NUMBER ;;
  if b then
    number <- consume_type NUMBER ;;
    ret (Literal (LNumber (value number)) None)
  else
  b <- match_type STRING ;;
  if b then
    str <- consume_type STRING ;;
    ret (Literal (LString (strip_quotes (value str))) (Some (value str)))
  else
  b <- match_tv KEYWORD "true" ;;
  if b then consume_any ;; ret (Literal (LBool true) None) else
  b <- match_tv KEYWORD "false" ;;
  if b then consume_any ;; ret (Literal (LBool false) None) else
  b <- match_tv KEYWORD "null" ;;
  if b then consume_any ;; ret (Literal LNull None) else
  b <- match_tv KEYWORD "undefined" ;;
  if b then consume_any ;; ret (Identifier (utf16 "undefined") None) else
  b <- match_tv BRACKET "{" ;;
  if b then p_ObjectLiteral self else
  b <- match_tv BRACKET "[" ;;
  if b then p_ArrayLiteral self else
  b <- match_tv PUNCTUATION "(" ;;
  if b then
    consume_any ;;
    expr <- p_Expression self ;;
    consume_tv PUNCTUATION ")" ;;
    ret expr
  else
  token <- peek ;;
  addError (utf16 "Unexpected token: " ++ value token) ;;
  token <- peek ;;
  throw (utf16 "Unexpected token: " ++ value token).

Definition methods : parsers :=
  {| p_VariableDeclaration := parseVariableDeclaration;
     p_FunctionDefinition := parseFunctionDefinition;
     p_Block := parseBlock;
     p_Statement := parseStatement;
     p_IfStatement := parseIfStatement;
     p_ForLoop := parseForLoop;
     p_WhileLoop := parseWhileLoop;
     p_DoWhileLoop := parseDoWhileLoop;
     p_SwitchStatement := parseSwitchStatement;
     p_ReturnStatement := parseReturnStatement;
     p_BreakStatement := parseBreakStatement;
     p_ContinueStatement := parseContinueStatement;
     p_Expression := parseExpression;
     p_Assignment := parseAssignment;
     p_LogicalOr := parseLogicalOr;
     p_LogicalAnd := parseLogicalAnd;
     p_Equality := parseEquality;
     p_Comparison := parseComparison;
     p_Additive := parseAdditive;
     p_Multiplicative := parseMultiplicative;
     p_Unary := parseUnary;
     p_CallOrMember := parseCallOrMember;
     p_CallExpression := parseCallExpression;
     p_MemberExpression := parseMemberExpression;
     p_IndexExpression := parseIndexExpression;
     p_ObjectLiteral := parseObjectLiteral;
     p_ArrayLiteral := parseArrayLiteral;
     p_Primary := parsePrimary |}.

(** The recovery of [parseProgram] after a statement threw: skip to the
    next semicolon or closing brace and consume it. *)
Definition skip_to_next_statement : M unit :=
  while_ fuel
    (andM (notM (match_tv PUNCTUATION ";"))
       (andM (notM (match_tv BRACKET "}")) not_eof))
    (fun _ => consume_any ;; ret tt)
    tt ;;
  found <- orM (match_tv PUNCTUATION ";") (match_tv BRACKET "}") ;;
  when found (consume_any ;; ret tt).

Definition parseProgram : M ASTNode :=
  body <-
    while_ fuel not_eof
      (fun body =>
         try_catch
           (decl <- match_declaration ;;
            if decl
            then s <- p_VariableDeclaration self ;; ret (body ++ [s])
            else
              func <- match_tv KEYWORD "function" ;;
              if func
              then s <- p_FunctionDefinition self ;; ret (body ++ [s])
              else s <- p_Statement self ;; ret (body ++ [s]))
           (fun message =>
              addError (utf16 "Parse error: " ++ message) ;;
              skip_to_next_statement ;;
              ret body))
      [] ;;
  ret (Program body).

End Methods.

Definition no_parsers : parsers :=
  {| p_VariableDeclaration := out_of_fuel;
     p_FunctionDefinition := out_of_fuel;
     p_Block := out_of_fuel;
     p_Statement := out_of_fuel;
     p_IfStatement := out_of_fuel;
     p_ForLoop := out_of_fuel;
     p_WhileLoop := out_of_fuel;
     p_DoWhileLoop := out_of_fuel;
     p_SwitchStatement := out_of_fuel;
     p_ReturnStatement := out_of_fuel;
     p_BreakStatement := out_of_fuel;
     p_ContinueStatement := out_of_fuel;
     p_Expression := out_of_fuel;
     p_Assignment := out_of_fuel;
     p_LogicalOr := out_of_fuel;
     p_LogicalAnd := out_of_fuel;
     p_Equality := out_of_fuel;
     p_Comparison := out_of_fuel;
     p_Additive := out_of_fuel;
     p_Multiplicative := out_of_fuel;
     p_Unary := out_of_fuel;
     p_CallOrMember := out_of_fuel;
     p_CallExpression := fun _ => out_of_fuel;
     p_MemberExpression := fun _ => out_of_fuel;
     p_IndexExpression := fun _ => out_of_fuel;
     p_ObjectLiteral := out_of_fuel;
     p_ArrayLiteral := out_of_fuel;
     p_Primary := out_of_fuel |}.

Fixpoint parser (fuel : nat) : parsers :=
  match fuel with
  | 0 => no_parsers
  | S fuel' => methods (parser fuel') fuel'
  end.

Definition set_currentToken (n : nat) : M unit :=
  fun st => (Ret tt, mkCompiler (tokens st) (ast st) n (errors st) (warnings st)).

Definition set_ast (a : option ASTNode) : M unit :=
  fun st =>
    (Ret tt, mkCompiler (tokens st) a (currentToken st) (errors st) (warnings st)).

(** [parse()] *)
Definition parse (fuel : nat) : M (option ASTNode) :=
  set_currentToken 0 ;;
  try_catch
    (program <- parseProgram (parser fuel) fuel ;;
     set_ast (Some program) ;;
     ret (Some program))
    (fun message =>
       addError (utf16 "Parsing error: " ++ message) ;;
       ret None).

(** ** Static analysis

    [variableUsage] is a [Map] from names to the record
    [{declared, used}]; a [Map] lists its entries in the order in which their
    keys were first set. *)

Definition usage_map := list (jsstring * (bool * bool)).

Fixpoint usage_get (m : usage_map) (k : jsstring) : option (bool * bool) :=
  match m with
  | [] => None
  | (k', v) :: rest => if str_eqb k k' then Some v else usage_get rest k
  end.

Fixpoint usage_set (m : usage_map) (k : jsstring) (v : bool * bool) : usage_map :=
  match m with
  | [] => [(k, v)]
  | (k', v') :: rest =>
      if str_eqb k k' then (k', v) :: rest else (k', v') :: usage_set rest k v
  end.

Definition is_predefined (name : jsstring) : bool :=
  includes predefinedVariables name || includes predefinedFunctions name.

(** The state of the walk: [variableUsage] and the compiler's [warnings]. *)
Definition walk := (usage_map * list jsstring)%type.

Definition visit_option (visit : ASTNode -> walk -> walk) (n : option ASTNode)
  (w : walk) : walk :=
  match n with
  | Some node => visit node w
  | None => w
  end.

(** The walk visits the children of a node in the order of the node's keys. *)
Fixpoint visit (node : ASTNode) (w : walk) {struct node} : walk :=
  match node with
  | VariableDeclaration _ identifier init =>
      let w1 :=
        match usage_get (fst w) identifier with
        | Some (declared, used) =>
            (usage_set (fst w) identifier (true, used),
             if declared
             then snd w ++ [utf16 "Variable '" ++ identifier
                              ++ utf16 "' is already declared"]
             else snd w)
        | None => (usage_set (fst w) identifier (true, false), snd w)
        end in
      visit_option visit init w1
  | FunctionDefinition _ params body =>
      visit body
        (fold_left (fun m param => usage_set m param (true, false)) params (fst w),
         snd w)
  | Identifier name _ =>
      if is_predefined name then w
      else match usage_get (fst w) name with
           | Some (declared, _) => (usage_set (fst w) name (declared, true), snd w)
           | None => (usage_set (fst w) name (false, true), snd w)
           end
  | Program body => fold_left (fun w n => visit n w) body w
  | Block statements => fold_left (fun w n => visit n w) statements w
  | ExpressionStatement expression => visit expression w
  | IfStatement condition consequent alternate =>
      visit_option visit alternate (visit consequent (visit condition w))
  | ForLoop init condition update body =>
      visit body
        (visit_option visit update
           (visit_option visit condition (visit_option visit init w)))
  | WhileLoop condition body => visit body (visit condition w)
  | DoWhileLoop body condition => visit condition (visit body w)
  | SwitchStatement discriminant cases =>
      fold_left (fun w c => visit_case c w) cases (visit discriminant w)
  | ReturnStatement argument => visit_option visit argument w
  | BreakStatement | ContinueStatement | EmptyStatement | ThisExpression => w
  | AssignmentExpression _ lhs rhs => visit rhs (visit lhs w)
  | BinaryExpression _ lhs rhs => visit rhs (visit lhs w)
  | UnaryExpression _ argument => visit argument w
  | CallExpression callee arguments =>
      fold_left (fun w n => visit n w) arguments (visit callee w)
  | MemberExpression object property =>
      match property with
      | inl _ => visit object w
      | inr p => visit p (visit object w)
      end
  | Vec2Expression x y => visit y (visit x w)
  | Vec3Expression x y z => visit z (visit y (visit x w))
  | ObjectExpression properties =>
      fold_left (fun w p => visit_property p w) properties w
  | ArrayExpression elements =>
      fold_left (fun w e => visit_option visit e w) elements w
  | Literal _ _ => w
  end
with visit_case (c : SwitchCaseNode) (w : walk) {struct c} : walk :=
  match c with
  | SwitchCase test consequent =>
      fold_left (fun w n => visit n w) consequent (visit_option visit test w)
  end
with visit_property (p : PropertyNode) (w : walk) {struct p} : walk :=
  match p with
  | Property key value _ => visit value (visit key w)
  end.

(** The loop over [variableUsage.entries()] after the walk. *)
Definition usage_warnings (m : usage_map) : list jsstring :=
  flat_map
    (fun entry =>
       let '(name, (declared, used)) := entry in
       (if declared && negb used
        then [utf16 "Variable '" ++ name ++ utf16 "' is declared but never used"]
        else [])
       ++
       (if negb declared && used && negb (is_predefined name)
        then [utf16 "Variable '" ++ name ++ utf16 "' is used but not declared"]
        else []))
    m.

Definition analyzeCode : M unit :=
  fun st =>
    match ast st with
    | None => (Ret tt, st)
    | Some root =>
        let w := visit root ([], warnings st) in
        (Ret tt, mkCompiler (tokens st) (ast st) (currentToken st) (errors st)
                   (snd w ++ usage_warnings (fst w)))
    end.

(** [optimizeCode()] has an empty body. *)
Definition optimizeCode : M unit := ret tt.

(** ** Code generation *)

(** The [switch (node.name)] of the [Identifier] case: its labels with the
    strings they return, in the order of the source. *)
Definition identifier_cases : list (string * string) :=
  [ ("keyboard_check", "SAAAM.keyboardCheck");
    ("keyboard_check_pressed", "SAAAM.keyboardCheckPressed");
    ("keyboard_check_released", "SAAAM.keyboardCheckReleased");
    ("draw_sprite", "SAAAM.drawSprite");
    ("draw_text", "SAAAM.drawText");
    ("draw_rectangle", "SAAAM.drawRectangle");
    ("draw_circle", "SAAAM.drawCircle");
    ("draw_line", "SAAAM.drawLine");
    ("play_sound", "SAAAM.playSound");
    ("play_music", "SAAAM.playMusic");
    ("check_collision", "SAAAM.checkCollision");
    ("point_distance", "SAAAM.pointDistance");
    ("delta_time", "SAAAM.deltaTime");
    ("current_time", "SAAAM.currentTime");
    ("vk_left", "SAAAM.vk.left");
    ("vk_right", "SAAAM.vk.right");
    ("vk_up", "SAAAM.vk.up");
    ("vk_down", "SAAAM.vk.down");
    ("vk_space", "SAAAM.vk.space");
    ("vk_enter", "SAAAM.vk.enter");
    ("vk_escape", "SAAAM.vk.escape");
    ("vk_shift", "SAAAM.vk.shift") ]%string.

(** A [switch] returns at the first label equal to the name; [default]
    returns the name. *)
Definition generateIdentifier (name : jsstring) : jsstring :=
  match find (fun c => str_eqb name (utf16 (fst c))) identifier_cases with
  | Some c => utf16 (snd c)
  | None => name
  end.

(** [indent(code)] *)
Definition indent (code : jsstring) : jsstring :=
  join nl (map (fun line => utf16 "  " ++ line) (split_on 10%N code)).

(** [value.replace(/"/g, '\\"')] *)
Definition escape_quotes (s : jsstring) : jsstring :=
  flat_map (fun c => if N.eqb c 34 then backslash ++ dquote else [c]) s.

Section Generator.

(** The decimal text that [toString] gives for the number that
    [Number.parseFloat] read from a token, as a function of the token. *)
Variable number_toString : jsstring -> jsstring.

(** A literal's value converted to a string by [toString] or in a template. *)
Definition literal_text (v : LiteralValue) : jsstring :=
  match v with
  | LNumber lexeme => number_toString lexeme
  | LString s => s
  | LBool true => utf16 "true"
  | LBool false => utf16 "false"
  | LNull => utf16 "null"
  end.

(** The key of a property that is not computed:
    [prop.key.type === "Identifier" ? prop.key.name : `"${prop.key.value}"`]. *)
Definition property_key_text (key : ASTNode) : jsstring :=
  match key with
  | Identifier name _ => name
  | Literal v _ => dquote ++ literal_text v ++ dquote
  | _ => dquote ++ utf16 "undefined" ++ dquote
  end.

Fixpoint generateNode (node : ASTNode) {struct node} : jsstring :=
  match node with
  | Program body => join nl (map generateNode body)
  | VariableDeclaration kind identifier init =>
      kind ++ utf16 " " ++ identifier
        ++ match init with
           | Some i => utf16 " = " ++ generateNode i
           | None => []
           end
        ++ utf16 ";"
  | FunctionDefinition name params body =>
      utf16 "function " ++ name ++ utf16 "(" ++ join (utf16 ", ") params
        ++ utf16 ") " ++ generateNode body
  | Block statements =>
      utf16 "{" ++ nl ++ indent (join nl (map generateNode statements))
        ++ nl ++ utf16 "}"
  | ExpressionStatement expression => generateNode expression ++ utf16 ";"
  | IfStatement condition consequent alternate =>
      utf16 "if (" ++ generateNode condition ++ utf16 ") "
        ++ generateNode consequent
        ++ match alternate with
           | Some a => utf16 " else " ++ generateNode a
           | None => []
           end
  | ForLoop init condition update body =>
      let initStr :=
        match init with
        | Some (VariableDeclaration _ _ _ as i) => generateNode i
        | Some i => generateNode i ++ utf16 ";"
        | None => []
        end in
      let condStr :=
        match condition with
        | Some c => generateNode c
        | None => utf16 "true"
        end in
      let updateStr :=
        match update with
        | Some u => generateNode u
        | None => []
        end in
      utf16 "for (" ++ initStr ++ utf16 " " ++ condStr ++ utf16 "; "
        ++ updateStr ++ utf16 ") " ++ generateNode body
  | WhileLoop condition body =>
      utf16 "while (" ++ generateNode condition ++ utf16 ") "
        ++ generateNode body
  | DoWhileLoop body condition =>
      utf16 "do " ++ generateNode body ++ utf16 " while ("
        ++ generateNode condition ++ utf16 ");"
  | SwitchStatement discriminant cases =>
      utf16 "switch (" ++ generateNode discriminant ++ utf16 ") {" ++ nl
        ++ concat (map generateCase cases)
        ++ utf16 "}"
  | ReturnStatement argument =>
      match argument with
      | Some a => utf16 "return " ++ generateNode a ++ utf16 ";"
      | None => utf16 "return;"
      end
  | BreakStatement => utf16 "break;"
  | ContinueStatement => utf16 "continue;"
  | EmptyStatement => utf16 ";"
  | AssignmentExpression operator lhs rhs =>
      generateNode lhs ++ utf16 " " ++ operator ++ utf16 " "
        ++ generateNode rhs
  | BinaryExpression operator lhs rhs =>
      generateNode lhs ++ utf16 " " ++ operator ++ utf16 " "
        ++ generateNode rhs
  | UnaryExpression operator argument => operator ++ generateNode argument
  | CallExpression callee arguments =>
      generateNode callee ++ utf16 "("
        ++ join (utf16 ", ") (map generateNode arguments) ++ utf16 ")"
  | MemberExpression object property =>
      match property with
      | inr p => generateNode object ++ utf16 "[" ++ generateNode p ++ utf16 "]"
      | inl name => generateNode object ++ utf16 "." ++ name
      end
  | ThisExpression => utf16 "this"
  | Vec2Expression x y =>
      utf16 "{ x: " ++ generateNode x ++ utf16 ", y: " ++ generateNode y
        ++ utf16 " }"
  | Vec3Expression x y z =>
      utf16 "{ x: " ++ generateNode x ++ utf16 ", y: " ++ generateNode y
        ++ utf16 ", z: " ++ generateNode z ++ utf16 " }"
  | ObjectExpression properties =>
      match properties with
      | [] => utf16 "{}"
      | _ => utf16 "{ " ++ join (utf16 ", ") (map generateProperty properties)
               ++ utf16 " }"
      end
  | ArrayExpression elements =>
      utf16 "["
        ++ join (utf16 ", ")
             (map (fun element =>
                     match element with
                     | None => []
                     | Some e => generateNode e
                     end) elements)
        ++ utf16 "]"
  | Identifier name _ => generateIdentifier name
  | Literal v _ =>
      match v with
      | LString s => dquote ++ escape_quotes s ++ dquote
      | _ => literal_text v
      end
  end
with generateCase (caseNode : SwitchCaseNode) {struct caseNode} : jsstring :=
  match caseNode with
  | SwitchCase test consequent =>
      match test with
      | None => utf16 "default:" ++ nl
      | Some t => utf16 "case " ++ generateNode t ++ utf16 ":" ++ nl
      end
      ++ concat (map (fun stmt => indent (generateNode stmt) ++ nl) consequent)
  end
with generateProperty (prop : PropertyNode) {struct prop} : jsstring :=
  match prop with
  | Property key val computed =>
      if computed
      then utf16 "[" ++ generateNode key ++ utf16 "]: " ++ generateNode val
      else property_key_text key ++ utf16 ": " ++ generateNode val
  end.

(** [generate()] *)
Definition generate : M jsstring :=
  fun st =>
    match ast st with
    | None => (Ret (utf16 "// No AST to generate code from"), st)
    | Some root => (Ret (generateNode root), st)
    end.

(** ** The entry points *)

Record CompileResult : Type := mkResult {
  success : bool;
  js : option jsstring;
  result_errors : list jsstring;
  result_warnings : list jsstring;
  result_ast : option ASTNode
}.

Definition reset : M unit :=
  fun _ => (Ret tt, mkCompiler [] None 0 [] []).

(** [tokenize(code)]: the loop runs at most once for each code unit. *)
Definition tokenize (code : jsstring) : M (list Token) :=
  fun st =>
    match tokenize_fuel (length code) code (errors st) with
    | Some (toks, errs) =>
        (Ret toks, mkCompiler toks (ast st) (currentToken st) errs (warnings st))
    | None => (OutOfFuel, st)
    end.

Definition get_state : M SaaamCompiler := fun st => (Ret st, st).

Definition compile (fuel : nat) (code : jsstring) : M CompileResult :=
  reset ;;
  try_catch
    (tokenize code ;;
     tree <- parse fuel ;;
     set_ast tree ;;
     analyzeCode ;;
     optimizeCode ;;
     text <- generate ;;
     this <- get_state ;;
     ret (mkResult (length (errors this) =? 0) (Some text)
            (errors this) (warnings this) (ast this)))
    (fun message =>
       addError (utf16 "Compilation error: " ++ message) ;;
       this <- get_state ;;
       ret (mkResult false None (errors this) (warnings this) (ast this))).

Definition failure_header : jsstring :=
  utf16 "// Compilation failed with errors:" ++ nl ++ utf16 "// ".

Definition wrapper_prologue : jsstring :=
  nl ++ utf16 "// Compiled SAAAM code" ++ nl ++ utf16 "(function(SAAAM) {" ++ nl.

Definition register_create : jsstring :=
  utf16 "if (typeof create === 'function') SAAAM.registerCreate(create);".
Definition register_step : jsstring :=
  utf16 "if (typeof step === 'function') SAAAM.registerStep(step);".
Definition register_draw : jsstring :=
  utf16 "if (typeof draw === 'function') SAAAM.registerDraw(draw);".
Definition register_collision : jsstring :=
  utf16 "if (typeof on_collision === 'function') SAAAM.registerCollision(on_collision);".

Definition wrapper_epilogue : jsstring :=
  nl ++ nl ++ utf16 "// Register lifecycle functions with SAAAM engine" ++ nl
    ++ register_create ++ nl
    ++ register_step ++ nl
    ++ register_draw ++ nl
    ++ register_collision ++ nl
    ++ nl ++ utf16 "})(SAAAM || {});" ++ nl.

Definition compileToJS (fuel : nat) (code : jsstring) : M jsstring :=
  result <- compile fuel code ;;
  if negb (success result)
  then ret (failure_header ++ join (nl ++ utf16 "// ") (result_errors result))
  else
    let compiledCode := match js result with Some text => text | None => [] end in
    ret (wrapper_prologue ++ indent compiledCode ++ wrapper_epilogue).

End Generator.

(** ** The call stack

    [visit] and [generateNode] call themselves once for every level of the
    tree, and the engine throws a [RangeError] when the nesting of calls goes
    beyond what its stack holds.  The functions above are the program on a
    stack that holds every tree; the ones below take the number of nested
    calls that the stack holds, and throw when a call goes beyond it.  On a
    stack that is deep enough for the tree they are the functions above
    (lemma [compile_within_enough]).  The
    parser builds trees of any depth (a [-] before an operand is a level),
    and neither function catches the exception: it reaches the [catch] of
    [compile].  The stack is counted in calls of [visit] and of
    [generateNode]: what these call besides themselves ([includes], [map],
    [indent], [addWarning]) returns before the next level is entered and
    changes nothing that is kept when the exception is thrown there. *)

(** The [message] of the [RangeError], as V8 words it. *)
Definition stack_overflow : jsstring := utf16 "Maximum call stack size exceeded".

(** The walk of [analyzeCode]: done, or stopped by the exception with the
    warnings added so far. *)
Definition walk_result := (walk + list jsstring)%type.

Definition and_then (r : walk_result) (k : walk -> walk_result) : walk_result :=
  match r with
  | inl w => k w
  | inr warnings => inr warnings
  end.

(** A loop over children, each visited by [f]. *)
Fixpoint walk_all {A} (f : A -> walk -> walk_result) (l : list A) (w : walk)
  : walk_result :=
  match l with
  | [] => inl w
  | x :: rest => and_then (f x w) (walk_all f rest)
  end.

Definition walk_option (f : ASTNode -> walk -> walk_result) (n : option ASTNode)
  (w : walk) : walk_result :=
  match n with
  | Some node => f node w
  | None => inl w
  end.

(** [visit(node)] with [stack] nested calls left.  A clause of a [switch] and
    a property of an object literal are nodes: [visit] is called on them. *)
Fixpoint visit_within (stack : nat) (node : ASTNode) (w : walk) {struct stack}
  : walk_result :=
  match stack with
  | 0 => inr (snd w)
  | S stack' =>
      let visit' := visit_within stack' in
      match node with
      | VariableDeclaration _ identifier init =>
          let w1 :=
            match usage_get (fst w) identifier with
            | Some (declared, used) =>
                (usage_set (fst w) identifier (true, used),
                 if declared
                 then snd w ++ [utf16 "Variable '" ++ identifier
                                  ++ utf16 "' is already declared"]
                 else snd w)
            | None => (usage_set (fst w) identifier (true, false), snd w)
            end in
          walk_option visit' init w1
      | FunctionDefinition _ params body =>
          visit' body
            (fold_left (fun m param => usage_set m param (true, false)) params
               (fst w),
             snd w)
      | Identifier name _ =>
          if is_predefined name then inl w
          else match usage_get (fst w) name with
               | Some (declared, _) =>
                   inl (usage_set (fst w) name (declared, true), snd w)
               | None => inl (usage_set (fst w) name (false, true), snd w)
               end
      | Program body => walk_all visit' body w
      | Block statements => walk_all visit' statements w
      | ExpressionStatement expression => visit' expression w
      | IfStatement condition consequent alternate =>
          and_then (visit' condition w) (fun w1 =>
          and_then (visit' consequent w1) (walk_option visit' alternate))
      | ForLoop init condition update body =>
          and_then (walk_option visit' init w) (fun w1 =>
          and_then (walk_option visit' condition w1) (fun w2 =>
          and_then (walk_option visit' update w2) (visit' body)))
      | WhileLoop condition body =>
          and_then (visit' condition w) (visit' body)
      | DoWhileLoop body condition =>
          and_then (visit' body w) (visit' condition)
      | SwitchStatement discriminant cases =>
          and_then (visit' discriminant w)
            (walk_all (visit_case_within stack') cases)
      | ReturnStatement argument => walk_option visit' argument w
      | BreakStatement | ContinueStatement | EmptyStatement | ThisExpression =>
          inl w
      | AssignmentExpression _ lhs rhs => and_then (visit' lhs w) (visit' rhs)
      | BinaryExpression _ lhs rhs => and_then (visit' lhs w) (visit' rhs)
      | UnaryExpression _ argument => visit' argument w
      | CallExpression callee arguments =>
          and_then (visit' callee w) (walk_all visit' arguments)
      | MemberExpression object property =>
          match property with
          | inl _ => visit' object w
          | inr p => and_then (visit' object w) (visit' p)
          end
      | Vec2Expression x y => and_then (visit' x w) (visit' y)
      | Vec3Expression x y z =>
          and_then (visit' x w) (fun w1 => and_then (visit' y w1) (visit' z))
      | ObjectExpression properties =>
          walk_all (visit_property_within stack') properties w
      | ArrayExpression elements => walk_all (walk_option visit') elements w
      | Literal _ _ => inl w
      end
  end
with visit_case_within (stack : nat) (c : SwitchCaseNode) (w : walk)
  {struct stack} : walk_result :=
  match stack with
  | 0 => inr (snd w)
  | S stack' =>
      match c with
      | SwitchCase test consequent =>
          and_then (walk_option (visit_within stack') test w)
            (walk_all (visit_within stack') consequent)
      end
  end
with visit_property_within (stack : nat) (p : PropertyNode) (w : walk)
  {struct stack} : walk_result :=
  match stack with
  | 0 => inr (snd w)
  | S stack' =>
      match p with
      | Property key value _ =>
          and_then (visit_within stack' key w) (visit_within stack' value)
      end
  end.

(** [analyzeCode()] on a stack that holds [stack] nested calls of [visit]. *)
Definition analyzeCode_within (stack : nat) : M unit :=
  fun st =>
    match ast st with
    | None => (Ret tt, st)
    | Some root =>
        match visit_within stack root ([], warnings st) with
        | inl w =>
            (Ret tt, mkCompiler (tokens st) (ast st) (currentToken st) (errors st)
                       (snd w ++ usage_warnings (fst w)))
        | inr warnings' =>
            (Thrown stack_overflow,
             mkCompiler (tokens st) (ast st) (currentToken st) (errors st)
               warnings')
        end
    end.

(** The texts of the children, if none of them threw. *)
Fixpoint texts_of {A} (f : A -> option jsstring) (l : list A)
  : option (list jsstring) :=
  match l with
  | [] => Some []
  | x :: rest =>
      match f x, texts_of f rest with
      | Some text, Some texts => Some (text :: texts)
      | _, _ => None
      end
  end.

Section CallStack.

Variable number_toString : jsstring -> jsstring.

(** [generateNode(node)] with [stack] nested calls left: [None] is the
    exception.  A node gives the text that [generateNode] gives, from the
    texts of its children. *)
Fixpoint generateNode_within (stack : nat) (node : ASTNode) {struct stack}
  : option jsstring :=
  match stack with
  | 0 => None
  | S stack' =>
      let text := generateNode_within stack' in
      let text_of_option := fun o : option ASTNode =>
        match o with
        | Some n => text n
        | None => Some []
        end in
      let with1 := fun (a : ASTNode) (k : jsstring -> jsstring) =>
        option_map k (text a) in
      let with2 := fun (a b : ASTNode) (k : jsstring -> jsstring -> jsstring) =>
        match text a, text b with
        | Some x, Some y => Some (k x y)
        | _, _ => None
        end in
      match node with
      | Program body => option_map (join nl) (texts_of text body)
      | VariableDeclaration kind identifier init =>
          match init with
          | Some i =>
              with1 i (fun t => kind ++ utf16 " " ++ identifier
                                  ++ (utf16 " = " ++ t) ++ utf16 ";")
          | None => Some (kind ++ utf16 " " ++ identifier ++ [] ++ utf16 ";")
          end
      | FunctionDefinition name params body =>
          with1 body (fun t =>
            utf16 "function " ++ name ++ utf16 "(" ++ join (utf16 ", ") params
              ++ utf16 ") " ++ t)
      | Block statements =>
          option_map
            (fun texts => utf16 "{" ++ nl ++ indent (join nl texts)
                            ++ nl ++ utf16 "}")
            (texts_of text statements)
      | ExpressionStatement expression =>
          with1 expression (fun t => t ++ utf16 ";")
      | IfStatement condition consequent alternate =>
          match text condition, text consequent, alternate with
          | Some c, Some t, None =>
              Some (utf16 "if (" ++ c ++ utf16 ") " ++ t ++ [])
          | Some c, Some t, Some a =>
              option_map
                (fun e => utf16 "if (" ++ c ++ utf16 ") " ++ t
                            ++ (utf16 " else " ++ e))
                (text a)
          | _, _, _ => None
          end
      | ForLoop init condition update body =>
          let initStr :=
            match init with
            | Some (VariableDeclaration _ _ _ as i) => text i
            | Some i => option_map (fun t => t ++ utf16 ";") (text i)
            | None => Some []
            end in
          let condStr :=
            match condition with
            | Some c => text c
            | None => Some (utf16 "true")
            end in
          match initStr, condStr, text_of_option update, text body with
          | Some i, Some c, Some u, Some b =>
              Some (utf16 "for (" ++ i ++ utf16 " " ++ c ++ utf16 "; "
                      ++ u ++ utf16 ") " ++ b)
          | _, _, _, _ => None
          end
      | WhileLoop condition body =>
          with2 condition body (fun c b =>
            utf16 "while (" ++ c ++ utf16 ") " ++ b)
      | DoWhileLoop body condition =>
          with2 body condition (fun b c =>
            utf16 "do " ++ b ++ utf16 " while (" ++ c ++ utf16 ");")
      | SwitchStatement discriminant cases =>
          match text discriminant,
                texts_of
                  (fun caseNode =>
                     match caseNode with
                     | SwitchCase test consequent =>
                         match
                           match test with
                           | None => Some (utf16 "default:" ++ nl)
                           | Some t =>
                               option_map
                                 (fun x => utf16 "case " ++ x ++ utf16 ":" ++ nl)
                                 (text t)
                           end,
                           texts_of
                             (fun stmt =>
                                option_map (fun x => indent x ++ nl) (text stmt))
                             consequent
                         with
                         | Some label, Some lines => Some (label ++ concat lines)
                         | _, _ => None
                         end
                     end)
                  cases
          with
          | Some d, Some clauses =>
              Some (utf16 "switch (" ++ d ++ utf16 ") {" ++ nl
                      ++ concat clauses ++ utf16 "}")
          | _, _ => None
          end
      | ReturnStatement argument =>
          match argument with
          | Some a => with1 a (fun t => utf16 "return " ++ t ++ utf16 ";")
          | None => Some (utf16 "return;")
          end
      | BreakStatement => Some (utf16 "break;")
      | ContinueStatement => Some (utf16 "continue;")
      | EmptyStatement => Some (utf16 ";")
      | AssignmentExpression operator lhs rhs =>
          with2 lhs rhs (fun l r => l ++ utf16 " " ++ operator ++ utf16 " " ++ r)
      | BinaryExpression operator lhs rhs =>
          with2 lhs rhs (fun l r => l ++ utf16 " " ++ operator ++ utf16 " " ++ r)
      | UnaryExpression operator argument =>
          with1 argument (fun t => operator ++ t)
      | CallExpression callee arguments =>
          match text callee, texts_of text arguments with
          | Some c, Some args =>
              Some (c ++ utf16 "(" ++ join (utf16 ", ") args ++ utf16 ")")
          | _, _ => None
          end
      | MemberExpression object property =>
          match property with
          | inr p =>
              with2 object p (fun o x => o ++ utf16 "[" ++ x ++ utf16 "]")
          | inl name => with1 object (fun o => o ++ utf16 "." ++ name)
          end
      | ThisExpression => Some (utf16 "this")
      | Vec2Expression x y =>
          with2 x y (fun a b =>
            utf16 "{ x: " ++ a ++ utf16 ", y: " ++ b ++ utf16 " }")
      | Vec3Expression x y z =>
          match text x, text y, text z with
          | Some a, Some b, Some c =>
              Some (utf16 "{ x: " ++ a ++ utf16 ", y: " ++ b
                      ++ utf16 ", z: " ++ c ++ utf16 " }")
          | _, _, _ => None
          end
      | ObjectExpression properties =>
          match properties with
          | [] => Some (utf16 "{}")
          | _ =>
              option_map
                (fun props => utf16 "{ " ++ join (utf16 ", ") props ++ utf16 " }")
                (texts_of
                   (fun prop =>
                      match prop with
                      | Property key val computed =>
                          if computed
                          then with2 key val (fun k v =>
                                 utf16 "[" ++ k ++ utf16 "]: " ++ v)
                          else with1 val (fun v =>
                                 property_key_text number_toString key
                                   ++ utf16 ": " ++ v)
                      end)
                   properties)
          end
      | ArrayExpression elements =>
          option_map
            (fun texts => utf16 "[" ++ join (utf16 ", ") texts ++ utf16 "]")
            (texts_of text_of_option elements)
      | Identifier name _ => Some (generateIdentifier name)
      | Literal v _ =>
          Some match v with
               | LString s => dquote ++ escape_quotes s ++ dquote
               | _ => literal_text number_toString v
               end
      end
  end.

(** [generate()] on a stack that holds [stack] nested calls of
    [generateNode]. *)
Definition generate_within (stack : nat) : M jsstring :=
  fun st =>
    match ast st with
    | None => (Ret (utf16 "// No AST to generate code from"), st)
    | Some root =>
        match generateNode_within stack root with
        | Some text => (Ret text, st)
        | None => (Thrown stack_overflow, st)
        end
    end.

(** [compile(code)] and [compileToJS(code)] on a stack that holds
    [walk_stack] nested calls of [visit] and [emit_stack] nested calls of
    [generateNode]. *)
Definition compile_within (walk_stack emit_stack : nat) (fuel : nat)
  (code : jsstring) : M CompileResult :=
  reset ;;
  try_catch
    (tokenize code ;;
     tree <- parse fuel ;;
     set_ast tree ;;
     analyzeCode_within walk_stack ;;
     optimizeCode ;;
     text <- generate_within emit_stack ;;
     this <- get_state ;;
     ret (mkResult (length (errors this) =? 0) (Some text)
            (errors this) (warnings this) (ast this)))
    (fun message =>
       addError (utf16 "Compilation error: " ++ message) ;;
       this <- get_state ;;
       ret (mkResult false None (errors this) (warnings this) (ast this))).

Definition compileToJS_within (walk_stack emit_stack : nat) (fuel : nat)
  (code : jsstring) : M jsstring :=
  result <- compile_within walk_stack emit_stack fuel code ;;
  if negb (success result)
  then ret (failure_header ++ join (nl ++ utf16 "// ") (result_errors result))
  else
    let compiledCode := match js result with Some text => text | None => [] end in
    ret (wrapper_prologue ++ indent compiledCode ++ wrapper_epilogue).

End CallStack.

(** A fresh compiler object, as the constructor leaves it. *)
Definition new_compiler : SaaamCompiler := mkCompiler [] None 0 [] [].

(** ** Vocabulary of the properties *)

(** The compiler's entry points run on a fresh compiler object. *)
Definition compiled (number_toString : jsstring -> jsstring) (fuel : nat)
  (code : jsstring) : outcome CompileResult :=
  fst (compile number_toString fuel code new_compiler).

Definition emitted (number_toString : jsstring -> jsstring) (fuel : nat)
  (code : jsstring) : outcome jsstring :=
  fst (compileToJS number_toString fuel code new_compiler).

(** The text of a number in the examples, none of which has a number whose
    decimal text differs from its token. *)
Definition lexeme_text (lexeme : jsstring) : jsstring := lexeme.

(** The program declares a function [name] at its top level. *)
Definition declares_function (name : string) (root : option ASTNode) : bool :=
  match root with
  | Some (Program body) =>
      existsb (fun n => match n with
                        | FunctionDefinition f _ _ => str_eqb f (utf16 name)
                        | _ => false
                        end) body
  | _ => false
  end.

(** The pattern of a table entry matches at the start of [remaining]: at the
    current offset, as a lexical rule is meant to. *)
Definition rule_matches_here (t : TokenType) (remaining : jsstring) : bool :=
  match rmatch (tt_multiline t) (tt_regex t) None remaining (fun _ s' => Some s') with
  | Some _ => true
  | None => false
  end.

Definition no_rule_matches_here (remaining : jsstring) : bool :=
  forallb (fun t => negb (rule_matches_here t remaining)) tokenTypes.

(** The lines of a text. *)
Definition lines (text : jsstring) : list jsstring := split_on 10%N text.

(** The clause of a [switch] has a test: it is a [case], not the [default]. *)
Definition has_test (c : SwitchCaseNode) : bool :=
  match case_test c with Some _ => true | None => false end.

(** Everywhere in the tree, a [switch] has its [default] clause, if any, as
    the last of its [cases]: every clause before the last has a test. *)
Fixpoint default_last (node : ASTNode) {struct node} : bool :=
  let opt := fun o : option ASTNode =>
               match o with Some n => default_last n | None => true end in
  match node with
  | Program body => forallb default_last body
  | VariableDeclaration _ _ init => opt init
  | FunctionDefinition _ _ body => default_last body
  | Block statements => forallb default_last statements
  | ExpressionStatement expression => default_last expression
  | IfStatement condition consequent alternate =>
      default_last condition && default_last consequent && opt alternate
  | ForLoop init condition update body =>
      opt init && opt condition && opt update && default_last body
  | WhileLoop condition body => default_last condition && default_last body
  | DoWhileLoop body condition => default_last body && default_last condition
  | SwitchStatement discriminant cases =>
      default_last discriminant && forallb default_last_case cases
      && forallb has_test (removelast cases)
  | ReturnStatement argument => opt argument
  | BreakStatement | ContinueStatement | EmptyStatement | ThisExpression => true
  | AssignmentExpression _ lhs rhs => default_last lhs && default_last rhs
  | BinaryExpression _ lhs rhs => default_last lhs && default_last rhs
  | UnaryExpression _ argument => default_last argument
  | CallExpression callee arguments =>
      default_last callee && forallb default_last arguments
  | MemberExpression object property =>
      default_last object
      && match property with inl _ => true | inr p => default_last p end
  | Vec2Expression x y => default_last x && default_last y
  | Vec3Expression x y z => default_last x && default_last y && default_last z
  | ObjectExpression properties => forallb default_last_property properties
  | ArrayExpression elements => forallb opt elements
  | Identifier _ _ | Literal _ _ => true
  end
with default_last_case (c : SwitchCaseNode) {struct c} : bool :=
  match c with
  | SwitchCase test consequent =>
      match test with Some t => default_last t | None => true end
      && forallb default_last consequent
  end
with default_last_property (p : PropertyNode) {struct p} : bool :=
  match p with
  | Property key val _ => default_last key && default_last val
  end.

(** Whatever value a method returns satisfies [Q]. *)
Definition returns {A} (m : M A) (Q : A -> Prop) : Prop :=
  forall st a st', m st = (Ret a, st') -> Q a.

(** The values that are in order, type by type: a node is one whose switches
    have their default last, and so on through lists, options and pairs. *)
Class Ok (A : Type) : Type := ok : A -> Prop.

#[export] Instance Ok_node : Ok ASTNode := fun n => default_last n = true.
#[export] Instance Ok_case : Ok SwitchCaseNode := fun c => default_last_case c = true.
#[export] Instance Ok_property : Ok PropertyNode :=
  fun p => default_last_property p = true.
#[export] Instance Ok_token : Ok Token := fun _ => True.
#[export] Instance Ok_bool : Ok bool := fun _ => True.
#[export] Instance Ok_unit : Ok unit := fun _ => True.
#[export] Instance Ok_list {A} `{Ok A} : Ok (list A) | 10 := Forall ok.
#[export] Instance Ok_string : Ok jsstring | 0 := fun _ => True.
#[export] Instance Ok_option {A} `{Ok A} : Ok (option A) :=
  fun o => match o with Some a => ok a | None => True end.
#[export] Instance Ok_loop {A} `{Ok A} : Ok (loop_ctl A) :=
  fun c => match c with Next s => ok s | Break s => ok s end.

Definition good {A} `{Ok A} (m : M A) : Prop := returns m ok.

(** A table of methods all of which return nodes that are in order. *)
Record good_parsers (self : parsers) : Prop := mkGood {
  g_VariableDeclaration : good (p_VariableDeclaration self);
  g_FunctionDefinition : good (p_FunctionDefinition self);
  g_Block : good (p_Block self);
  g_Statement : good (p_Statement self);
  g_IfStatement : good (p_IfStatement self);
  g_ForLoop : good (p_ForLoop self);
  g_WhileLoop : good (p_WhileLoop self);
  g_DoWhileLoop : good (p_DoWhileLoop self);
  g_SwitchStatement : good (p_SwitchStatement self);
  g_ReturnStatement : good (p_ReturnStatement self);
  g_BreakStatement : good (p_BreakStatement self);
  g_ContinueStatement : good (p_ContinueStatement self);
  g_Expression : good (p_Expression self);
  g_Assignment : good (p_Assignment self);
  g_LogicalOr : good (p_LogicalOr self);
  g_LogicalAnd : good (p_LogicalAnd self);
  g_Equality : good (p_Equality self);
  g_Comparison : good (p_Comparison self);
  g_Additive : good (p_Additive self);
  g_Multiplicative : good (p_Multiplicative self);
  g_Unary : good (p_Unary self);
  g_CallOrMember : good (p_CallOrMember self);
  g_CallExpression : forall callee, ok callee -> good (p_CallExpression self callee);
  g_MemberExpression : forall object, ok object -> good (p_MemberExpression self object);
  g_IndexExpression : forall object, ok object -> good (p_IndexExpression self object);
  g_ObjectLiteral : good (p_ObjectLiteral self);
  g_ArrayLiteral : good (p_ArrayLiteral self);
  g_Primary : good (p_Primary self)
}.

(** [match(ty, val)] on the token [tok]. *)
Definition accepts (tok : Token) (ty : token_kind) (val : option jsstring) : bool :=
  kind_eqb (type tok) ty
  && match val with Some v => str_eqb (value tok) v | None => true end.

(** The operators that [parseAssignment] and the binary levels go on at. *)
Definition continuing_operators : list string :=
  ["="; "+="; "-="; "*="; "/="; "%="; "||"; "&&"; "=="; "!=";
   ">"; ">="; "<"; "<="; "+"; "-"; "*"; "/"; "%"]%string.

(** After a complete expression the parser goes on at this token: one of the
    operators above, or the [(], [.] or [[] of [parseCallOrMember]. *)
Definition continues_expression (tok : Token) : bool :=
  existsb (fun v => accepts tok OPERATOR (Some (utf16 v))) continuing_operators
  || accepts tok PUNCTUATION (Some (utf16 "("))
  || accepts tok PUNCTUATION (Some (utf16 "."))
  || accepts tok BRACKET (Some (utf16 "[")).

Definition is_semicolon (tok : Token) : bool :=
  accepts tok PUNCTUATION (Some (utf16 ";")).

Definition is_closing_brace (tok : Token) : bool :=
  accepts tok BRACKET (Some (utf16 "}")).

Definition is_return (tok : Token) : bool :=
  accepts tok KEYWORD (Some (utf16 "return")).

(** A token at which a statement whose semicolon is missing ends. *)
Definition ends_statement (tok : Token) : bool :=
  negb (is_semicolon tok) && negb (continues_expression tok).

(** A token at which [parseStatement] reads one of the statements whose
    semicolon is optional: a declaration, [return], [break], [continue] or an
    expression. *)
Definition starts_plain_statement (tok : Token) : bool :=
  negb (existsb (fun v => accepts tok KEYWORD (Some (utf16 v)))
          ["if"; "for"; "while"; "do"; "switch"]%string)
  && negb (accepts tok BRACKET (Some (utf16 "{")))
  && negb (is_semicolon tok).

(** The last of the tokens [before] is the keyword [return]. *)
Definition ends_with_return (before : list Token) : bool :=
  match nth_error before (length before - 1) with
  | Some tok => is_return tok
  | None => false
  end.

(** The warning that the parser gives for a statement [node] whose semicolon
    is missing, the token [next] following the statement. *)
Definition missing_semicolon_warning (node : ASTNode) (next : Token)
  : list jsstring :=
  match node with
  | VariableDeclaration _ identifier _ =>
      [utf16 "Missing semicolon after variable declaration for '"
         ++ identifier ++ utf16 "'"]
  | ReturnStatement _ =>
      if is_closing_brace next then []
      else [utf16 "Missing semicolon after return statement"]
  | BreakStatement => [utf16 "Missing semicolon after break statement"]
  | ContinueStatement => [utf16 "Missing semicolon after continue statement"]
  | _ => [utf16 "Missing semicolon after expression"]
  end.

Definition semicolon (p : nat) : Token := mkToken PUNCTUATION (utf16 ";") p.

(** A check looks at the current token and returns a boolean of it. *)
Definition is_check (c : M bool) (f : Token -> bool) : Prop :=
  forall st,
    c st = match peek st with
           | (Ret tok, st') => (Ret (f tok), st')
           | (Thrown e, st') => (Thrown e, st')
           | (OutOfFuel, st') => (OutOfFuel, st')
           end.

(** A pattern that cannot match the empty text. *)
Fixpoint consuming (r : regex) : bool :=
  match r with
  | Chr _ | Cls _ => true
  | Lit l => match l with [] => false | _ :: _ => true end
  | Seq r1 r2 => consuming r1 || consuming r2
  | Alt r1 r2 => consuming r1 && consuming r2
  | Grp r1 | Plus r1 => consuming r1
  | Opt _ | Star _ | LazyStar _ | Bol | Eol | WordB => false
  end.

(** What a successful run of a matcher says about its continuation: it was
    called on a text no longer than the one given, and the answer is its own. *)
Definition bounded (strict : bool)
  (m : option code_unit -> jsstring -> cont -> option jsstring) : Prop :=
  forall prev s k out,
    m prev s k = Some out ->
    exists p' s', k p' s' = Some out /\ length s' <= length s
                  /\ (strict = true -> length s' < length s).

(** * Properties *)

Unset Implicit Arguments.

(** ** Strings *)

Lemma str_eqb_eq (a b : jsstring) : str_eqb a b = true <-> a = b.
Proof.
  revert b; induction a as [|x a IH]; intros [|y b]; simpl; split;
    try congruence; try discriminate; auto.
  - rewrite andb_true_iff, N.eqb_eq, IH. intros [-> ->]; reflexivity.
  - intros [= -> ->]. rewrite N.eqb_refl. simpl. apply IH. reflexivity.
Qed.

Lemma str_eqb_refl (a : jsstring) : str_eqb a a = true.
Proof. apply str_eqb_eq; reflexivity. Qed.

Lemma kind_eqb_eq (a b : token_kind) : kind_eqb a b = true <-> a = b.
Proof. destruct a, b; simpl; split; congruence. Qed.

Lemma starts_with_app (p s : jsstring) : starts_with p (p ++ s) = true.
Proof.
  induction p as [|x p IH]; simpl; [reflexivity|].
  rewrite N.eqb_refl; exact IH.
Qed.

Lemma contains_here (p s : jsstring) : starts_with p s = true -> contains p s = true.
Proof. intros H; destruct s; simpl in *; rewrite H; reflexivity. Qed.

Lemma contains_app_r (p a s : jsstring) :
  contains p s = true -> contains p (a ++ s) = true.
Proof.
  intros H; induction a as [|x a IH]; simpl; [exact H|].
  rewrite IH; apply orb_true_r.
Qed.

Lemma contains_app_l (p s b : jsstring) :
  contains p s = true -> contains p (s ++ b) = true.
Proof.
  assert (SW : forall q t, starts_with q t = true -> starts_with q (t ++ b) = true).
  { induction q as [|x q IHq]; intros [|y t]; simpl; auto; try discriminate.
    rewrite !andb_true_iff; intros [-> H]; auto. }
  induction s as [|x s IH]; simpl.
  - rewrite orb_false_r; intros H. apply contains_here. apply (SW p [] H).
  - rewrite orb_true_iff; intros [H|H].
    + apply (SW p (x :: s)) in H. simpl in H. rewrite H. reflexivity.
    + rewrite (IH H). apply orb_true_r.
Qed.

(** ** The lexer *)

Lemma match_lit_bounded (l : jsstring) :
  bounded (match l with [] => false | _ :: _ => true end) (match_lit l).
Proof.
  induction l as [|c l IH]; intros prev s k out H; simpl in H.
  - exists prev, s. split; [exact H|]. split; [lia|discriminate].
  - destruct s as [|x s]; [discriminate|].
    destruct (N.eqb x c); [|discriminate].
    apply IH in H. destruct H as (p' & s' & Hk & Hle & _).
    exists p', s'. simpl. repeat split; try assumption; lia.
Qed.

Lemma star_loop_bounded step (fuel : nat) :
  bounded false step -> bounded false (star_loop step fuel).
Proof.
  intros Hstep. induction fuel as [|fuel IH]; intros prev s k out H; simpl in H.
  - exists prev, s. split; [exact H|]. split; [lia|discriminate].
  - unfold or_else in H.
    destruct (step prev s _) as [x|] eqn:E.
    + injection H as ->. apply Hstep in E.
      destruct E as (p1 & s1 & Hk & Hle & _).
      destruct (length s1 <? length s) eqn:Hlt; [|discriminate].
      apply IH in Hk. destruct Hk as (p2 & s2 & Hk2 & Hle2 & _).
      exists p2, s2. split; [exact Hk2|]. split; [lia|discriminate].
    + exists prev, s. split; [exact H|]. split; [lia|discriminate].
Qed.

Lemma lazy_loop_bounded step (fuel : nat) :
  bounded false step -> bounded false (lazy_loop step fuel).
Proof.
  intros Hstep. induction fuel as [|fuel IH]; intros prev s k out H; simpl in H.
  - exists prev, s. split; [exact H|]. split; [lia|discriminate].
  - unfold or_else in H.
    destruct (k prev s) as [x|] eqn:E.
    + injection H as ->. exists prev, s. split; [exact E|]. split; [lia|discriminate].
    + apply Hstep in H. destruct H as (p1 & s1 & Hk & Hle & _).
      destruct (length s1 <? length s) eqn:Hlt; [|discriminate].
      apply IH in Hk. destruct Hk as (p2 & s2 & Hk2 & Hle2 & _).
      exists p2, s2. split; [exact Hk2|]. split; [lia|discriminate].
Qed.

Lemma bounded_weaken strict m : bounded strict m -> bounded false m.
Proof.
  intros H prev s k out E. apply H in E. destruct E as (p' & s' & ? & ? & _).
  exists p', s'. repeat split; try assumption. discriminate.
Qed.

Lemma rmatch_bounded (multiline : bool) (r : regex) :
  bounded (consuming r) (rmatch multiline r).
Proof.
  induction r as [c|l|p|r1 IH1 r2 IH2|r1 IH1 r2 IH2|r1 IH1|r1 IH1|r1 IH1|r1 IH1
                  |r1 IH1| | |];
    intros prev s k out H; simpl in H |- *.
  - destruct s as [|x s]; [discriminate|]. destruct (N.eqb x c); [|discriminate].
    exists (Some x), s. simpl. repeat split; try assumption; lia.
  - apply match_lit_bounded in H. exact H.
  - destruct s as [|x s]; [discriminate|]. destruct (p x); [|discriminate].
    exists (Some x), s. simpl. repeat split; try assumption; lia.
  - apply IH1 in H. destruct H as (p1 & s1 & H & Hle1 & Hlt1).
    apply IH2 in H. destruct H as (p2 & s2 & H & Hle2 & Hlt2).
    exists p2, s2. split; [exact H|]. split; [lia|].
    rewrite orb_true_iff. intros [C|C]; [apply Hlt1 in C|apply Hlt2 in C]; lia.
  - unfold or_else in H. destruct (rmatch multiline r1 prev s k) as [x|] eqn:E.
    + injection H as ->. apply IH1 in E. destruct E as (p1 & s1 & H & Hle & Hlt).
      exists p1, s1. repeat split; try assumption.
      rewrite andb_true_iff. intros [C _]. auto.
    + apply IH2 in H. destruct H as (p1 & s1 & H & Hle & Hlt).
      exists p1, s1. repeat split; try assumption.
      rewrite andb_true_iff. intros [_ C]. auto.
  - apply IH1 in H. exact H.
  - unfold or_else in H. destruct (rmatch multiline r1 prev s k) as [x|] eqn:E.
    + injection H as ->. apply IH1 in E. destruct E as (p1 & s1 & H & Hle & _).
      exists p1, s1. repeat split; try assumption. discriminate.
    + exists prev, s. split; [exact H|]. split; [lia|discriminate].
  - eapply star_loop_bounded in H; [exact H|exact (bounded_weaken _ _ IH1)].
  - eapply lazy_loop_bounded in H; [exact H|exact (bounded_weaken _ _ IH1)].
  - apply IH1 in H. destruct H as (p1 & s1 & H & Hle1 & Hlt1).
    eapply star_loop_bounded in H; [|exact (bounded_weaken _ _ IH1)].
    destruct H as (p2 & s2 & H & Hle2 & _).
    exists p2, s2. split; [exact H|]. split; [lia|].
    intros C. apply Hlt1 in C. lia.
  - exists prev, s. split; [|split; [lia|discriminate]].
    destruct prev as [c|]; [|exact H].
    destruct (multiline && is_line_terminator c); [exact H|discriminate].
  - exists prev, s. split; [|split; [lia|discriminate]].
    destruct s as [|c s]; [exact H|].
    destruct (multiline && is_line_terminator c); [exact H|discriminate].
  - exists prev, s. split; [|split; [lia|discriminate]].
    destruct (xorb (word_before prev) (word_after s)); [exact H|discriminate].
Qed.

(** A match of a consuming pattern is a non-empty piece of the text. *)
Lemma exec_from_length (multiline : bool) (r : regex) :
  consuming r = true ->
  forall s prev v,
    exec_from multiline r prev s = Some v -> 1 <= length v <= length s.
Proof.
  intros Hc. induction s as [|c s IH]; intros prev v H; cbn [exec_from] in H.
  - destruct (rmatch multiline r prev [] _) as [s'|] eqn:E; [|discriminate].
    apply rmatch_bounded in E. destruct E as (_ & s1 & _ & _ & Hlt).
    apply Hlt in Hc. simpl in Hc. lia.
  - destruct (rmatch multiline r prev (c :: s) _) as [s'|] eqn:E.
    + injection H as <-.
      apply rmatch_bounded in E. destruct E as (p1 & s1 & E & Hle & Hlt).
      injection E as ->. apply Hlt in Hc.
      rewrite length_firstn. simpl in *. destruct (length s'); lia.
    + apply IH in H. change (length (c :: s)) with (S (length s)). lia.
Qed.

Lemma first_match_length (table : list TokenType) (remaining v : jsstring)
  (tokenType : TokenType) :
  forallb (fun t => consuming (caret_source (tt_regex t))) table = true ->
  first_match table remaining = Some (v, tokenType) ->
  1 <= length v <= length remaining /\ In tokenType table.
Proof.
  induction table as [|t table IH]; simpl; [discriminate|].
  rewrite andb_true_iff. intros [Hc Hrest] H.
  unfold str_match in H.
  destruct (exec_from _ _ None remaining) as [m|] eqn:E.
  - injection H as -> ->. split; [|left; reflexivity].
    eapply exec_from_length; eassumption.
  - destruct (IH Hrest H) as [? ?]. split; [assumption|right; assumption].
Qed.

Lemma tokenTypes_consuming :
  forallb (fun t => consuming (caret_source (tt_regex t))) tokenTypes = true.
Proof. reflexivity. Qed.

Lemma tokenTypes_not_EOF (t : TokenType) : In t tokenTypes -> tt_type t <> EOF.
Proof.
  simpl. intros H.
  repeat (destruct H as [<-|H]; [discriminate|]). contradiction.
Qed.

(** The loop of [tokenize] finishes within one unit of fuel for each code unit
    that is left; the tokens it adds lie at increasing positions inside the
    text that was left, and none of them is an [EOF]. *)
Lemma tokenize_loop_spec (fuel : nat) :
  forall remaining pos tokens errors,
    length remaining <= fuel ->
    exists tokens' errors',
      tokenize_loop fuel remaining pos tokens errors
        = Some (tokens ++ tokens', errors ++ errors')
      /\ Forall (fun t => pos <= position t < pos + length remaining
                          /\ type t <> EOF) tokens'
      /\ StronglySorted lt (map position tokens').
Proof.
  induction fuel as [|fuel IH]; intros remaining pos tokens errors Hlen.
  - destruct remaining; [|simpl in Hlen; lia].
    exists [], []. simpl. rewrite !app_nil_r. repeat constructor.
  - destruct remaining as [|c rest].
    { exists [], []. simpl. rewrite !app_nil_r. repeat constructor. }
    cbn [tokenize_loop].
    destruct (first_match tokenTypes (c :: rest)) as [[v matchedType]|] eqn:E.
    + destruct (first_match_length _ _ _ _ tokenTypes_consuming E) as [[Hv1 Hv2] Hin].
      assert (Hskip : length (skipn (length v) (c :: rest)) = length (c :: rest) - length v)
        by apply length_skipn.
      destruct (IH (skipn (length v) (c :: rest)) (pos + length v)
                  (if tt_ignore matchedType then tokens
                   else tokens ++ [mkToken (tt_type matchedType) v pos]) errors)
        as (tokens' & errors' & Hrun & Hall & Hsorted).
      { rewrite Hskip. cbn [length] in *. lia. }
      rewrite Hrun. rewrite Hskip in Hall.
      assert (Hall' : Forall (fun t => pos <= position t < pos + length (c :: rest)
                                       /\ type t <> EOF) tokens').
      { eapply Forall_impl; [|exact Hall]. cbv beta. intros t [? ?]. split; [lia|assumption]. }
      destruct (tt_ignore matchedType).
      * exists tokens', errors'. repeat split; assumption.
      * exists (mkToken (tt_type matchedType) v pos :: tokens'), errors'.
        rewrite <- app_assoc. simpl. split; [reflexivity|]. split.
        -- constructor; [|exact Hall']. simpl. split; [lia|].
           apply tokenTypes_not_EOF; assumption.
        -- constructor; [exact Hsorted|].
           rewrite Forall_map. eapply Forall_impl; [|exact Hall].
           cbv beta. intros t [? _]. lia.
    + destruct (IH (skipn 1 (c :: rest)) (pos + 1) tokens
                  (errors ++ [unexpected_character pos c]))
        as (tokens' & errors' & Hrun & Hall & Hsorted).
      { cbn [skipn length] in *. lia. }
      rewrite Hrun. exists tokens', (unexpected_character pos c :: errors').
      rewrite <- app_assoc. simpl. split; [reflexivity|]. split; [|exact Hsorted].
      eapply Forall_impl; [|exact Hall]. cbv beta. cbn [skipn length].
      intros t [? ?]. split; [lia|assumption].
Qed.

(** C8. For every source, lexing terminates: the fuel that [tokenize] gives
    its loop, one unit for each code unit, is never used up.  The tokens are
    those of the text followed by one [EOF] token, which is the only [EOF] and
    stands at the length of the source; the positions of the tokens increase
    strictly and lie between 0 and the length of the source. *)
Theorem tokenize_terminates_with_one_EOF (code : jsstring) (errs : list jsstring) :
  exists toks errs',
    tokenize_fuel (length code) code errs = Some (toks ++ [eof_token code], errs')
    /\ position (eof_token code) = length code
    /\ type (eof_token code) = EOF
    /\ Forall (fun t => type t <> EOF) toks
    /\ StronglySorted lt (map position (toks ++ [eof_token code]))
    /\ Forall (fun t => 0 <= position t <= length code) (toks ++ [eof_token code]).
Proof.
  destruct (tokenize_loop_spec (length code) code 0 [] errs (le_n _))
    as (toks & errs' & Hrun & Hall & Hsorted).
  exists toks, (errs ++ errs'). unfold tokenize_fuel. rewrite Hrun. simpl.
  split; [reflexivity|]. split; [reflexivity|]. split; [reflexivity|].
  split; [|split].
  - eapply Forall_impl; [|exact Hall]. simpl. tauto.
  - rewrite map_app. simpl.
    assert (G : forall l, StronglySorted lt l -> Forall (fun p => p < length code) l ->
                          StronglySorted lt (l ++ [length code])).
    { induction l as [|a l IHl]; intros HS HF; simpl.
      - repeat constructor.
      - inversion HS; subst. inversion HF; subst.
        constructor; [auto|]. apply Forall_app. split; [assumption|].
        constructor; [assumption|constructor]. }
    apply G; [exact Hsorted|].
    rewrite Forall_map. eapply Forall_impl; [|exact Hall]. cbv beta. intros t [? _]. lia.
  - apply Forall_app. split.
    + eapply Forall_impl; [|exact Hall]. cbv beta. intros t [? _]. lia.
    + constructor; [simpl; lia|constructor].
Qed.

(** ** The compiler on the scenarios of the specification *)

Definition hello_lifecycle : jsstring :=
  utf16 "function create(){ }" ++ nl ++ utf16 "function step(dt){ }" ++ nl
    ++ utf16 "function draw(ctx){ }".

Definition not_an_identifier : jsstring :=
  utf16 "Expected token of type IDENTIFIER, but got SAAAM_KEYWORD".

(** C1. The lexer gives [create], [step] and [draw] the type [SAAAM_KEYWORD],
    and [parseFunctionDefinition] asks for an [IDENTIFIER] after [function]:
    each of the three declarations is a parse error.  [compile] returns
    success = false with an empty program, and the emitted text is the error
    header, with none of the three registration calls. *)
Theorem lifecycle_functions_do_not_parse :
  tokenize_fuel 62 hello_lifecycle []
    = Some ([ mkToken KEYWORD (utf16 "function") 0;
              mkToken SAAAM_KEYWORD (utf16 "create") 9;
              mkToken PUNCTUATION (utf16 "(") 15;
              mkToken PUNCTUATION (utf16 ")") 16;
              mkToken BRACKET (utf16 "{") 17;
              mkToken BRACKET (utf16 "}") 19;
              mkToken KEYWORD (utf16 "function") 21;
              mkToken SAAAM_KEYWORD (utf16 "step") 30;
              mkToken PUNCTUATION (utf16 "(") 34;
              mkToken IDENTIFIER (utf16 "dt") 35;
              mkToken PUNCTUATION (utf16 ")") 37;
              mkToken BRACKET (utf16 "{") 38;
              mkToken BRACKET (utf16 "}") 40;
              mkToken KEYWORD (utf16 "function") 42;
              mkToken SAAAM_KEYWORD (utf16 "draw") 51;
              mkToken PUNCTUATION (utf16 "(") 55;
              mkToken IDENTIFIER (utf16 "ctx") 56;
              mkToken PUNCTUATION (utf16 ")") 59;
              mkToken BRACKET (utf16 "{") 60;
              mkToken BRACKET (utf16 "}") 62;
              mkToken EOF [] 63 ], [])
  /\ (exists r,
        compiled lexeme_text 40 hello_lifecycle = Ret r
        /\ success r = false
        /\ result_ast r = Some (Program [])
        /\ result_errors r
           = [ not_an_identifier; utf16 "Parse error: " ++ not_an_identifier;
               not_an_identifier; utf16 "Parse error: " ++ not_an_identifier;
               not_an_identifier; utf16 "Parse error: " ++ not_an_identifier ])
  /\ (exists out,
        emitted lexeme_text 40 hello_lifecycle = Ret out
        /\ starts_with (utf16 "// Compilation failed with errors:") out = true
        /\ contains (utf16 "registerCreate(create)") out = false
        /\ contains (utf16 "registerStep(step)") out = false
        /\ contains (utf16 "registerDraw(draw)") out = false).
Proof.
  split; [vm_compute; reflexivity|]. split.
  - eexists. split; [vm_compute; reflexivity|]. repeat split.
  - eexists. split; [vm_compute; reflexivity|]. repeat split.
Qed.

(** C3. In the operator pattern the alternative [[+\-*/=<>!&|^%]=?] stands
    before [&&] and [||], so at an ampersand or a bar the lexer matches one
    character: [a&&b] gives two tokens [&], which no rule of the parser
    accepts, and the statement is a parse error with no [BinaryExpression].
    After a blank the pattern, which is not anchored past its first
    alternative, finds [&&] further on, and the second ampersand is left
    over as a token of its own; the parse fails just the same. *)
Theorem logical_operators_do_not_parse :
  tokenize_fuel 5 (utf16 "a&&b;") []
    = Some ([ mkToken IDENTIFIER (utf16 "a") 0;
              mkToken OPERATOR (utf16 "&") 1;
              mkToken OPERATOR (utf16 "&") 2;
              mkToken IDENTIFIER (utf16 "b") 3;
              mkToken PUNCTUATION (utf16 ";") 4;
              mkToken EOF [] 5 ], [])
  /\ tokenize_fuel 5 (utf16 "a||b;") []
    = Some ([ mkToken IDENTIFIER (utf16 "a") 0;
              mkToken OPERATOR (utf16 "|") 1;
              mkToken OPERATOR (utf16 "|") 2;
              mkToken IDENTIFIER (utf16 "b") 3;
              mkToken PUNCTUATION (utf16 ";") 4;
              mkToken EOF [] 5 ], [])
  /\ tokenize_fuel 7 (utf16 "a && b;") []
    = Some ([ mkToken IDENTIFIER (utf16 "a") 0;
              mkToken OPERATOR (utf16 "&&") 1;
              mkToken OPERATOR (utf16 "&") 3;
              mkToken IDENTIFIER (utf16 "b") 5;
              mkToken PUNCTUATION (utf16 ";") 6;
              mkToken EOF [] 7 ], [])
  /\ (exists r,
        compiled lexeme_text 40 (utf16 "a&&b;") = Ret r
        /\ success r = false
        /\ result_ast r
           = Some (Program [ExpressionStatement (Identifier (utf16 "a") (Some false))])
        /\ result_errors r
           = [ utf16 "Unexpected token: &"; utf16 "Parse error: Unexpected token: &" ])
  /\ (exists r,
        compiled lexeme_text 40 (utf16 "a && b;") = Ret r
        /\ success r = false
        /\ result_ast r = Some (Program [])
        /\ result_errors r
           = [ utf16 "Unexpected token: &"; utf16 "Parse error: Unexpected token: &" ]).
Proof.
  repeat split; try (vm_compute; reflexivity);
    eexists; (split; [vm_compute; reflexivity|]); repeat split.
Qed.

(** Where no pattern of the table is found anywhere in the text that is left,
    the loop records one error that names the first code unit, drops that code
    unit and goes on; it adds no token. *)
Lemma unmatched_code_unit_is_skipped (fuel : nat) (c : code_unit)
  (rest : jsstring) (pos : nat) (toks : list Token) (errs : list jsstring) :
  first_match tokenTypes (c :: rest) = None ->
  tokenize_loop (S fuel) (c :: rest) pos toks errs
  = tokenize_loop fuel rest (pos + 1) toks
      (errs ++ [unexpected_character pos c]).
Proof. intros H. cbn [tokenize_loop]. rewrite H. reflexivity. Qed.

(** C6. At offset 0 of [@ ?] no rule of the table matches.  The lexer's
    pattern for operators is anchored in its first alternative only, and it
    finds the question mark two code units further on: the lexer records no
    error and emits an [OPERATOR] token [?] at position 0, and the same again
    at the blank. *)
Theorem unmatched_offset_yields_a_token :
  no_rule_matches_here (utf16 "@ ?") = true
  /\ tokenize_fuel 3 (utf16 "@ ?") []
     = Some ([ mkToken OPERATOR (utf16 "?") 0;
               mkToken OPERATOR (utf16 "?") 1;
               mkToken OPERATOR (utf16 "?") 2;
               mkToken EOF [] 3 ], []).
Proof. split; vm_compute; reflexivity. Qed.

(** ** The entry points *)

(** [parse] catches whatever [parseProgram] throws. *)
Lemma parse_does_not_throw (fuel : nat) (st : SaaamCompiler) :
  forall message st', parse fuel st <> (Thrown message, st').
Proof.
  intros message st'. unfold parse, bind, try_catch, set_currentToken.
  destruct (parseProgram (parser fuel) fuel _) as [[program|e|] st1];
    simpl; discriminate.
Qed.

(** What [compile] returns when it returns: the text is that of the generator,
    run on whatever tree the parser left, and [success] says whether [errors]
    is empty. *)
Lemma compile_returns (number_toString : jsstring -> jsstring) (fuel : nat)
  (code : jsstring) (st st' : SaaamCompiler) (r : CompileResult) :
  compile number_toString fuel code st = (Ret r, st') ->
  r = mkResult (length (errors st') =? 0)
        (Some (match ast st' with
               | Some root => generateNode number_toString root
               | None => utf16 "// No AST to generate code from"
               end))
        (errors st') (warnings st') (ast st').
Proof.
  unfold compile, bind, try_catch, reset, tokenize.
  destruct (tokenize_fuel _ code _) as [[toks errs]|]; [|discriminate].
  match goal with |- context [parse fuel ?s] => set (s0 := s) end.
  pose proof (parse_does_not_throw fuel s0) as Hp.
  destruct (parse fuel s0) as [[tree|message|] s1]; [| |discriminate].
  - unfold set_ast, analyzeCode, optimizeCode, generate, get_state, ret; simpl.
    destruct tree as [root|]; simpl; intros [= <- <-]; reflexivity.
  - exfalso. exact (Hp message s1 eq_refl).
Qed.

Lemma contains_register_calls :
  contains (utf16 "SAAAM.registerCreate(create)") wrapper_epilogue = true
  /\ contains (utf16 "SAAAM.registerStep(step)") wrapper_epilogue = true
  /\ contains (utf16 "SAAAM.registerDraw(draw)") wrapper_epilogue = true
  /\ contains (utf16 "SAAAM.registerCollision(on_collision)") wrapper_epilogue = true.
Proof. repeat split; vm_compute; reflexivity. Qed.

(** What [compileToJS] returns when it returns. *)
Lemma compileToJS_returns (number_toString : jsstring -> jsstring) (fuel : nat)
  (code : jsstring) (st st' : SaaamCompiler) (out : jsstring) :
  compileToJS number_toString fuel code st = (Ret out, st') ->
  exists r,
    compile number_toString fuel code st = (Ret r, st')
    /\ out = if success r
             then wrapper_prologue
                    ++ indent (match js r with Some text => text | None => [] end)
                    ++ wrapper_epilogue
             else failure_header ++ join (nl ++ utf16 "// ") (result_errors r).
Proof.
  unfold compileToJS, bind.
  destruct (compile number_toString fuel code st) as [[r|message|] s1];
    [|discriminate|discriminate].
  exists r. destruct (success r); simpl in H; injection H as <- <-; auto.
Qed.

(** C2, as the code has it.  Whenever compilation succeeds, the emitted text
    ends with the four registration calls, each behind a test at run time that
    the name is a function, whatever the program declares; when compilation
    fails, the emitted text is the error header and the error messages. *)
Theorem registration_calls_are_always_emitted
  (number_toString : jsstring -> jsstring) (fuel : nat) (code : jsstring)
  (st st' : SaaamCompiler) (out : jsstring) :
  compileToJS number_toString fuel code st = (Ret out, st') ->
  (errors st' = [] ->
     (exists body, out = wrapper_prologue ++ body ++ wrapper_epilogue)
     /\ contains (utf16 "SAAAM.registerCreate(create)") out = true
     /\ contains (utf16 "SAAAM.registerStep(step)") out = true
     /\ contains (utf16 "SAAAM.registerDraw(draw)") out = true
     /\ contains (utf16 "SAAAM.registerCollision(on_collision)") out = true)
  /\ (errors st' <> [] ->
        out = failure_header ++ join (nl ++ utf16 "// ") (errors st')).
Proof.
  intros H. apply compileToJS_returns in H. destruct H as (r & Hc & ->).
  apply compile_returns in Hc. subst r. cbn [success js result_errors].
  destruct contains_register_calls as (K1 & K2 & K3 & K4).
  split; intros He.
  - rewrite He. cbn [length Nat.eqb]. split; [eexists; reflexivity|].
    split; [|split; [|split]]; do 2 apply contains_app_r; assumption.
  - destruct (errors st'); [contradiction|reflexivity].
Qed.

(** At [var score;] compilation succeeds, and the emitted text has the call
    that registers [create]. *)
Lemma registration_calls_are_always_emitted_witness :
  contains (utf16 "SAAAM.registerCreate(create)")
    (wrapper_prologue ++ indent (utf16 "var score;") ++ wrapper_epilogue) = true.
Proof.
  refine (proj1 (proj2 (proj1
    (registration_calls_are_always_emitted lexeme_text 20 (utf16 "var score;")
       new_compiler _ _ _) _))).
  - vm_compute. reflexivity.
  - reflexivity.
Defined.

(** C2, as stated, fails: [var score;] declares no function, and the emitted
    text has the four registration calls. *)
Lemma registration_without_declaration :
  exists r out,
    compiled lexeme_text 20 (utf16 "var score;") = Ret r
    /\ success r = true
    /\ declares_function "create" (result_ast r) = false
    /\ declares_function "step" (result_ast r) = false
    /\ declares_function "draw" (result_ast r) = false
    /\ declares_function "on_collision" (result_ast r) = false
    /\ emitted lexeme_text 20 (utf16 "var score;") = Ret out
    /\ contains (utf16 "SAAAM.registerCreate(create)") out = true
    /\ contains (utf16 "SAAAM.registerStep(step)") out = true
    /\ contains (utf16 "SAAAM.registerDraw(draw)") out = true
    /\ contains (utf16 "SAAAM.registerCollision(on_collision)") out = true.
Proof.
  eexists. eexists. split; [vm_compute; reflexivity|].
  do 5 (split; [reflexivity|]).
  split; [vm_compute; reflexivity|]. repeat split.
Qed.



(** ** The parser: switches *)

Lemma returns_ret {A} (a : A) (Q : A -> Prop) : Q a -> returns (ret a) Q.
Proof. intros H st a' st' [= <- _]. exact H. Qed.

Lemma returns_throw {A} (message : jsstring) (Q : A -> Prop) :
  returns (throw message) Q.
Proof. intros st a st' [=]. Qed.

Lemma returns_out_of_fuel {A} (Q : A -> Prop) : returns out_of_fuel Q.
Proof. intros st a st' [=]. Qed.

Lemma returns_bind {A B} (m : M A) (f : A -> M B) (P : A -> Prop)
  (Q : B -> Prop) :
  returns m P -> (forall a, P a -> returns (f a) Q) -> returns (bind m f) Q.
Proof.
  intros Hm Hf st b st'. unfold bind.
  destruct (m st) as [[a|e|] st1] eqn:E; try discriminate.
  intros H. exact (Hf a (Hm _ _ _ E) _ _ _ H).
Qed.

Lemma returns_any {A} (m : M A) : returns m (fun _ => True).
Proof. intros st a st' _. exact I. Qed.

Lemma returns_try_catch {A} (m : M A) (handler : jsstring -> M A)
  (Q : A -> Prop) :
  returns m Q -> (forall e, returns (handler e) Q) ->
  returns (try_catch m handler) Q.
Proof.
  intros Hm Hh st a st'. unfold try_catch.
  destruct (m st) as [[a1|e|] st1] eqn:E; try discriminate.
  - intros [= <- <-]. exact (Hm _ _ _ E).
  - apply Hh.
Qed.

Lemma returns_loop {S} (fuel : nat) (body : S -> M (loop_ctl S))
  (I : S -> Prop) :
  (forall s, I s ->
     returns (body s) (fun c => match c with Next s' => I s' | Break s' => I s' end)) ->
  forall s, I s -> returns (loop fuel body s) I.
Proof.
  intros Hbody. induction fuel as [|fuel IH]; intros s Hs; simpl.
  - apply returns_out_of_fuel.
  - eapply returns_bind; [exact (Hbody s Hs)|].
    intros [s'|s'] H'; [apply IH; exact H'|apply returns_ret; exact H'].
Qed.

Lemma returns_while {S} (fuel : nat) (cond : M bool) (body : S -> M S)
  (I : S -> Prop) :
  (forall s, I s -> returns (body s) I) ->
  forall s, I s -> returns (while_ fuel cond body s) I.
Proof.
  intros Hbody s Hs. unfold while_. apply returns_loop; [|exact Hs].
  intros s1 H1. eapply returns_bind; [apply returns_any|].
  intros [|] _.
  - eapply returns_bind; [exact (Hbody s1 H1)|].
    intros s2 H2. apply returns_ret. exact H2.
  - apply returns_ret. exact H1.
Qed.

Lemma forallb_Forall {A} (f : A -> bool) (l : list A) :
  forallb f l = true <-> Forall (fun x => f x = true) l.
Proof.
  induction l as [|x l IH]; simpl.
  - split; [constructor|reflexivity].
  - rewrite andb_true_iff, IH. split.
    + intros [? ?]; constructor; assumption.
    + intros H; inversion H; subst; split; assumption.
Qed.

Lemma ok_snoc {A} `{Ok A} (l : list A) (a : A) : ok l -> ok a -> ok (l ++ [a]).
Proof.
  intros Hl Ha. apply Forall_app. split; [exact Hl|]. constructor; [exact Ha|constructor].
Qed.

Lemma ok_nil {A} `{Ok A} : ok (@nil A).
Proof. constructor. Qed.

Lemma ok_nodes (l : list ASTNode) : ok l -> forallb default_last l = true.
Proof. intros H. apply forallb_Forall. exact H. Qed.

Lemma ok_cases (l : list SwitchCaseNode) : ok l -> forallb default_last_case l = true.
Proof. intros H. apply forallb_Forall. exact H. Qed.

Lemma ok_properties (l : list PropertyNode) :
  ok l -> forallb default_last_property l = true.
Proof. intros H. apply forallb_Forall. exact H. Qed.

Lemma ok_elements (l : list (option ASTNode)) :
  ok l ->
  forallb (fun o => match o with Some n => default_last n | None => true end) l = true.
Proof.
  intros H. apply forallb_Forall. eapply Forall_impl; [|exact H].
  intros [n|] Hn; [exact Hn|reflexivity].
Qed.

(** The primitive methods return tokens, booleans and nothing: values with
    nothing to be in order. *)
Lemma good_trivial {A} `{Ok A} (m : M A) : (forall a : A, ok a) -> good m.
Proof. intros Hall st a st' _. apply Hall. Qed.

Create HintDb parsers.

#[local] Hint Resolve g_VariableDeclaration g_FunctionDefinition g_Block
  g_Statement g_IfStatement g_ForLoop g_WhileLoop g_DoWhileLoop
  g_SwitchStatement g_ReturnStatement g_BreakStatement g_ContinueStatement
  g_Expression g_Assignment g_LogicalOr g_LogicalAnd g_Equality g_Comparison
  g_Additive g_Multiplicative g_Unary g_CallOrMember g_CallExpression
  g_MemberExpression g_IndexExpression g_ObjectLiteral g_ArrayLiteral
  g_Primary : parsers.

(** The node that a method builds is in order when its parts are. *)
Ltac ok_node :=
  repeat match goal with
         | H : @ok (list ASTNode) _ _ |- _ => apply ok_nodes in H
         | H : @ok (list SwitchCaseNode) _ _ |- _ => apply ok_cases in H
         | H : @ok (list PropertyNode) _ _ |- _ => apply ok_properties in H
         | H : @ok (list (option ASTNode)) _ _ |- _ => apply ok_elements in H
         end;
  repeat match goal with
         | H : @ok ASTNode _ ?x |- _ => change (default_last x = true) in H
         | H : @ok SwitchCaseNode _ ?x |- _ => change (default_last_case x = true) in H
         | H : @ok PropertyNode _ ?x |- _ => change (default_last_property x = true) in H
         | H : @ok (option ASTNode) _ ?x |- _ =>
             change (match x with Some n => default_last n = true | None => True end) in H
         end;
  unfold ok, Ok_node, Ok_case, Ok_property, Ok_option, Ok_token, Ok_bool,
    Ok_unit in *;
  cbn [default_last default_last_case default_last_property property_key_node];
  repeat match goal with
         | x : option _ |- _ => destruct x
         | H : ?f _ = true |- _ => rewrite H; clear H
         end;
  try reflexivity; try exact I.

Lemma good_bind {A B} `{Ok A} (m : M A) (f : A -> M B) (Q : B -> Prop) :
  good m -> (forall a, ok a -> returns (f a) Q) -> returns (bind m f) Q.
Proof. apply returns_bind. Qed.

Lemma good_while {S} `{Ok S} (fuel : nat) (cond : M bool) (body : S -> M S)
  (s : S) :
  (forall s, ok s -> good (body s)) -> ok s -> good (while_ fuel cond body s).
Proof. intros Hbody Hs. apply returns_while; assumption. Qed.

Lemma good_loop {S} `{Ok S} (fuel : nat) (body : S -> M (loop_ctl S)) (s : S) :
  (forall s, ok s -> good (body s)) -> ok s -> good (loop fuel body s).
Proof. intros Hbody Hs. apply returns_loop; assumption. Qed.

(** One step through the text of a method. *)
Ltac walk_method :=
  match goal with
  | |- good (while_ _ _ _ _) => apply good_while; [intros ? ?|]
  | |- good (loop _ _ _) => apply good_loop; [intros ? ?|]
  | |- returns (while_ _ _ _ _) _ => apply good_while; [intros ? ?|]
  | |- returns (loop _ _ _) _ => apply good_loop; [intros ? ?|]
  | |- good _ =>
      first [ solve [eauto with parsers]
            | solve [apply good_trivial; intro; exact I]
            | unfold good ]
  | |- returns (ret _) _ => apply returns_ret
  | |- returns (throw _) _ => apply returns_throw
  | |- returns out_of_fuel _ => apply returns_out_of_fuel
  | |- returns (bind _ _) _ => eapply good_bind; [|intros ? ?]
  | |- returns (try_catch _ _) _ => apply returns_try_catch; [|intros ?]
  | |- returns (when ?b _) _ => destruct b; cbn [when]
  | |- returns (if ?b then _ else _) _ => destruct b
  | |- returns (match ?x with _ => _ end) _ => destruct x
  | |- @ok (loop_ctl _) _ (Next ?s) => change (ok s)
  | |- @ok (loop_ctl _) _ (Break ?s) => change (ok s)
  | |- @ok jsstring _ _ => exact I
  | |- ok (_ ++ [_]) => apply ok_snoc
  | |- ok [] => apply ok_nil
  | |- returns ?m _ => change (good m); solve [eauto with parsers]
  end.

Ltac walk := repeat walk_method; try assumption; ok_node.

Section GoodMethods.

Variable self : parsers.
Variable fuel : nat.
Hypothesis Hself : good_parsers self.

Lemma good_parseVariableDeclaration : good (parseVariableDeclaration self).
Proof. unfold parseVariableDeclaration. walk. Qed.

Lemma good_parseFunctionDefinition : good (parseFunctionDefinition self fuel).
Proof. unfold parseFunctionDefinition. walk. Qed.

Lemma good_parseBlock : good (parseBlock self fuel).
Proof. unfold parseBlock. walk. Qed.

Lemma good_parseStatement : good (parseStatement self).
Proof. unfold parseStatement. walk. Qed.

Lemma good_parseIfStatement : good (parseIfStatement self).
Proof. unfold parseIfStatement. walk. Qed.

Lemma good_parseForLoop : good (parseForLoop self).
Proof. unfold parseForLoop. walk. Qed.

Lemma good_parseWhileLoop : good (parseWhileLoop self).
Proof. unfold parseWhileLoop. walk. Qed.

Lemma good_parseDoWhileLoop : good (parseDoWhileLoop self).
Proof. unfold parseDoWhileLoop. walk. Qed.

Lemma good_parseReturnStatement : good (parseReturnStatement self).
Proof. unfold parseReturnStatement. walk. Qed.

Lemma good_parseBreakStatement : good parseBreakStatement.
Proof. unfold parseBreakStatement. walk. Qed.

Lemma good_parseContinueStatement : good parseContinueStatement.
Proof. unfold parseContinueStatement. walk. Qed.

Lemma good_parseExpression : good (parseExpression self).
Proof. unfold parseExpression. walk. Qed.

Lemma good_parseAssignment : good (parseAssignment self).
Proof. unfold parseAssignment. walk. Qed.

Lemma good_binary_loop (operators : list string) (operand : M ASTNode)
  (name : Token -> jsstring) (lhs : ASTNode) :
  good operand -> ok lhs -> good (binary_loop fuel operators operand name lhs).
Proof. intros Hop Hl. unfold binary_loop. walk. Qed.

Lemma good_parseLogicalOr : good (parseLogicalOr self fuel).
Proof.
  unfold parseLogicalOr. walk. apply good_binary_loop; [walk|assumption].
Qed.

Lemma good_parseLogicalAnd : good (parseLogicalAnd self fuel).
Proof.
  unfold parseLogicalAnd. walk. apply good_binary_loop; [walk|assumption].
Qed.

Lemma good_parseEquality : good (parseEquality self fuel).
Proof.
  unfold parseEquality. walk. apply good_binary_loop; [walk|assumption].
Qed.

Lemma good_parseComparison : good (parseComparison self fuel).
Proof.
  unfold parseComparison. walk. apply good_binary_loop; [walk|assumption].
Qed.

Lemma good_parseAdditive : good (parseAdditive self fuel).
Proof.
  unfold parseAdditive. walk. apply good_binary_loop; [walk|assumption].
Qed.

Lemma good_parseMultiplicative : good (parseMultiplicative self fuel).
Proof.
  unfold parseMultiplicative. walk. apply good_binary_loop; [walk|assumption].
Qed.

Lemma good_parseUnary : good (parseUnary self).
Proof. unfold parseUnary. walk. Qed.

Lemma good_parseCallOrMember : good (parseCallOrMember self fuel).
Proof. unfold parseCallOrMember. walk. Qed.

Lemma good_parseCallExpression (callee : ASTNode) :
  ok callee -> good (parseCallExpression self fuel callee).
Proof. intros Hc. unfold parseCallExpression. walk. Qed.

Lemma good_parseMemberExpression (object : ASTNode) :
  ok object -> good (parseMemberExpression object).
Proof. intros Hc. unfold parseMemberExpression. walk. Qed.

Lemma good_parseIndexExpression (object : ASTNode) :
  ok object -> good (parseIndexExpression self object).
Proof. intros Hc. unfold parseIndexExpression. walk. Qed.

Lemma good_object_property (properties : list PropertyNode)
  (key : jsstring + ASTNode) (computed : bool) :
  ok properties -> ok (property_key_node key) ->
  good (object_property self properties key computed).
Proof.
  intros Hp Hk. unfold object_property. walk.
Qed.

Lemma good_parseObjectLiteral : good (parseObjectLiteral self fuel).
Proof.
  unfold parseObjectLiteral. repeat walk_method; try assumption;
    try (apply good_object_property; [assumption|]); walk.
Qed.

Lemma good_parseArrayLiteral : good (parseArrayLiteral self fuel).
Proof. unfold parseArrayLiteral. walk. Qed.

Lemma good_parsePrimary : good (parsePrimary self).
Proof. unfold parsePrimary. walk. Qed.

(** What the loop of [parseSwitchStatement] keeps true of [cases] and
    [defaultCase]: the clauses pushed so far all have a test. *)
Definition clauses_in_order (st : list SwitchCaseNode * option SwitchCaseNode)
  : Prop :=
  Forall (fun c => default_last_case c = true /\ has_test c = true) (fst st)
  /\ match snd st with
     | Some d => default_last_case d = true
     | None => True
     end.

Lemma good_consequent_loops :
  good (case_consequent_loop self fuel) /\ good (default_consequent_loop self fuel).
Proof.
  split; [unfold case_consequent_loop|unfold default_consequent_loop]; walk.
Qed.

Lemma switch_clause_in_order (st : list SwitchCaseNode * option SwitchCaseNode) :
  clauses_in_order st -> returns (switch_clause self fuel st) clauses_in_order.
Proof.
  destruct st as [cases defaultCase]. intros [Hc Hd].
  destruct good_consequent_loops as [Gc Gd].
  unfold switch_clause. repeat walk_method; unfold clauses_in_order; cbn [fst snd].
  - split; [|exact Hd]. apply Forall_app. split; [exact Hc|].
    constructor; [|constructor]. split; [|reflexivity]. ok_node.
  - split; [exact Hc|]. ok_node.
  - split; assumption.
Qed.

Lemma removelast_Forall {A} (P : A -> Prop) (l : list A) :
  Forall P l -> Forall P (removelast l).
Proof.
  induction l as [|a l IH]; intros H; [constructor|]. inversion H; subst.
  destruct l as [|b l]; [constructor|]. constructor; [assumption|].
  apply IH. assumption.
Qed.

Lemma good_parseSwitchStatement : good (parseSwitchStatement self fuel).
Proof.
  unfold parseSwitchStatement.
  repeat lazymatch goal with
         | |- returns (bind (while_ _ _ (switch_clause _ _) _) _) _ => fail
         | |- _ => walk_method
         end.
  eapply returns_bind.
  - apply returns_while with (I := clauses_in_order).
    + exact switch_clause_in_order.
    + split; [constructor|exact I].
  - intros [cases defaultCase] [Hc Hd]. cbn [fst snd] in *.
    repeat walk_method.
    assert (Hok : forallb default_last_case cases = true).
    { apply forallb_Forall. eapply Forall_impl; [|exact Hc]. cbv beta. tauto. }
    assert (Htests : Forall (fun c => has_test c = true) cases).
    { eapply Forall_impl; [|exact Hc]. cbv beta. tauto. }
    change (default_last a1 = true) in H1.
    unfold ok, Ok_node. cbn [default_last]. rewrite H1. cbn [andb].
    destruct defaultCase as [d|].
    + rewrite removelast_last, forallb_app, Hok. cbn [forallb]. rewrite Hd.
      cbn [andb]. apply forallb_Forall. exact Htests.
    + rewrite Hok. cbn [andb]. apply forallb_Forall.
      apply removelast_Forall. exact Htests.
Qed.

Lemma good_skip_to_next_statement : good (skip_to_next_statement fuel).
Proof. apply good_trivial. intro; exact I. Qed.

Lemma good_parseProgram : good (parseProgram self fuel).
Proof.
  pose proof good_skip_to_next_statement.
  unfold parseProgram. walk.
Qed.

(** One more unit of fuel keeps the table in order. *)
Lemma good_methods : good_parsers (methods self fuel).
Proof.
  constructor; cbn [methods p_VariableDeclaration p_FunctionDefinition p_Block
    p_Statement p_IfStatement p_ForLoop p_WhileLoop p_DoWhileLoop
    p_SwitchStatement p_ReturnStatement p_BreakStatement p_ContinueStatement
    p_Expression p_Assignment p_LogicalOr p_LogicalAnd p_Equality p_Comparison
    p_Additive p_Multiplicative p_Unary p_CallOrMember p_CallExpression
    p_MemberExpression p_IndexExpression p_ObjectLiteral p_ArrayLiteral
    p_Primary].
  - exact good_parseVariableDeclaration.
  - exact good_parseFunctionDefinition.
  - exact good_parseBlock.
  - exact good_parseStatement.
  - exact good_parseIfStatement.
  - exact good_parseForLoop.
  - exact good_parseWhileLoop.
  - exact good_parseDoWhileLoop.
  - exact good_parseSwitchStatement.
  - exact good_parseReturnStatement.
  - exact good_parseBreakStatement.
  - exact good_parseContinueStatement.
  - exact good_parseExpression.
  - exact good_parseAssignment.
  - exact good_parseLogicalOr.
  - exact good_parseLogicalAnd.
  - exact good_parseEquality.
  - exact good_parseComparison.
  - exact good_parseAdditive.
  - exact good_parseMultiplicative.
  - exact good_parseUnary.
  - exact good_parseCallOrMember.
  - exact good_parseCallExpression.
  - exact good_parseMemberExpression.
  - exact good_parseIndexExpression.
  - exact good_parseObjectLiteral.
  - exact good_parseArrayLiteral.
  - exact good_parsePrimary.
Qed.

End GoodMethods.

Lemma good_no_parsers : good_parsers no_parsers.
Proof.
  constructor; cbn; intros; apply returns_out_of_fuel.
Qed.

Lemma good_parser (fuel : nat) : good_parsers (parser fuel).
Proof.
  induction fuel as [|fuel IH]; cbn [parser].
  - exact good_no_parsers.
  - apply good_methods. exact IH.
Qed.

(** The tokens of [switch (x) { default: a; case 1: b; }], with the colons
    as the [PUNCTUATION] tokens that [parseSwitchStatement] asks for. *)
Definition default_first_tokens : list Token :=
  [ mkToken KEYWORD (utf16 "switch") 0; mkToken PUNCTUATION (utf16 "(") 7;
    mkToken IDENTIFIER (utf16 "x") 8; mkToken PUNCTUATION (utf16 ")") 9;
    mkToken BRACKET (utf16 "{") 11;
    mkToken KEYWORD (utf16 "default") 13; mkToken PUNCTUATION (utf16 ":") 20;
    mkToken IDENTIFIER (utf16 "a") 22; mkToken PUNCTUATION (utf16 ";") 23;
    mkToken KEYWORD (utf16 "case") 25; mkToken NUMBER (utf16 "1") 30;
    mkToken PUNCTUATION (utf16 ":") 31;
    mkToken IDENTIFIER (utf16 "b") 33; mkToken PUNCTUATION (utf16 ";") 34;
    mkToken BRACKET (utf16 "}") 36; mkToken EOF [] 37 ].

Definition default_first_tree : ASTNode :=
  Program
    [ SwitchStatement (Identifier (utf16 "x") (Some false))
        [ SwitchCase (Some (Literal (LNumber (utf16 "1")) None))
            [ExpressionStatement (Identifier (utf16 "b") (Some false))];
          SwitchCase None
            [ExpressionStatement (Identifier (utf16 "a") (Some false))] ] ].

(** C10. In every tree that [parse] returns, whatever the tokens, every
    [SwitchStatement] has its clauses with a test first and the [default]
    clause, if there is one, last; the generator prints the clauses in the
    order of [cases], so that the text of a switch ends with its
    [default:] clause.  Where the tokens have the [default] clause first,
    the tree and the emitted text have it last. *)
Theorem default_clause_is_last (fuel : nat) (st st' : SaaamCompiler)
  (tree : ASTNode) :
  parse fuel st = (Ret (Some tree), st') ->
  default_last tree = true
  /\ (forall number_toString discriminant clauses consequent,
        generateNode number_toString
          (SwitchStatement discriminant (clauses ++ [SwitchCase None consequent]))
        = utf16 "switch (" ++ generateNode number_toString discriminant
            ++ utf16 ") {" ++ nl
            ++ concat (map (generateCase number_toString) clauses)
            ++ generateCase number_toString (SwitchCase None consequent)
            ++ utf16 "}")
  /\ parse 40 (mkCompiler default_first_tokens None 0 [] [])
     = (Ret (Some default_first_tree),
        mkCompiler default_first_tokens (Some default_first_tree) 15 [] [])
  /\ generateNode lexeme_text default_first_tree
     = utf16 "switch (x) {" ++ nl
         ++ utf16 "case 1:" ++ nl ++ utf16 "  b;" ++ nl
         ++ utf16 "default:" ++ nl ++ utf16 "  a;" ++ nl
         ++ utf16 "}".
Proof.
  intros H. split; [|split; [|split]].
  - unfold parse in H.
    assert (G : returns (parse fuel)
                  (fun t => match t with Some n => default_last n = true | None => True end)).
    { unfold parse. pose proof (good_parseProgram (parser fuel) fuel (good_parser fuel)).
      repeat walk_method; try assumption; try exact I. }
    exact (G _ _ _ H).
  - intros. cbn [generateNode]. rewrite map_app, concat_app. cbn [map concat].
    rewrite app_nil_r, <- !app_assoc. reflexivity.
  - vm_compute. reflexivity.
  - vm_compute. reflexivity.
Qed.

(** The tokens with the [default] clause first. *)
Lemma default_clause_is_last_witness : default_last default_first_tree = true.
Proof.
  refine (proj1 (default_clause_is_last 40
                   (mkCompiler default_first_tokens None 0 [] [])
                   (mkCompiler default_first_tokens (Some default_first_tree) 15 [] [])
                   default_first_tree _)).
  vm_compute. reflexivity.
Defined.

(** ** The parser: an object literal that never ends *)

(** The method is still running when its fuel is gone, however much fuel it
    is given, in every state that satisfies [P]. *)
Definition stuck {A} (m : M A) (P : SaaamCompiler -> Prop) : Prop :=
  forall st, P st -> exists st', m st = (OutOfFuel, st').

Definition endless_tokens : list Token :=
  [ mkToken PUNCTUATION (utf16 "(") 0; mkToken BRACKET (utf16 "{") 1;
    mkToken NUMBER (utf16 "1") 2; mkToken BRACKET (utf16 "}") 3;
    mkToken PUNCTUATION (utf16 ")") 4; mkToken PUNCTUATION (utf16 ";") 5;
    mkToken EOF [] 6 ].

(** The parser stands at token [k] of [({1});]. *)
Definition stands_at (k : nat) (st : SaaamCompiler) : Prop :=
  tokens st = endless_tokens /\ currentToken st = k.

Ltac at_token :=
  match goal with
  | H : stands_at _ ?st |- _ =>
      destruct st as [toks tree cur errs warns]; destruct H as [Ht Hc];
      cbn [tokens currentToken] in Ht, Hc; subst toks cur
  end.

Ltac use_stuck H :=
  match goal with
  | |- context [?m (mkCompiler endless_tokens ?a ?k ?e ?w)] =>
      let st' := fresh "st'" in
      let E := fresh "E" in
      destruct (H (mkCompiler endless_tokens a k e w) (conj eq_refl eq_refl))
        as [st' E];
      rewrite E
  end.

(** At the token [1] the loop of [parseObjectLiteral] finds no property name:
    it records an error and, the token being no comma, goes round again
    without consuming anything. *)
Lemma object_loop_stuck (self : parsers) (fuel : nat) :
  forall properties st,
    stands_at 2 st ->
    exists st',
      while_ fuel (andM (notM (match_tv BRACKET "}")) not_eof)
        (fun properties =>
           is_computed <- match_tv BRACKET "[" ;;
           if is_computed then
             consume_tv BRACKET "[" ;;
             key <- p_Expression self ;;
             consume_tv BRACKET "]" ;;
             object_property self properties (inr key) true
           else
             is_name <- match_type IDENTIFIER ;;
             if is_name then
               key <- consume_type IDENTIFIER ;;
               object_property self properties (inl (value key)) false
             else
               is_string <- match_type STRING ;;
               if is_string then
                 token <- consume_type STRING ;;
                 object_property self properties
                   (inl (strip_quotes (value token))) false
               else
                 addError (utf16 "Expected property name in object literal") ;;
                 comma <- match_tv PUNCTUATION "," ;;
                 when comma (consume_any ;; ret tt) ;;
                 ret properties)
        properties st
      = (OutOfFuel, st').
Proof.
  induction fuel as [|fuel IH]; intros properties st Hat.
  - eexists. reflexivity.
  - at_token. unfold while_ in *. cbn. apply IH. split; reflexivity.
Qed.

Lemma bind_returns {A B} (m : M A) (f : A -> M B) (st st1 : SaaamCompiler)
  (a : A) :
  m st = (Ret a, st1) -> bind m f st = f a st1.
Proof. intros E. unfold bind. rewrite E. reflexivity. Qed.

Lemma bind_stuck {A B} (m : M A) (f : A -> M B) (st st1 : SaaamCompiler) :
  m st = (OutOfFuel, st1) -> bind m f st = (OutOfFuel, st1).
Proof. intros E. unfold bind. rewrite E. reflexivity. Qed.

(** Run the next step of a method whose outcome the tokens decide. *)
Ltac run_step :=
  lazymatch goal with
  | |- exists st', bind ?m ?f ?st = _ =>
      let r := eval vm_compute in (m st) in
      lazymatch r with
      | (Ret ?a, ?st1) =>
          rewrite (bind_returns m f st st1 a ltac:(vm_compute; reflexivity));
          cbv beta iota
      end
  end.

(** The method goes on with a call that is stuck. *)
Ltac run_into H :=
  lazymatch goal with
  | |- exists st', bind ?m ?f ?st = _ =>
      let st1 := fresh "st" in
      let E := fresh "E" in
      destruct (H st (conj eq_refl eq_refl)) as [st1 E];
      exists st1; apply bind_stuck; exact E
  | |- exists st', ?m ?st = _ =>
      exact (H st (conj eq_refl eq_refl))
  end.

Ltac run_method H := repeat run_step; run_into H.

Lemma parseObjectLiteral_stuck (self : parsers) (fuel : nat) :
  stuck (parseObjectLiteral self fuel) (stands_at 1).
Proof.
  intros st Hat. at_token. unfold parseObjectLiteral.
  run_method (fun st H => object_loop_stuck self fuel [] st H).
Qed.

Section Stuck.

Variable self : parsers.
Variable fuel : nat.

(** From a call that is stuck at token [k] up the ladder of precedence. *)
Record ladder_stuck (table : parsers) (k : nat) : Prop := mkLadder {
  s_Primary : stuck (p_Primary table) (stands_at k);
  s_CallOrMember : stuck (p_CallOrMember table) (stands_at k);
  s_Unary : stuck (p_Unary table) (stands_at k);
  s_Multiplicative : stuck (p_Multiplicative table) (stands_at k);
  s_Additive : stuck (p_Additive table) (stands_at k);
  s_Comparison : stuck (p_Comparison table) (stands_at k);
  s_Equality : stuck (p_Equality table) (stands_at k);
  s_LogicalAnd : stuck (p_LogicalAnd table) (stands_at k);
  s_LogicalOr : stuck (p_LogicalOr table) (stands_at k);
  s_Assignment : stuck (p_Assignment table) (stands_at k);
  s_Expression : stuck (p_Expression table) (stands_at k)
}.

Lemma parsePrimary_stuck_at_brace :
  stuck (p_ObjectLiteral self) (stands_at 1) ->
  stuck (parsePrimary self) (stands_at 1).
Proof. intros H st Hat. at_token. unfold parsePrimary. run_method H. Qed.

Lemma parsePrimary_stuck_at_paren :
  stuck (p_Expression self) (stands_at 1) ->
  stuck (parsePrimary self) (stands_at 0).
Proof. intros H st Hat. at_token. unfold parsePrimary. run_method H. Qed.

Lemma ladder_step (k : nat) :
  k = 0 \/ k = 1 ->
  stuck (parsePrimary self) (stands_at k) ->
  ladder_stuck self k ->
  ladder_stuck (methods self fuel) k.
Proof.
  intros Hk Hp [L1 L2 L3 L4 L5 L6 L7 L8 L9 L10 L11].
  constructor; cbn [methods p_Primary p_CallOrMember p_Unary p_Multiplicative
    p_Additive p_Comparison p_Equality p_LogicalAnd p_LogicalOr p_Assignment
    p_Expression].
  - exact Hp.
  - intros st Hat. at_token. unfold parseCallOrMember. run_method L1.
  - intros st Hat. at_token. unfold parseUnary.
    destruct Hk as [-> | ->]; run_method L2.
  - intros st Hat. at_token. unfold parseMultiplicative. run_method L3.
  - intros st Hat. at_token. unfold parseAdditive. run_method L4.
  - intros st Hat. at_token. unfold parseComparison. run_method L5.
  - intros st Hat. at_token. unfold parseEquality. run_method L6.
  - intros st Hat. at_token. unfold parseLogicalAnd. run_method L7.
  - intros st Hat. at_token. unfold parseLogicalOr. run_method L8.
  - intros st Hat. at_token. unfold parseAssignment. run_method L9.
  - intros st Hat. at_token. unfold parseExpression. run_method L10.
Qed.

Lemma parseStatement_stuck :
  stuck (p_Expression self) (stands_at 0) ->
  stuck (parseStatement self) (stands_at 0).
Proof. intros H st Hat. at_token. unfold parseStatement, match_declaration. run_method H. Qed.

End Stuck.

Lemma stuck_out_of_fuel {A} (P : SaaamCompiler -> Prop) : stuck (@out_of_fuel A) P.
Proof. intros st _. exists st. reflexivity. Qed.

Lemma ladder_no_parsers (k : nat) : ladder_stuck no_parsers k.
Proof. constructor; apply stuck_out_of_fuel. Qed.

Lemma stuck_at_brace (fuel : nat) :
  stuck (p_ObjectLiteral (parser fuel)) (stands_at 1)
  /\ ladder_stuck (parser fuel) 1.
Proof.
  induction fuel as [|fuel [IHo IHl]]; cbn [parser].
  - split; [apply stuck_out_of_fuel|apply ladder_no_parsers].
  - split.
    + apply parseObjectLiteral_stuck.
    + apply ladder_step; [right; reflexivity| |exact IHl].
      apply parsePrimary_stuck_at_brace. exact IHo.
Qed.

Lemma stuck_at_paren (fuel : nat) :
  ladder_stuck (parser fuel) 0
  /\ stuck (p_Statement (parser fuel)) (stands_at 0).
Proof.
  induction fuel as [|fuel [IHl IHs]]; cbn [parser].
  - split; [apply ladder_no_parsers|apply stuck_out_of_fuel].
  - split.
    + apply ladder_step; [left; reflexivity| |exact IHl].
      apply parsePrimary_stuck_at_paren.
      apply (s_Expression _ _ (proj2 (stuck_at_brace fuel))).
    + apply parseStatement_stuck. exact (s_Expression _ _ IHl).
Qed.

Lemma try_catch_stuck {A} (m : M A) (handler : jsstring -> M A)
  (st st1 : SaaamCompiler) :
  m st = (OutOfFuel, st1) -> try_catch m handler st = (OutOfFuel, st1).
Proof. intros E. unfold try_catch. rewrite E. reflexivity. Qed.

Lemma bind_assoc {A B C} (m : M A) (f : A -> M B) (g : B -> M C)
  (st : SaaamCompiler) :
  bind (bind m f) g st = bind m (fun x => bind (f x) g) st.
Proof. unfold bind. destruct (m st) as [[a|e|] st1]; reflexivity. Qed.

Lemma parseProgram_stuck (fuel : nat) :
  stuck (parseProgram (parser fuel) fuel) (stands_at 0).
Proof.
  assert (Hbody : forall body,
            stuck (decl <- match_declaration ;;
                   if decl
                   then s <- p_VariableDeclaration (parser fuel) ;; ret (body ++ [s])
                   else
                     func <- match_tv KEYWORD "function" ;;
                     if func
                     then s <- p_FunctionDefinition (parser fuel) ;; ret (body ++ [s])
                     else s <- p_Statement (parser fuel) ;; ret (body ++ [s]))
              (stands_at 0)).
  { intros body st Hat. at_token. unfold match_declaration.
    run_method (proj2 (stuck_at_paren fuel)). }
  intros st Hat. at_token. unfold parseProgram, while_.
  destruct fuel as [|fuel]; [eexists; reflexivity|].
  cbn [loop]. rewrite !bind_assoc. run_step.
  destruct (Hbody [] (mkCompiler endless_tokens tree 0 errs warns)
              (conj eq_refl eq_refl)) as [st1 E].
  exists st1. rewrite !bind_assoc. apply bind_stuck. apply try_catch_stuck.
  exact E.
Qed.

(** C9. [compile] does not return on [({1});].  In the object literal the
    token [1] is no property name; [parseObjectLiteral] records the error
    "Expected property name in object literal" and, as the token is no comma
    either, starts the next iteration at the same token.  Whatever the fuel,
    the parser is still running when it is used up, and so is [compile]:
    it returns no result, and [errors] grows without bound. *)
Theorem compile_never_returns (number_toString : jsstring -> jsstring)
  (fuel : nat) :
  tokenize_fuel 6 (utf16 "({1});") [] = Some (endless_tokens, [])
  /\ compiled number_toString fuel (utf16 "({1});") = OutOfFuel.
Proof.
  split; [vm_compute; reflexivity|].
  unfold compiled, compile.
  destruct (parseProgram_stuck fuel (mkCompiler endless_tokens None 0 [] [])
              (conj eq_refl eq_refl)) as [st1 E].
  assert (Hp : parse fuel (mkCompiler endless_tokens None 0 [] []) = (OutOfFuel, st1)).
  { unfold parse.
    rewrite (bind_returns (set_currentToken 0) _
               (mkCompiler endless_tokens None 0 [] [])
               (mkCompiler endless_tokens None 0 [] []) tt eq_refl).
    apply try_catch_stuck. apply bind_stuck. exact E. }
  rewrite (bind_returns reset _ new_compiler (mkCompiler [] None 0 [] []) tt eq_refl).
  unfold try_catch.
  rewrite (bind_returns (tokenize (utf16 "({1});")) _
             (mkCompiler [] None 0 [] [])
             (mkCompiler endless_tokens None 0 [] []) endless_tokens
             ltac:(vm_compute; reflexivity)).
  rewrite (bind_stuck _ _ _ _ Hp). reflexivity.
Qed.


(** ** The parser: optional semicolons *)

Lemma match_is_check (ty : token_kind) (val : option jsstring) :
  is_check (match_ ty val) (fun tok => accepts tok ty val).
Proof.
  intros st. unfold match_, bind, accepts.
  destruct (peek st) as [[tok|e|] st1]; try reflexivity.
  destruct (kind_eqb (type tok) ty); cbn [negb andb]; [|reflexivity].
  destruct val as [v|]; [|reflexivity].
  destruct (str_eqb (value tok) v); reflexivity.
Qed.

Lemma peek_keeps_state (st st' : SaaamCompiler) (o : outcome Token) :
  peek st = (o, st') -> st' = st.
Proof.
  unfold peek. destruct (nth_error _ _); intros [= _ <-]; reflexivity.
Qed.

Lemma peek_twice (st st' : SaaamCompiler) (tok : Token) :
  peek st = (Ret tok, st') -> peek st' = (Ret tok, st').
Proof.
  intros H. pose proof (peek_keeps_state _ _ _ H) as ->. exact H.
Qed.

Lemma not_eof_is_check :
  is_check not_eof (fun tok => negb (kind_eqb (type tok) EOF)).
Proof.
  intros st. unfold not_eof, bind.
  destruct (peek st) as [[tok|e|] st1]; reflexivity.
Qed.

Lemma orM_is_check (c1 c2 : M bool) (f1 f2 : Token -> bool) :
  is_check c1 f1 -> is_check c2 f2 ->
  is_check (orM c1 c2) (fun tok => f1 tok || f2 tok).
Proof.
  intros H1 H2 st. unfold orM, bind. rewrite H1.
  destruct (peek st) as [[tok|e|] st1] eqn:E; try reflexivity.
  destruct (f1 tok); [reflexivity|]. rewrite H2, (peek_twice _ _ _ E). reflexivity.
Qed.

Lemma andM_is_check (c1 c2 : M bool) (f1 f2 : Token -> bool) :
  is_check c1 f1 -> is_check c2 f2 ->
  is_check (andM c1 c2) (fun tok => f1 tok && f2 tok).
Proof.
  intros H1 H2 st. unfold andM, bind. rewrite H1.
  destruct (peek st) as [[tok|e|] st1] eqn:E; try reflexivity.
  destruct (f1 tok); [|reflexivity]. rewrite H2, (peek_twice _ _ _ E). reflexivity.
Qed.

Lemma notM_is_check (c : M bool) (f : Token -> bool) :
  is_check c f -> is_check (notM c) (fun tok => negb (f tok)).
Proof.
  intros H st. unfold notM, bind. rewrite H.
  destruct (peek st) as [[tok|e|] st1]; reflexivity.
Qed.

Lemma match_any_is_check (ty : token_kind) (v : string) (vs : list string) :
  is_check (match_any ty (v :: vs))
    (fun tok => existsb (fun w => accepts tok ty (Some (utf16 w))) (v :: vs)).
Proof.
  revert v. induction vs as [|v' vs IH]; intros v.
  - intros st. cbn [match_any existsb]. unfold orM, bind, match_tv.
    rewrite match_is_check.
    destruct (peek st) as [[tok|e|] st1]; try reflexivity.
    destruct (accepts tok ty _); reflexivity.
  - cbn [match_any existsb].
    apply (orM_is_check _ _ (fun tok => accepts tok ty (Some (utf16 v)))
             (fun tok => existsb (fun w => accepts tok ty (Some (utf16 w))) (v' :: vs))).
    + apply match_is_check.
    + apply IH.
Qed.

Lemma consume_at (ty : option token_kind) (val : option jsstring)
  (st : SaaamCompiler) (tok a : Token) (st' : SaaamCompiler) :
  peek st = (Ret tok, st) -> consume ty val st = (Ret a, st') ->
  a = tok /\ st' = snd (advance st)
  /\ (forall s, peek s = (Ret tok, s) -> consume ty val s = (Ret tok, snd (advance s))).
Proof.
  intros Hp. unfold consume. unfold bind at 1. rewrite Hp.
  destruct ty as [t0|]; destruct val as [v|];
    try destruct (negb (kind_eqb (type tok) t0)) eqn:Et;
    try destruct (negb (str_eqb (value tok) v)) eqn:Ev;
    unfold bind, addError, throw, ret, advance; cbn [snd fst];
    intros H; try discriminate; injection H as <- <-;
    (split; [reflexivity|split; [reflexivity|]]);
    intros s Hs; rewrite Hs; rewrite ?Et, ?Ev; reflexivity.
Qed.

Section Semicolon.

(** Two token arrays that differ by one semicolon: [with_semicolon] has it
    between [before] and the token [next], [without_semicolon] has not. *)
Variable before : list Token.
Variable next : Token.
Variable rest : list Token.
Variable p : nat.

Definition with_semicolon : list Token := before ++ semicolon p :: next :: rest.
Definition without_semicolon : list Token := before ++ next :: rest.

(** The index of the semicolon. *)
Definition at_semicolon : nat := length before.

Hypothesis Hnext : ends_statement next = true.

(** The two parsers stand at the same token, not after the semicolon, and
    have recorded the same. *)
Definition twin (st1 st2 : SaaamCompiler) : Prop :=
  tokens st1 = with_semicolon /\ tokens st2 = without_semicolon
  /\ currentToken st2 = currentToken st1 /\ currentToken st1 <= at_semicolon
  /\ errors st2 = errors st1 /\ warnings st2 = warnings st1 /\ ast st2 = ast st1.

(** On the tokens with the semicolon, started at or before it ([lt]: before
    it), a method that returns has not gone past it. *)
Definition bounded_run {A} (lt : bool) (m : M A) : Prop :=
  forall st1 a st1',
    tokens st1 = with_semicolon -> currentToken st1 <= at_semicolon ->
    (lt = true -> currentToken st1 < at_semicolon) ->
    m st1 = (Ret a, st1') ->
    tokens st1' = with_semicolon
    /\ currentToken st1 <= currentToken st1' /\ currentToken st1' <= at_semicolon.

(** What the method returns on the tokens with the semicolon, it returns on
    the tokens without it ([strict]: provided it stopped before the
    semicolon). *)
Definition same_run {A} (strict lt : bool) (m : M A) : Prop :=
  forall st1 st2 a st1',
    twin st1 st2 -> (lt = true -> currentToken st1 < at_semicolon) ->
    m st1 = (Ret a, st1') ->
    (strict = true -> currentToken st1' < at_semicolon) ->
    exists st2', m st2 = (Ret a, st2') /\ twin st1' st2'.

(** The method runs alike on both arrays. *)
Definition agrees {A} (strict lt : bool) (m : M A) : Prop :=
  bounded_run lt m /\ same_run strict lt m.

(** Started at the semicolon, the method does not return. *)
Definition refuses {A} (m : M A) : Prop :=
  forall st1 a st1',
    tokens st1 = with_semicolon -> currentToken st1 = at_semicolon ->
    m st1 = (Ret a, st1') -> False.

Lemma peek_before (st : SaaamCompiler) (tail : list Token) :
  tokens st = before ++ tail -> currentToken st < at_semicolon ->
  peek st = (match nth_error before (currentToken st) with
             | Some tok => Ret tok
             | None => Thrown undefined_token
             end, st).
Proof.
  intros Ht Hlt. unfold peek. rewrite Ht, nth_error_app1 by exact Hlt.
  destruct (nth_error before _); reflexivity.
Qed.

Lemma peek_at (st : SaaamCompiler) (tok : Token) (tail : list Token) :
  tokens st = before ++ tok :: tail -> currentToken st = at_semicolon ->
  peek st = (Ret tok, st).
Proof.
  intros Ht Hc. unfold peek. rewrite Ht, Hc. unfold at_semicolon.
  rewrite nth_error_app2 by apply le_n. rewrite Nat.sub_diag. reflexivity.
Qed.

Lemma no_true (P : Prop) : false = true -> P.
Proof. discriminate. Qed.

Lemma agrees_any {A} (m : M A) (strict lt : bool) :
  agrees false false m -> agrees strict lt m.
Proof.
  intros [HU HR]. split.
  - intros st1 a st1' Ht Hc _ H. exact (HU st1 a st1' Ht Hc (no_true _) H).
  - intros st1 st2 a st1' Htw _ H _.
    exact (HR st1 st2 a st1' Htw (no_true _) H
             (no_true _)).
Qed.

Lemma agrees_lt {A} (m : M A) (strict lt : bool) :
  agrees strict false m -> agrees strict lt m.
Proof.
  intros [HU HR]. split.
  - intros st1 a st1' Ht Hc _ H. exact (HU st1 a st1' Ht Hc (no_true _) H).
  - intros st1 st2 a st1' Htw _ H Hs.
    exact (HR st1 st2 a st1' Htw (no_true _) H Hs).
Qed.

Lemma agrees_ret {A} (a : A) (strict lt : bool) : agrees strict lt (ret a).
Proof.
  split.
  - intros st1 a' st1' Ht Hc _ [= <- <-]. repeat split; auto.
  - intros st1 st2 a' st1' Htw _ [= <- <-] _. exists st2. split; [reflexivity|exact Htw].
Qed.

Lemma agrees_throw {A} (message : jsstring) (strict lt : bool) :
  agrees strict lt (@throw A message).
Proof. split; repeat intro; discriminate. Qed.

Lemma agrees_out_of_fuel {A} (strict lt : bool) : agrees strict lt (@out_of_fuel A).
Proof. split; repeat intro; discriminate. Qed.

Lemma agrees_bind {A B} (m : M A) (f : A -> M B) (strict lt : bool) :
  agrees strict lt m -> (forall a, agrees strict false (f a)) ->
  agrees strict lt (bind m f).
Proof.
  intros [HU HR] Hf. split.
  - intros st1 b st1' Ht Hc Hlt. unfold bind.
    destruct (m st1) as [[a|e|] s1] eqn:E; try discriminate. intros H.
    destruct (HU _ _ _ Ht Hc Hlt E) as (Ht1 & Hle1 & Hj1).
    destruct (proj1 (Hf a) s1 b st1' Ht1 Hj1
                (no_true _) H)
      as (Ht2 & Hle2 & Hj2).
    repeat split; try assumption. lia.
  - intros st1 st2 b st1' Htw Hlt. unfold bind.
    destruct (m st1) as [[a|e|] s1] eqn:E; try discriminate. intros H Hs.
    destruct Htw as (T1 & T2 & Tc & Tj & Trest).
    destruct (HU _ _ _ T1 Tj Hlt E) as (Ht1 & Hle1 & Hj1).
    destruct (proj1 (Hf a) s1 b st1' Ht1 Hj1
                (no_true _) H)
      as (Ht2 & Hle2 & Hj2).
    destruct (HR st1 st2 a s1 (conj T1 (conj T2 (conj Tc (conj Tj Trest)))) Hlt E)
      as (s2 & E2 & Htw1).
    { intros Hst. specialize (Hs Hst). lia. }
    rewrite E2.
    exact (proj2 (Hf a) s1 s2 b st1' Htw1
             (no_true _) H Hs).
Qed.

Lemma peek_some (st : SaaamCompiler) (tail : list Token) :
  tokens st = before ++ tail -> currentToken st < at_semicolon ->
  peek st = (Ret (nth (currentToken st) before (semicolon 0)), st).
Proof.
  intros Ht Hlt. unfold peek. rewrite Ht, nth_error_app1 by exact Hlt.
  rewrite (nth_error_nth' before (semicolon 0) Hlt). reflexivity.
Qed.

(** A check followed by [k].  Before the semicolon both parsers see the same
    token.  At the semicolon the check gives [b0]; without the semicolon it
    gives the same at [next], or else what follows the check does not return. *)
Lemma agrees_check_all {A} (c : M bool) (f : Token -> bool) (k : bool -> M A)
  (b0 : bool) (strict lt : bool) :
  is_check c f -> f (semicolon p) = b0 ->
  (lt = true \/ strict = true \/ f next = b0 \/ refuses (k b0)) ->
  (forall b, agrees strict true (k b)) -> agrees strict lt (k b0) ->
  agrees strict lt (bind c k).
Proof.
  intros Hc Hb0 Hside Hlt Hat. split.
  - intros st1 a st1' Ht Hj Hl. unfold bind. rewrite Hc.
    destruct (Nat.eq_dec (currentToken st1) at_semicolon) as [E|E].
    + rewrite (peek_at st1 _ _ Ht E), Hb0. intros H.
      exact (proj1 Hat st1 a st1' Ht Hj Hl H).
    + assert (Hlt' : currentToken st1 < at_semicolon) by lia.
      rewrite (peek_before st1 _ Ht Hlt').
      destruct (nth_error before (currentToken st1)) as [tok|]; [|discriminate].
      intros H. exact (proj1 (Hlt (f tok)) st1 a st1' Ht Hj (fun _ => Hlt') H).
  - intros st1 st2 a st1' Htw Hl. unfold bind. rewrite !Hc.
    destruct Htw as (T1 & T2 & Tc & Tj & Trest).
    destruct (Nat.eq_dec (currentToken st1) at_semicolon) as [E|E].
    + rewrite (peek_at st1 _ _ T1 E), Hb0. intros H Hs.
      assert (E2 : currentToken st2 = at_semicolon) by congruence.
      rewrite (peek_at st2 _ _ T2 E2).
      destruct Hside as [Hside|[Hside|[Hside|Hside]]].
      * specialize (Hl Hside). lia.
      * specialize (Hs Hside).
        destruct (proj1 Hat st1 a st1' T1 Tj Hl H) as (_ & Hle & _). lia.
      * rewrite Hside.
        exact (proj2 Hat st1 st2 a st1'
                 (conj T1 (conj T2 (conj Tc (conj Tj Trest)))) Hl H Hs).
      * exfalso. exact (Hside st1 a st1' T1 E H).
    + assert (Hlt' : currentToken st1 < at_semicolon) by lia.
      assert (Hlt2 : currentToken st2 < at_semicolon) by lia.
      rewrite (peek_before st1 _ T1 Hlt'), (peek_before st2 _ T2 Hlt2), Tc.
      destruct (nth_error before (currentToken st1)) as [tok|]; [|discriminate].
      intros H Hs.
      exact (proj2 (Hlt (f tok)) st1 st2 a st1'
               (conj T1 (conj T2 (conj Tc (conj Tj Trest)))) (fun _ => Hlt') H Hs).
Qed.

Lemma agrees_weaken {A} (m : M A) (strict lt : bool) :
  agrees strict lt m -> agrees strict true m.
Proof.
  intros [HU HR]. split.
  - intros st1 a st1' Ht Hc Hl H. exact (HU st1 a st1' Ht Hc (fun _ => Hl eq_refl) H).
  - intros st1 st2 a st1' Htw Hl H Hs.
    exact (HR st1 st2 a st1' Htw (fun _ => Hl eq_refl) H Hs).
Qed.

Lemma agrees_check {A} (c : M bool) (f : Token -> bool) (k : bool -> M A)
  (b0 : bool) (strict lt : bool) :
  is_check c f -> f (semicolon p) = b0 ->
  (lt = true \/ strict = true \/ f next = b0 \/ refuses (k b0)) ->
  agrees strict true (k (negb b0)) -> agrees strict lt (k b0) ->
  agrees strict lt (bind c k).
Proof.
  intros Hc Hb0 Hside Hother Hat.
  apply (agrees_check_all c f k b0 strict lt Hc Hb0 Hside); [|exact Hat].
  intros b. destruct (Bool.bool_dec b b0) as [->|Hne].
  - exact (agrees_weaken _ _ _ Hat).
  - replace b with (negb b0); [exact Hother|].
    destruct b, b0; try reflexivity; exfalso; apply Hne; reflexivity.
Qed.

Lemma advance_twin (st1 st2 : SaaamCompiler) :
  twin st1 st2 -> currentToken st1 < at_semicolon ->
  twin (snd (advance st1)) (snd (advance st2)).
Proof.
  intros (T1 & T2 & Tc & Tj & Te & Tw & Ta) Hlt. unfold advance, twin.
  cbn [snd tokens currentToken errors warnings ast]. repeat split; auto; lia.
Qed.

(** [consume] with any expectation, before the semicolon. *)
Lemma agrees_consume_before (ty : option token_kind) (val : option jsstring)
  (strict : bool) :
  agrees strict true (consume ty val).
Proof.
  split.
  - intros st1 a st1' Ht Hj Hl H.
    destruct (consume_at _ _ _ _ _ _ (peek_some _ _ Ht (Hl eq_refl)) H) as (_ & -> & _).
    unfold advance. cbn [snd tokens currentToken]. specialize (Hl eq_refl).
    repeat split; try assumption; lia.
  - intros st1 st2 a st1' Htw Hl H _.
    pose proof Htw as (T1 & T2 & Tc & Tj & Trest).
    destruct (consume_at _ _ _ _ _ _ (peek_some _ _ T1 (Hl eq_refl)) H) as (Ea & -> & K).
    exists (snd (advance st2)). split.
    + rewrite Ea. apply K. rewrite <- Tc. apply (peek_some st2 _ T2).
      rewrite Tc. exact (Hl eq_refl).
    + apply advance_twin; [exact Htw|exact (Hl eq_refl)].
Qed.

(** [consume] of a token that the semicolon is not. *)
Lemma agrees_consume (ty : token_kind) (val : option jsstring) (strict lt : bool) :
  accepts (semicolon p) ty val = false -> agrees strict lt (consume (Some ty) val).
Proof.
  intros Hacc.
  assert (D : forall st1 a st1', tokens st1 = with_semicolon ->
                currentToken st1 = at_semicolon ->
                consume (Some ty) val st1 = (Ret a, st1') -> False).
  { intros st1 a st1' Ht Hc. unfold consume. unfold bind at 1.
    rewrite (peek_at st1 _ _ Ht Hc). unfold accepts in Hacc.
    cbn [semicolon type value] in *.
    destruct (kind_eqb PUNCTUATION ty); cbn [negb andb] in *.
    - destruct val as [v|]; [|discriminate].
      rewrite Hacc. unfold bind, addError, throw, ret. cbn. discriminate.
    - unfold bind, addError, throw. cbn. discriminate. }
  destruct (agrees_consume_before (Some ty) val strict) as [HU HR]. split.
  - intros st1 a st1' Ht Hj Hl H.
    destruct (Nat.eq_dec (currentToken st1) at_semicolon) as [E|E].
    + exfalso. exact (D _ _ _ Ht E H).
    + apply (HU st1 a st1' Ht Hj); [intros _; lia|exact H].
  - intros st1 st2 a st1' Htw Hl H Hs.
    destruct (Nat.eq_dec (currentToken st1) at_semicolon) as [E|E].
    + exfalso. exact (D _ _ _ (proj1 Htw) E H).
    + apply (HR st1 st2 a st1' Htw); [intros _|exact H|exact Hs].
      destruct Htw as (_ & _ & _ & ? & _). lia.
Qed.

Lemma agrees_addError (message : jsstring) (strict lt : bool) :
  agrees strict lt (addError message).
Proof.
  split.
  - intros st1 a st1' Ht Hj _ [= _ <-]. cbn. repeat split; auto.
  - intros st1 st2 a st1' (T1 & T2 & Tc & Tj & Te & Tw & Ta) _ [= <- <-] _.
    eexists. split; [reflexivity|]. unfold twin. cbn. rewrite Te.
    repeat split; auto.
Qed.

Lemma agrees_addWarning (message : jsstring) (strict lt : bool) :
  agrees strict lt (addWarning message).
Proof.
  split.
  - intros st1 a st1' Ht Hj _ [= _ <-]. cbn. repeat split; auto.
  - intros st1 st2 a st1' (T1 & T2 & Tc & Tj & Te & Tw & Ta) _ [= <- <-] _.
    eexists. split; [reflexivity|]. unfold twin. cbn. rewrite Tw.
    repeat split; auto.
Qed.

Lemma agrees_loop {S} (fuel : nat) (body : S -> M (loop_ctl S)) (strict : bool) :
  (forall s, agrees strict false (body s)) ->
  forall s lt, agrees strict lt (loop fuel body s).
Proof.
  intros Hbody. induction fuel as [|fuel IH]; intros s lt; cbn [loop].
  - apply agrees_out_of_fuel.
  - apply agrees_bind; [apply agrees_lt; apply Hbody|].
    intros [s'|s']; [apply IH|apply agrees_ret].
Qed.

(** A step followed by something that cannot start at the semicolon: the step
    need only agree where it stops before the semicolon. *)
Lemma agrees_bind_refused {A B} (m : M A) (k : A -> M B) (lt : bool) :
  agrees true lt m -> (forall a, agrees false false (k a)) -> (forall a, refuses (k a)) ->
  agrees false lt (bind m k).
Proof.
  intros [HU HR] Hk Hd. split.
  - intros st1 b st1' Ht Hc Hl. unfold bind.
    destruct (m st1) as [[a|e|] s1] eqn:E; try discriminate. intros H.
    destruct (HU _ _ _ Ht Hc Hl E) as (Ht1 & Hle1 & Hj1).
    destruct (proj1 (Hk a) s1 b st1' Ht1 Hj1 (no_true _) H)
      as (Ht2 & Hle2 & Hj2).
    repeat split; try assumption. lia.
  - intros st1 st2 b st1' Htw Hl. unfold bind.
    destruct (m st1) as [[a|e|] s1] eqn:E; try discriminate. intros H _.
    pose proof Htw as (T1 & T2 & Tc & Tj & Trest).
    destruct (HU _ _ _ T1 Tj Hl E) as (Ht1 & Hle1 & Hj1).
    destruct (Nat.eq_dec (currentToken s1) at_semicolon) as [Ej|Ej].
    { exfalso. exact (Hd a s1 b st1' Ht1 Ej H). }
    destruct (HR st1 st2 a s1 Htw Hl E) as (s2 & E2 & Htw1); [intros _; lia|].
    rewrite E2.
    exact (proj2 (Hk a) s1 s2 b st1' Htw1 (no_true _) H
             (no_true _)).
Qed.

(** A method that cannot start at the semicolon. *)
Lemma agrees_entry {A} (m : M A) (strict : bool) :
  refuses m -> agrees strict true m -> agrees strict false m.
Proof.
  intros Hd [HU HR]. split.
  - intros st1 a st1' Ht Hc _ H.
    destruct (Nat.eq_dec (currentToken st1) at_semicolon) as [Ej|Ej].
    { exfalso. exact (Hd _ _ _ Ht Ej H). }
    apply (HU st1 a st1' Ht Hc); [intros _; lia|exact H].
  - intros st1 st2 a st1' Htw _ H Hs.
    pose proof Htw as (T1 & T2 & Tc & Tj & Trest).
    destruct (Nat.eq_dec (currentToken st1) at_semicolon) as [Ej|Ej].
    { exfalso. exact (Hd _ _ _ T1 Ej H). }
    apply (HR st1 st2 a st1' Htw); [intros _; lia|exact H|exact Hs].
Qed.

(** The rules of [refuses]. *)
Lemma refuses_throw {A} (message : jsstring) : refuses (@throw A message).
Proof. intros st1 a st1' _ _ [=]. Qed.

Lemma refuses_out_of_fuel {A} : refuses (@out_of_fuel A).
Proof. intros st1 a st1' _ _ [=]. Qed.

Lemma refuses_bind {A B} (m : M A) (k : A -> M B) : refuses m -> refuses (bind m k).
Proof.
  intros Hd st1 b st1' Ht Hc. unfold bind.
  destruct (m st1) as [[a|e|] s1] eqn:E; try discriminate.
  intros _. exact (Hd _ _ _ Ht Hc E).
Qed.

Lemma refuses_check {A} (c : M bool) (f : Token -> bool) (k : bool -> M A)
  (b0 : bool) :
  is_check c f -> f (semicolon p) = b0 -> refuses (k b0) -> refuses (bind c k).
Proof.
  intros Hc Hb0 Hd st1 a st1' Ht Hj. unfold bind.
  rewrite Hc, (peek_at st1 _ _ Ht Hj), Hb0. apply Hd; assumption.
Qed.

Lemma refuses_peek {A} (k : Token -> M A) :
  refuses (k (semicolon p)) -> refuses (bind peek k).
Proof.
  intros Hd st1 a st1' Ht Hj. unfold bind.
  rewrite (peek_at st1 _ _ Ht Hj). apply Hd; assumption.
Qed.

Lemma refuses_consume (ty : token_kind) (val : option jsstring) :
  accepts (semicolon p) ty val = false -> refuses (consume (Some ty) val).
Proof.
  intros Hacc st1 a st1' Ht Hj. unfold consume. unfold bind at 1.
  rewrite (peek_at st1 _ _ Ht Hj). unfold accepts in Hacc.
  cbn [semicolon type value] in *.
  destruct (kind_eqb PUNCTUATION ty); cbn [negb andb] in *.
  - destruct val as [v|]; [|discriminate].
    rewrite Hacc. unfold bind, addError, throw, ret. cbn. discriminate.
  - unfold bind, addError, throw. cbn. discriminate.
Qed.

Lemma refuses_add {A} (m : M unit) (k : unit -> M A) :
  (forall st a st', m st = (Ret a, st') ->
     tokens st' = tokens st /\ currentToken st' = currentToken st) ->
  refuses (k tt) -> refuses (bind m k).
Proof.
  intros Hm Hd st1 b st1' Ht Hj. unfold bind.
  destruct (m st1) as [[[]|e|] s1] eqn:E; try discriminate.
  destruct (Hm _ _ _ E) as [Ht1 Hc1]. apply Hd; congruence.
Qed.

Lemma addError_still (message : jsstring) (st : SaaamCompiler) (a : unit)
  (st' : SaaamCompiler) :
  addError message st = (Ret a, st') ->
  tokens st' = tokens st /\ currentToken st' = currentToken st.
Proof. intros [= _ <-]. split; reflexivity. Qed.

Lemma addWarning_still (message : jsstring) (st : SaaamCompiler) (a : unit)
  (st' : SaaamCompiler) :
  addWarning message st = (Ret a, st') ->
  tokens st' = tokens st /\ currentToken st' = currentToken st.
Proof. intros [= _ <-]. split; reflexivity. Qed.

Lemma refuses_loop {S} (fuel : nat) (body : S -> M (loop_ctl S)) (s : S) :
  refuses (body s) -> refuses (loop fuel body s).
Proof.
  intros Hd. destruct fuel as [|fuel]; cbn [loop].
  - apply refuses_out_of_fuel.
  - apply refuses_bind. exact Hd.
Qed.

(** What [next] is not. *)
Lemma next_not_semicolon : accepts next PUNCTUATION (Some (utf16 ";")) = false.
Proof.
  unfold ends_statement, is_semicolon in Hnext.
  apply andb_true_iff in Hnext as [H _]. apply negb_true_iff in H. exact H.
Qed.

Lemma next_does_not_continue : continues_expression next = false.
Proof.
  unfold ends_statement in Hnext.
  apply andb_true_iff in Hnext as [_ H]. apply negb_true_iff in H. exact H.
Qed.

Lemma next_not_operator (vs : list string) :
  forallb (fun v => existsb (String.eqb v) continuing_operators) vs = true ->
  existsb (fun w => accepts next OPERATOR (Some (utf16 w))) vs = false.
Proof.
  intros Hsub.
  destruct (existsb _ vs) eqn:E; [|reflexivity].
  apply existsb_exists in E as (v & Hin & Hv).
  rewrite forallb_forall in Hsub. specialize (Hsub v Hin).
  apply existsb_exists in Hsub as (v' & Hin' & Heq).
  apply String.eqb_eq in Heq. subst v'.
  pose proof next_does_not_continue as H. unfold continues_expression in H.
  apply orb_false_iff in H as [H _]. apply orb_false_iff in H as [H _].
  apply orb_false_iff in H as [H _].
  assert (K : existsb (fun v0 => accepts next OPERATOR (Some (utf16 v0)))
                continuing_operators = true)
    by (apply existsb_exists; exists v; split; assumption).
  congruence.
Qed.

Lemma next_not_paren : accepts next PUNCTUATION (Some (utf16 "(")) = false.
Proof.
  pose proof next_does_not_continue as H. unfold continues_expression in H.
  apply orb_false_iff in H as [H _]. apply orb_false_iff in H as [H _].
  apply orb_false_iff in H as [_ H]. exact H.
Qed.

Lemma next_not_dot : accepts next PUNCTUATION (Some (utf16 ".")) = false.
Proof.
  pose proof next_does_not_continue as H. unfold continues_expression in H.
  apply orb_false_iff in H as [H _]. apply orb_false_iff in H as [_ H]. exact H.
Qed.

Lemma next_not_bracket : accepts next BRACKET (Some (utf16 "[")) = false.
Proof.
  pose proof next_does_not_continue as H. unfold continues_expression in H.
  apply orb_false_iff in H as [_ H]. exact H.
Qed.

(** The pair of properties that the methods of the expression grammar have:
    none starts at the semicolon, and each runs alike on both arrays. *)
Definition framed {A} (m : M A) : Prop := refuses m /\ agrees false false m.

Record framed_parsers (self : parsers) : Prop := {
  f_Expression : framed (p_Expression self);
  f_Assignment : framed (p_Assignment self);
  f_LogicalOr : framed (p_LogicalOr self);
  f_LogicalAnd : framed (p_LogicalAnd self);
  f_Equality : framed (p_Equality self);
  f_Comparison : framed (p_Comparison self);
  f_Additive : framed (p_Additive self);
  f_Multiplicative : framed (p_Multiplicative self);
  f_Unary : framed (p_Unary self);
  f_CallOrMember : framed (p_CallOrMember self);
  f_CallExpression : forall callee, framed (p_CallExpression self callee);
  f_MemberExpression : forall object, framed (p_MemberExpression self object);
  f_IndexExpression : forall object, framed (p_IndexExpression self object);
  f_ObjectLiteral : framed (p_ObjectLiteral self);
  f_ArrayLiteral : framed (p_ArrayLiteral self);
  f_Primary : framed (p_Primary self)
}.

Lemma agrees_check_builtin_call (callee : ASTNode) (args : list ASTNode)
  (strict lt : bool) :
  agrees strict lt (check_builtin_call callee args).
Proof.
  unfold check_builtin_call, when.
  destruct callee; try apply agrees_ret.
  repeat match goal with
         | |- agrees _ _ (bind _ _) => apply agrees_bind; [|intros]
         | |- agrees _ _ (if ?b then _ else _) => destruct b
         | |- agrees _ _ (ret _) => apply agrees_ret
         | |- agrees _ _ (addWarning _) => apply agrees_addWarning
         end.
Qed.

Lemma agrees_never {A} (m : M A) (strict lt : bool) :
  (forall st a st', m st = (Ret a, st') -> False) -> agrees strict lt m.
Proof.
  intros Hm. split.
  - intros st1 a st1' _ _ _ H. destruct (Hm _ _ _ H).
  - intros st1 st2 a st1' _ _ H. destruct (Hm _ _ _ H).
Qed.

Lemma unexpected_token_throws {A} (f g : Token -> jsstring) (st : SaaamCompiler)
  (a : A) (st' : SaaamCompiler) :
  (token <- peek ;; addError (f token) ;; token <- peek ;; throw (g token)) st
  = (Ret a, st') -> False.
Proof.
  unfold bind, addError, throw.
  destruct (peek st) as [[tok|e|] s1]; try discriminate.
  destruct (peek _) as [[tok'|e'|] s2]; discriminate.
Qed.

Ltac agree_more := fail.

Ltac from_self :=
  match goal with
  | H : framed_parsers ?self |- refuses (?q ?self) =>
      first [ exact (proj1 (f_Expression _ H)) | exact (proj1 (f_Assignment _ H))
            | exact (proj1 (f_LogicalOr _ H)) | exact (proj1 (f_LogicalAnd _ H))
            | exact (proj1 (f_Equality _ H)) | exact (proj1 (f_Comparison _ H))
            | exact (proj1 (f_Additive _ H)) | exact (proj1 (f_Multiplicative _ H))
            | exact (proj1 (f_Unary _ H)) | exact (proj1 (f_CallOrMember _ H))
            | exact (proj1 (f_ObjectLiteral _ H)) | exact (proj1 (f_ArrayLiteral _ H))
            | exact (proj1 (f_Primary _ H)) ]
  | H : framed_parsers ?self |- refuses (?q ?self ?x) =>
      first [ exact (proj1 (f_CallExpression _ H x))
            | exact (proj1 (f_MemberExpression _ H x))
            | exact (proj1 (f_IndexExpression _ H x)) ]
  | H : framed_parsers ?self |- agrees _ _ (?q ?self) =>
      apply agrees_any;
      first [ exact (proj2 (f_Expression _ H)) | exact (proj2 (f_Assignment _ H))
            | exact (proj2 (f_LogicalOr _ H)) | exact (proj2 (f_LogicalAnd _ H))
            | exact (proj2 (f_Equality _ H)) | exact (proj2 (f_Comparison _ H))
            | exact (proj2 (f_Additive _ H)) | exact (proj2 (f_Multiplicative _ H))
            | exact (proj2 (f_Unary _ H)) | exact (proj2 (f_CallOrMember _ H))
            | exact (proj2 (f_ObjectLiteral _ H)) | exact (proj2 (f_ArrayLiteral _ H))
            | exact (proj2 (f_Primary _ H)) ]
  | H : framed_parsers ?self |- agrees _ _ (?q ?self ?x) =>
      apply agrees_any;
      first [ exact (proj2 (f_CallExpression _ H x))
            | exact (proj2 (f_MemberExpression _ H x))
            | exact (proj2 (f_IndexExpression _ H x)) ]
  end.

Ltac is_a_check :=
  solve [ unfold match_tv, match_type, match_declaration;
          repeat first [ apply match_is_check | apply not_eof_is_check
                       | apply match_any_is_check
                       | eapply orM_is_check | eapply andM_is_check
                       | eapply notM_is_check ] ].

Ltac refuse :=
  lazymatch goal with
  | |- refuses (throw _) => apply refuses_throw
  | |- refuses out_of_fuel => apply refuses_out_of_fuel
  | |- refuses (consume_tv _ _) => apply refuses_consume; reflexivity
  | |- refuses (consume_type _) => apply refuses_consume; reflexivity
  | |- refuses (loop _ _ _) => apply refuses_loop; refuse
  | |- refuses (while_ _ _ _ _) => unfold while_; refuse
  | |- refuses (bind peek _) => apply refuses_peek; refuse
  | |- refuses (bind (addError _) _) =>
      apply refuses_add; [apply addError_still|refuse]
  | |- refuses (bind (addWarning _) _) =>
      apply refuses_add; [apply addWarning_still|refuse]
  | |- refuses (bind _ _) =>
      first [ eapply refuses_check;
              [ is_a_check | lazy; reflexivity | cbv beta iota; refuse ]
            | apply refuses_bind; refuse ]
  | |- refuses _ => from_self
  end.

Ltac next_agrees :=
  cbv beta;
  first [ exact next_not_paren | exact next_not_dot | exact next_not_bracket
        | apply next_not_operator; reflexivity ].

Ltac side :=
  first [ left; reflexivity
        | right; left; reflexivity
        | right; right; left; next_agrees
        | right; right; right; cbv beta iota delta [negb]; refuse ].

Ltac agree :=
  lazymatch goal with
  | |- agrees _ _ (ret _) => apply agrees_ret
  | |- agrees _ _ (throw _) => apply agrees_throw
  | |- agrees _ _ out_of_fuel => apply agrees_out_of_fuel
  | |- agrees _ _ (addError _) => apply agrees_addError
  | |- agrees _ _ (addWarning _) => apply agrees_addWarning
  | |- agrees _ _ (when _ _) => unfold when; agree
  | |- agrees _ _ (if negb ?b then _ else _) => destruct b; cbn [negb]; agree
  | |- agrees _ _ (if ?b then _ else _) => destruct b; agree
  | |- agrees _ true consume_any => apply agrees_consume_before
  | |- agrees _ _ (consume_tv _ _) => apply agrees_consume; reflexivity
  | |- agrees _ _ (consume_type _) => apply agrees_consume; reflexivity
  | |- agrees _ _ (check_builtin_call _ _) => apply agrees_check_builtin_call
  | |- agrees _ _ (loop _ _ _) => apply agrees_loop; intros; agree
  | |- agrees _ _ (while_ _ _ _ _) => unfold while_; agree
  | |- agrees _ _ (bind peek _) => apply agrees_never; apply unexpected_token_throws
  | |- agrees false _ (bind (while_ _ _ _ _) _) =>
      apply agrees_bind_refused; [agree | intros; agree | intros; refuse]
  | |- agrees false _ (bind (loop _ _ _) _) =>
      apply agrees_bind_refused; [agree | intros; agree | intros; refuse]
  | |- agrees _ _ (bind _ _) =>
      first [ eapply agrees_check;
              [ is_a_check | lazy; reflexivity | side
              | cbv beta iota delta [negb]; agree
              | cbv beta iota; agree ]
            | apply agrees_bind; [agree | intros; agree] ]
  | |- agrees _ _ _ => first [from_self | agree_more]
  end.

Section Method.

Variable self : parsers.
Variable fuel : nat.
Hypothesis Hself : framed_parsers self.

Lemma framed_start {A} (m : M A) : refuses m -> agrees false true m -> framed m.
Proof. intros Hd Hj. split; [exact Hd|exact (agrees_entry m false Hd Hj)]. Qed.

Lemma framed_parseExpression : framed (parseExpression self).
Proof. exact (f_Assignment _ Hself). Qed.

Lemma framed_parseAssignment : framed (parseAssignment self).
Proof. unfold parseAssignment. apply framed_start; [refuse|agree]. Qed.

Lemma framed_binary_level (operators : list string) (first operand : M ASTNode)
  (name : Token -> jsstring) :
  forallb (fun v => existsb (String.eqb v) continuing_operators) operators = true ->
  operators <> [] ->
  framed first -> framed operand ->
  framed (left <- first ;; binary_loop fuel operators operand name left).
Proof.
  intros Hsub Hne [Hd1 Hj1] [Hd2 Hj2].
  destruct operators as [|v vs]; [contradiction|].
  split; [apply refuses_bind; exact Hd1|].
  apply agrees_bind; [exact Hj1|]. intros left.
  unfold binary_loop, while_. apply agrees_loop. intros left'.
  assert (E : existsb (fun w => accepts (semicolon p) OPERATOR (Some (utf16 w))) (v :: vs)
              = false).
  { clear. induction (v :: vs) as [|w ws IH]; [reflexivity|]. cbn [existsb].
    rewrite IH. reflexivity. }
  eapply agrees_check.
  - apply match_any_is_check.
  - exact E.
  - right. right. left. apply next_not_operator. exact Hsub.
  - cbv beta iota delta [negb].
    apply agrees_bind; [|intros; apply agrees_ret].
    apply agrees_bind; [apply agrees_consume_before|]. intros operator.
    apply agrees_bind; [apply agrees_any; exact Hj2|]. intros; apply agrees_ret.
  - apply agrees_ret.
Qed.

Lemma framed_parseLogicalOr : framed (parseLogicalOr self fuel).
Proof.
  apply framed_binary_level;
    [reflexivity|discriminate|exact (f_LogicalAnd _ Hself)..].
Qed.

Lemma framed_parseLogicalAnd : framed (parseLogicalAnd self fuel).
Proof.
  apply framed_binary_level;
    [reflexivity|discriminate|exact (f_Equality _ Hself)..].
Qed.

Lemma framed_parseEquality : framed (parseEquality self fuel).
Proof.
  apply framed_binary_level;
    [reflexivity|discriminate|exact (f_Comparison _ Hself)..].
Qed.

Lemma framed_parseComparison : framed (parseComparison self fuel).
Proof.
  apply framed_binary_level;
    [reflexivity|discriminate|exact (f_Additive _ Hself)..].
Qed.

Lemma framed_parseAdditive : framed (parseAdditive self fuel).
Proof.
  apply framed_binary_level;
    [reflexivity|discriminate|exact (f_Multiplicative _ Hself)..].
Qed.

Lemma framed_parseMultiplicative : framed (parseMultiplicative self fuel).
Proof.
  apply framed_binary_level;
    [reflexivity|discriminate|exact (f_Unary _ Hself)..].
Qed.

Lemma framed_parseUnary : framed (parseUnary self).
Proof. unfold parseUnary. apply framed_start; [refuse|agree]. Qed.

Lemma framed_parseCallOrMember : framed (parseCallOrMember self fuel).
Proof. unfold parseCallOrMember. split; [refuse|agree]. Qed.

Lemma framed_parseCallExpression (callee : ASTNode) :
  framed (parseCallExpression self fuel callee).
Proof.
  unfold parseCallExpression. apply framed_start; [refuse|].
  apply agrees_bind; [agree|]. intros _.
  eapply agrees_check; [is_a_check|lazy; reflexivity|side| |];
    cbv beta iota delta [negb].
  - agree.
  - agree.
Qed.

Lemma framed_parseMemberExpression (object : ASTNode) :
  framed (parseMemberExpression object).
Proof. unfold parseMemberExpression. apply framed_start; [refuse|agree]. Qed.

Lemma framed_parseIndexExpression (object : ASTNode) :
  framed (parseIndexExpression self object).
Proof. unfold parseIndexExpression. apply framed_start; [refuse|agree]. Qed.

Lemma agrees_object_property (properties : list PropertyNode)
  (key : jsstring + ASTNode) (computed : bool) :
  agrees true false (object_property self properties key computed).
Proof.
  unfold object_property.
  eapply agrees_check; [is_a_check|lazy; reflexivity|side| |];
    cbv beta iota delta [negb].
  - apply agrees_bind; [agree|]. intros [v|]; agree.
  - apply agrees_bind; [destruct key; [destruct computed|]; cbn [negb]; agree|].
    intros [v|]; agree.
Qed.

Ltac agree_more ::=
  lazymatch goal with
  | |- agrees _ _ (object_property _ _ _ _) =>
      apply agrees_lt; apply agrees_object_property
  end.

Lemma framed_parseObjectLiteral : framed (parseObjectLiteral self fuel).
Proof.
  unfold parseObjectLiteral. apply framed_start; [refuse|].
  apply agrees_bind; [agree|]. intros _.
  apply agrees_bind_refused; [|intros; agree|intros; refuse].
  agree.
Qed.

Lemma framed_parseArrayLiteral : framed (parseArrayLiteral self fuel).
Proof. unfold parseArrayLiteral. apply framed_start; [refuse|agree]. Qed.

Lemma framed_parsePrimary : framed (parsePrimary self).
Proof. unfold parsePrimary. apply framed_start; [refuse|agree]. Qed.

Lemma framed_methods : framed_parsers (methods self fuel).
Proof.
  constructor; cbn [methods p_Expression p_Assignment p_LogicalOr p_LogicalAnd
                      p_Equality p_Comparison p_Additive p_Multiplicative p_Unary
                      p_CallOrMember p_CallExpression p_MemberExpression
                      p_IndexExpression p_ObjectLiteral p_ArrayLiteral p_Primary].
  - exact framed_parseExpression.
  - exact framed_parseAssignment.
  - exact framed_parseLogicalOr.
  - exact framed_parseLogicalAnd.
  - exact framed_parseEquality.
  - exact framed_parseComparison.
  - exact framed_parseAdditive.
  - exact framed_parseMultiplicative.
  - exact framed_parseUnary.
  - exact framed_parseCallOrMember.
  - exact framed_parseCallExpression.
  - exact framed_parseMemberExpression.
  - exact framed_parseIndexExpression.
  - exact framed_parseObjectLiteral.
  - exact framed_parseArrayLiteral.
  - exact framed_parsePrimary.
Qed.

End Method.

Lemma framed_out_of_fuel {A} : framed (@out_of_fuel A).
Proof. split; [apply refuses_out_of_fuel|apply agrees_out_of_fuel]. Qed.

Lemma framed_parser (n : nat) : framed_parsers (parser n).
Proof.
  induction n as [|n IH]; cbn [parser].
  - constructor; intros; apply framed_out_of_fuel.
  - apply framed_methods. exact IH.
Qed.


(** ** Dropping the semicolon

    [drops lt m V]: a run of [m] that consumes the semicolon and stops right
    behind it runs, on the array without the semicolon, to the place of the
    semicolon, with the same result and the same errors; [V] gives the
    warnings added. *)
Definition drops {A} (lt : bool) (m : M A) (V : A -> list jsstring) : Prop :=
  forall st1 st2 a st1',
    twin st1 st2 -> (lt = true -> currentToken st1 < at_semicolon) ->
    m st1 = (Ret a, st1') -> currentToken st1' = S at_semicolon ->
    exists st2', m st2 = (Ret a, st2')
      /\ currentToken st2' = at_semicolon
      /\ errors st2' = errors st1'
      /\ warnings st2' = warnings st1' ++ V a.

Lemma drops_of_agrees {A} (m : M A) (V : A -> list jsstring) (lt : bool) :
  agrees false lt m -> drops lt m V.
Proof.
  intros [HU _] st1 st2 a st1' (T1 & _ & _ & Tj & _) Hl H Hend.
  destruct (HU _ _ _ T1 Tj Hl H) as (_ & _ & Hle). lia.
Qed.

Lemma drops_weaken {A} (m : M A) (V : A -> list jsstring) (lt : bool) :
  drops lt m V -> drops true m V.
Proof.
  intros Hm st1 st2 a st1' Htw Hl. apply Hm; [exact Htw|]. intros _. exact (Hl eq_refl).
Qed.

Lemma drops_bind {A B} (m : M A) (k : A -> M B) (V : B -> list jsstring)
  (lt : bool) :
  agrees false lt m -> (forall a, drops false (k a) V) ->
  drops lt (bind m k) V.
Proof.
  intros [HU HR] Hk st1 st2 b st1' Htw Hl. unfold bind.
  destruct (m st1) as [[a|e|] s1] eqn:E; try discriminate. intros H Hend.
  destruct (HR st1 st2 a s1 Htw Hl E (no_true _)) as (s2 & E2 & Htw1).
  rewrite E2. exact (Hk a s1 s2 b st1' Htw1 (no_true _) H Hend).
Qed.

Lemma drops_bind_ret {A B} (m : M A) (g : A -> B) (V' : A -> list jsstring)
  (V : B -> list jsstring) (lt : bool) :
  drops lt m V' -> (forall a, V (g a) = V' a) ->
  drops lt (bind m (fun a => ret (g a))) V.
Proof.
  intros Hm HW st1 st2 b st1' Htw Hl. unfold bind.
  destruct (m st1) as [[a|e|] s1] eqn:E; try discriminate.
  intros [= <- <-] Hend.
  destruct (Hm st1 st2 a s1 Htw Hl E Hend) as (s2 & E2 & Hc & He & Hw).
  exists s2. rewrite E2, HW. auto.
Qed.

Lemma drops_check {A} (c : M bool) (f : Token -> bool) (k : bool -> M A)
  (V : A -> list jsstring) (b0 : bool) (lt : bool) :
  is_check c f -> f (semicolon p) = b0 -> (lt = true \/ f next = b0) ->
  drops true (k (negb b0)) V -> drops lt (k b0) V ->
  drops lt (bind c k) V.
Proof.
  intros Hc Hb0 Hside Hother Hat st1 st2 a st1' Htw Hl. unfold bind. rewrite !Hc.
  pose proof Htw as (T1 & T2 & Tc & Tj & Trest).
  destruct (Nat.eq_dec (currentToken st1) at_semicolon) as [E|E].
  - rewrite (peek_at st1 _ _ T1 E), Hb0. intros H Hend.
    assert (E2 : currentToken st2 = at_semicolon) by congruence.
    rewrite (peek_at st2 _ _ T2 E2).
    destruct Hside as [Hside|Hside]; [specialize (Hl Hside); lia|].
    rewrite Hside. exact (Hat st1 st2 a st1' Htw Hl H Hend).
  - assert (Hlt' : currentToken st1 < at_semicolon) by lia.
    assert (Hlt2 : currentToken st2 < at_semicolon) by lia.
    rewrite (peek_before st1 _ T1 Hlt'), (peek_before st2 _ T2 Hlt2), Tc.
    destruct (nth_error before (currentToken st1)) as [tok|]; [|discriminate].
    intros H Hend.
    destruct (Bool.bool_dec (f tok) b0) as [Eb|Eb].
    + rewrite Eb in *. exact (drops_weaken _ _ _ Hat st1 st2 a st1' Htw (fun _ => Hlt') H Hend).
    + replace (f tok) with (negb b0) in *
        by (destruct (f tok), b0; try reflexivity; exfalso; apply Eb; reflexivity).
      exact (Hother st1 st2 a st1' Htw (fun _ => Hlt') H Hend).
Qed.

(** A check at a token. *)
Lemma check_at (c : M bool) (f : Token -> bool) {A} (k : bool -> M A)
  (st : SaaamCompiler) (tok : Token) :
  is_check c f -> peek st = (Ret tok, st) -> bind c k st = k (f tok) st.
Proof. intros Hc Hp. unfold bind. rewrite Hc, Hp. reflexivity. Qed.

Lemma consume_any_at (st : SaaamCompiler) (tok : Token) :
  peek st = (Ret tok, st) -> consume_any st = (Ret tok, snd (advance st)).
Proof.
  intros Hp. unfold consume_any, consume. unfold bind at 1. rewrite Hp. reflexivity.
Qed.

(** The optional semicolon itself. *)
Lemma drops_optional_semicolon (warning : jsstring) (lt : bool) :
  drops lt (optional_semicolon warning) (fun _ => [warning]).
Proof.
  intros st1 st2 a st1' Htw Hl H Hend.
  pose proof Htw as (T1 & T2 & Tc & Tj & Te & Tw & Ta).
  destruct (Nat.eq_dec (currentToken st1) at_semicolon) as [E|E].
  - assert (E2 : currentToken st2 = at_semicolon) by congruence.
    exists (snd (addWarning warning st2)). destruct a.
    split; [|cbn; rewrite Te, Tw].
    + unfold optional_semicolon, match_tv.
      rewrite (check_at _ _ _ _ _ (match_is_check _ _) (peek_at st2 _ _ T2 E2)).
      rewrite next_not_semicolon. reflexivity.
    + revert H. unfold optional_semicolon, match_tv.
      rewrite (check_at _ _ _ _ _ (match_is_check _ _) (peek_at st1 _ _ T1 E)).
      cbv beta. replace (accepts (semicolon p) PUNCTUATION (Some (utf16 ";"))) with true
        by reflexivity.
      unfold bind. rewrite (consume_any_at _ _ (peek_at st1 _ _ T1 E)).
      intros [= <-]. cbn. split; [exact E2|]. split; reflexivity.
  - exfalso.
    assert (Hj : agrees false true (optional_semicolon warning)).
    { unfold optional_semicolon. agree. }
    destruct (proj1 Hj _ _ _ T1 Tj (fun _ => ltac:(lia)) H) as (_ & _ & Hle). lia.
Qed.

Lemma next_not_assign : accepts next OPERATOR (Some (utf16 "=")) = false.
Proof.
  pose proof (next_not_operator ["="]%string eq_refl) as H. cbn [existsb] in H.
  apply orb_false_iff in H as [H _]. exact H.
Qed.

(** After [return] the parser goes on with an expression, unless a semicolon
    or a closing brace follows. *)
Hypothesis Hreturn :
  negb (ends_with_return before) || is_closing_brace next = true.

Definition warning_for (node : ASTNode) : list jsstring :=
  missing_semicolon_warning node next.

Lemma drops_return_tail (argument : option ASTNode) (lt : bool) :
  drops lt
    (semi <- match_tv PUNCTUATION ";" ;;
     (if semi then consume_any ;; ret tt
      else close <- match_tv BRACKET "}" ;;
           when (negb close)
             (addWarning (utf16 "Missing semicolon after return statement"))) ;;
     ret (ReturnStatement argument)) warning_for.
Proof.
  intros st1 st2 a st1' Htw Hl H Hend.
  pose proof Htw as (T1 & T2 & Tc & Tj & Te & Tw & Ta).
  destruct (Nat.eq_dec (currentToken st1) at_semicolon) as [E|E].
  - assert (E2 : currentToken st2 = at_semicolon) by congruence.
    revert H. unfold match_tv.
    rewrite (check_at _ _ _ _ _ (match_is_check _ _) (peek_at st1 _ _ T1 E)).
    cbv beta. replace (accepts (semicolon p) PUNCTUATION (Some (utf16 ";"))) with true
      by reflexivity.
    unfold bind at 1 2. rewrite (consume_any_at _ _ (peek_at st1 _ _ T1 E)).
    intros [= <- <-].
    rewrite (check_at _ _ _ _ _ (match_is_check _ _) (peek_at st2 _ _ T2 E2)).
    rewrite next_not_semicolon. unfold bind at 1.
    rewrite (check_at _ _ _ _ _ (match_is_check _ _) (peek_at st2 _ _ T2 E2)).
    unfold warning_for, missing_semicolon_warning, is_closing_brace.
    destruct (accepts next BRACKET (Some (utf16 "}"))); cbn.
    + exists st2. rewrite app_nil_r. auto.
    + eexists. split; [reflexivity|]. cbn. rewrite Tw. auto.
  - exfalso.
    assert (Hj : agrees false true
                   (semi <- match_tv PUNCTUATION ";" ;;
                    (if semi then consume_any ;; ret tt
                     else close <- match_tv BRACKET "}" ;;
                          when (negb close)
                            (addWarning (utf16 "Missing semicolon after return statement"))) ;;
                    ret (ReturnStatement argument))) by agree.
    destruct (proj1 Hj _ _ _ T1 Tj (fun _ => ltac:(lia)) H) as (_ & _ & Hle). lia.
Qed.

(** The consumption of a token that the last token before the semicolon is
    not stops before the semicolon. *)
Lemma drops_consume_not_last {A} (ty : token_kind) (val : option jsstring)
  (k : Token -> M A) (V : A -> list jsstring) (lt : bool) :
  accepts (semicolon p) ty val = false ->
  (forall tok, nth_error before (at_semicolon - 1) = Some tok ->
               accepts tok ty val = false) ->
  (forall tok, drops true (k tok) V) ->
  drops lt (bind (consume (Some ty) val) k) V.
Proof.
  intros Hacc Hlast Hk st1 st2 b st1' Htw Hl. unfold bind.
  destruct (consume (Some ty) val st1) as [[a|e|] s1] eqn:E; try discriminate.
  intros H Hend. pose proof Htw as (T1 & T2 & Tc & Tj & Trest).
  destruct (Nat.eq_dec (currentToken st1) at_semicolon) as [Ej|Ej].
  { exfalso. exact (refuses_consume ty val Hacc st1 a s1 T1 Ej E). }
  assert (Hlt : currentToken st1 < at_semicolon) by lia.
  destruct (consume_at _ _ _ _ _ _ (peek_some _ _ T1 Hlt) E) as (Ea & Es & K).
  assert (E2 : consume (Some ty) val st2 = (Ret a, snd (advance st2))).
  { rewrite Ea. apply K. rewrite <- Tc. apply (peek_some st2 _ T2). lia. }
  rewrite E2.
  assert (Htw1 : twin s1 (snd (advance st2))).
  { rewrite Es. apply advance_twin; assumption. }
  apply (Hk a s1 _ b st1' Htw1); [|exact H|exact Hend].
  intros _. rewrite Es. unfold advance. cbn [snd currentToken].
  destruct (Nat.eq_dec (S (currentToken st1)) at_semicolon) as [El|El]; [|lia].
  exfalso.
  assert (Hn : nth_error before (at_semicolon - 1) = Some a).
  { rewrite <- El. cbn [Nat.sub]. rewrite Nat.sub_0_r, Ea.
    apply nth_error_nth'. exact Hlt. }
  specialize (Hlast a Hn).
  revert E. unfold consume. unfold bind at 1.
  rewrite (peek_some _ _ T1 Hlt), <- Ea. unfold accepts in Hlast.
  destruct (kind_eqb (type a) ty); cbn [negb andb] in *;
    unfold bind, addError, throw; cbn; [|discriminate].
  destruct val as [v|]; [|discriminate]. rewrite Hlast. cbn. discriminate.
Qed.

Section Statements.

Variable self : parsers.
Variable fuel : nat.
Hypothesis Hself : framed_parsers self.

Lemma drops_parseBreakStatement (lt : bool) : drops lt parseBreakStatement warning_for.
Proof.
  unfold parseBreakStatement. apply drops_bind; [agree|]. intros _.
  apply (drops_bind_ret _ (fun _ => BreakStatement)
           (fun _ => [utf16 "Missing semicolon after break statement"]));
    [apply drops_optional_semicolon|reflexivity].
Qed.

Lemma drops_parseContinueStatement (lt : bool) :
  drops lt parseContinueStatement warning_for.
Proof.
  unfold parseContinueStatement. apply drops_bind; [agree|]. intros _.
  apply (drops_bind_ret _ (fun _ => ContinueStatement)
           (fun _ => [utf16 "Missing semicolon after continue statement"]));
    [apply drops_optional_semicolon|reflexivity].
Qed.

Lemma drops_parseVariableDeclaration :
  drops true (parseVariableDeclaration self) warning_for.
Proof.
  unfold parseVariableDeclaration.
  apply drops_bind; [apply agrees_consume_before|]. intros kind.
  apply drops_bind; [agree|]. intros identifier.
  assert (Htail : forall init,
            drops false
              (optional_semicolon
                 (utf16 "Missing semicolon after variable declaration for '"
                    ++ value identifier ++ utf16 "'") ;;
               ret (VariableDeclaration (value kind) (value identifier) init)) warning_for).
  { intros init.
    apply (drops_bind_ret _
             (fun _ => VariableDeclaration (value kind) (value identifier) init)
             (fun _ => [utf16 "Missing semicolon after variable declaration for '"
                          ++ value identifier ++ utf16 "'"]));
      [apply drops_optional_semicolon|reflexivity]. }
  eapply drops_check;
    [is_a_check|lazy; reflexivity|right; exact next_not_assign| |];
    cbv beta iota delta [negb].
  - apply drops_bind; [agree|]. exact Htail.
  - apply drops_bind; [agree|]. exact Htail.
Qed.

Lemma drops_parseReturnStatement (lt : bool) :
  drops lt (parseReturnStatement self) warning_for.
Proof.
  unfold parseReturnStatement.
  assert (Hrest : forall lt',
            lt' = true \/ is_closing_brace next = true ->
            drops lt'
              (stop <- orM (match_tv PUNCTUATION ";") (match_tv BRACKET "}") ;;
               argument <- (if negb stop
                            then e <- p_Expression self ;; ret (Some e)
                            else ret None) ;;
               semi <- match_tv PUNCTUATION ";" ;;
               (if semi then consume_any ;; ret tt
                else close <- match_tv BRACKET "}" ;;
                     when (negb close)
                       (addWarning (utf16 "Missing semicolon after return statement"))) ;;
               ret (ReturnStatement argument)) warning_for).
  { intros lt' Hside.
    eapply drops_check; [is_a_check|lazy; reflexivity| | |];
      cbv beta iota delta [negb].
    - destruct Hside as [->|Hb]; [left; reflexivity|right].
      unfold is_closing_brace in Hb. rewrite Hb. apply orb_true_r.
    - apply drops_bind; [agree|]. intros argument. apply drops_return_tail.
    - apply drops_bind; [agree|]. intros argument. apply drops_return_tail. }
  destruct (is_closing_brace next) eqn:Eb.
  - apply drops_bind; [agree|]. intros _. apply Hrest. right. reflexivity.
  - cbn in Hreturn. rewrite orb_false_r in Hreturn. apply negb_true_iff in Hreturn.
    apply drops_consume_not_last.
    + reflexivity.
    + intros tok Hn. unfold ends_with_return in Hreturn.
      fold at_semicolon in Hreturn. rewrite Hn in Hreturn. exact Hreturn.
    + intros _. apply Hrest. left. reflexivity.
Qed.

(** [parseStatement] at a token [first] before the semicolon. *)
Variable first : Token.
Hypothesis Hfirst : starts_plain_statement first = true.

Definition drops_from {A} (m : M A) (V : A -> list jsstring) : Prop :=
  forall st1 st2 a st1',
    twin st1 st2 -> nth_error before (currentToken st1) = Some first ->
    m st1 = (Ret a, st1') -> currentToken st1' = S at_semicolon ->
    exists st2', m st2 = (Ret a, st2')
      /\ currentToken st2' = at_semicolon
      /\ errors st2' = errors st1'
      /\ warnings st2' = warnings st1' ++ V a.

Lemma nth_error_before (st : SaaamCompiler) :
  nth_error before (currentToken st) = Some first ->
  currentToken st < at_semicolon.
Proof. intros H. apply nth_error_Some. congruence. Qed.

Lemma drops_from_any {A} (m : M A) (V : A -> list jsstring) :
  drops true m V -> drops_from m V.
Proof.
  intros Hm st1 st2 a st1' Htw Hn. apply Hm; [exact Htw|].
  intros _. exact (nth_error_before _ Hn).
Qed.

Lemma drops_from_check {A} (c : M bool) (f : Token -> bool) (k : bool -> M A)
  (V : A -> list jsstring) :
  is_check c f -> drops_from (k (f first)) V -> drops_from (bind c k) V.
Proof.
  intros Hc Hk st1 st2 a st1' Htw Hn.
  pose proof Htw as (T1 & T2 & Tc & Tj & Trest).
  pose proof (nth_error_before _ Hn) as Hlt.
  assert (P1 : peek st1 = (Ret first, st1)).
  { rewrite (peek_before st1 _ T1 Hlt), Hn. reflexivity. }
  assert (P2 : peek st2 = (Ret first, st2)).
  { rewrite (peek_before st2 _ T2) by lia. rewrite Tc, Hn. reflexivity. }
  rewrite (check_at _ _ _ _ _ Hc P1), (check_at _ _ _ _ _ Hc P2).
  apply Hk; assumption.
Qed.

Hypothesis HVariableDeclaration :
  drops true (p_VariableDeclaration self) warning_for.
Hypothesis HReturnStatement :
  drops true (p_ReturnStatement self) warning_for.
Hypothesis HBreakStatement :
  drops true (p_BreakStatement self) warning_for.
Hypothesis HContinueStatement :
  drops true (p_ContinueStatement self) warning_for.

Lemma drops_parseStatement : drops_from (parseStatement self) warning_for.
Proof.
  unfold starts_plain_statement, is_semicolon in Hfirst.
  apply andb_true_iff in Hfirst as [Hf Hsemi].
  apply andb_true_iff in Hf as [Hkw Hbrace].
  apply negb_true_iff in Hsemi, Hbrace, Hkw. cbn [existsb] in Hkw.
  repeat (apply orb_false_iff in Hkw; destruct Hkw as [? Hkw]).
  unfold parseStatement.
  eapply drops_from_check; [is_a_check|]. cbv beta.
  destruct (existsb _ _); [apply drops_from_any; assumption|].
  repeat (eapply drops_from_check; [is_a_check|]; cbv beta;
          match goal with
          | H : accepts first ?ty ?val = false
            |- drops_from (if accepts first ?ty ?val then _ else _) _ => rewrite H
          | |- drops_from (if ?b then _ else _) _ =>
              destruct b; [apply drops_from_any; assumption|]
          end).
  apply drops_from_any.
  apply drops_bind; [agree|]. intros expr.
  apply (drops_bind_ret _ (fun _ => ExpressionStatement expr)
           (fun _ => [utf16 "Missing semicolon after expression"]));
    [apply drops_optional_semicolon|reflexivity].
Qed.

End Statements.

Lemma drops_out_of_fuel {A} (V : A -> list jsstring) (lt : bool) :
  drops lt (@out_of_fuel A) V.
Proof. apply drops_of_agrees. apply agrees_out_of_fuel. Qed.

Lemma drops_statement (first : Token) (n : nat) :
  starts_plain_statement first = true ->
  drops_from first (p_Statement (parser n)) warning_for.
Proof.
  intros Hfirst. destruct n as [|n]; cbn [parser methods p_Statement].
  - apply drops_from_any. apply drops_out_of_fuel.
  - apply drops_parseStatement; try assumption.
    + apply framed_parser.
    + destruct n as [|n]; [apply drops_out_of_fuel|].
      apply drops_parseVariableDeclaration. apply framed_parser.
    + destruct n as [|n]; [apply drops_out_of_fuel|].
      apply drops_parseReturnStatement. apply framed_parser.
    + destruct n as [|n]; [apply drops_out_of_fuel|].
      apply drops_parseBreakStatement.
    + destruct n as [|n]; [apply drops_out_of_fuel|].
      apply drops_parseContinueStatement.
Qed.

End Semicolon.

(** C7.  An optional semicolon can be dropped, where the parser would not go
    on with the statement: let the tokens [before] be followed by a semicolon
    and the token [next], and let [parseStatement], started at a token
    [first] of [before] at which it reads a declaration, a [return], a
    [break], a [continue] or an expression, return a node and stop right
    behind the semicolon.  If [next] is no semicolon, none of the operators
    at which an expression goes on, and none of [(], [.] and [[], and if
    [next] is a closing brace in case the semicolon follows the keyword
    [return], then on the tokens without the semicolon [parseStatement]
    returns the same node and stops at [next]; it records no error, and the
    one warning of the missing semicolon -- none for a [return] before a
    closing brace. *)
Theorem optional_semicolon_can_be_dropped
  (before : list Token) (p : nat) (next : Token) (rest : list Token)
  (first : Token) (n start : nat) (tree : option ASTNode)
  (errs warns : list jsstring) (node : ASTNode) (st1' : SaaamCompiler) :
  ends_statement next = true ->
  negb (ends_with_return before) || is_closing_brace next = true ->
  nth_error before start = Some first ->
  starts_plain_statement first = true ->
  p_Statement (parser n)
    (mkCompiler (before ++ semicolon p :: next :: rest) tree start errs warns)
  = (Ret node, st1') ->
  currentToken st1' = S (length before) ->
  exists st2',
    p_Statement (parser n)
      (mkCompiler (before ++ next :: rest) tree start errs warns)
    = (Ret node, st2')
    /\ currentToken st2' = length before
    /\ errors st2' = errors st1'
    /\ warnings st2' = warnings st1' ++ missing_semicolon_warning node next.
Proof.
  intros Hnext Hreturn Hstart Hfirst Hrun Hend.
  refine (drops_statement before next rest p Hnext Hreturn first n Hfirst
            (mkCompiler (before ++ semicolon p :: next :: rest) tree start errs warns)
            (mkCompiler (before ++ next :: rest) tree start errs warns)
            node st1' _ Hstart Hrun Hend).
  assert (Hlt : start < length before) by (apply nth_error_Some; congruence).
  unfold twin, with_semicolon, without_semicolon, at_semicolon.
  cbn [tokens currentToken errors warnings ast].
  repeat split; try reflexivity. apply Nat.lt_le_incl. exact Hlt.
Qed.

(** [x = 1; y] and [x = 1 y], from the first token. *)
Lemma optional_semicolon_can_be_dropped_witness :
  exists st2',
    p_Statement (parser 20)
      (mkCompiler
         ([mkToken IDENTIFIER (utf16 "x") 0; mkToken OPERATOR (utf16 "=") 2;
           mkToken NUMBER (utf16 "1") 4]
          ++ [mkToken IDENTIFIER (utf16 "y") 7; mkToken EOF [] 8])
         None 0 [] [])
    = (Ret (ExpressionStatement
              (AssignmentExpression (utf16 "=")
                 (Identifier (utf16 "x") (Some false))
                 (Literal (LNumber (utf16 "1")) None))), st2')
    /\ currentToken st2' = 3
    /\ errors st2' = []
    /\ warnings st2' = [utf16 "Missing semicolon after expression"].
Proof.
  refine (optional_semicolon_can_be_dropped
            [mkToken IDENTIFIER (utf16 "x") 0; mkToken OPERATOR (utf16 "=") 2;
             mkToken NUMBER (utf16 "1") 4]
            5 (mkToken IDENTIFIER (utf16 "y") 7) [mkToken EOF [] 8]
            (mkToken IDENTIFIER (utf16 "x") 0) 20 0 None [] []
            (ExpressionStatement
               (AssignmentExpression (utf16 "=")
                  (Identifier (utf16 "x") (Some false))
                  (Literal (LNumber (utf16 "1")) None)))
            (mkCompiler
               [mkToken IDENTIFIER (utf16 "x") 0; mkToken OPERATOR (utf16 "=") 2;
                mkToken NUMBER (utf16 "1") 4; mkToken PUNCTUATION (utf16 ";") 5;
                mkToken IDENTIFIER (utf16 "y") 7; mkToken EOF [] 8]
               None 4 [] [])
            _ _ _ _ _ _); vm_compute; reflexivity.
Defined.

(** C7, as stated, fails.  Without the semicolon [x = a; (b);] is one
    statement, a call of [a]; [x = 1; [a, b];] is an index expression that
    does not parse, which the parser reports as an error; [return; x;]
    returns [x]; and before a closing brace [return] gives no diagnostic for
    its missing semicolon. *)
Lemma missing_semicolon_changes_the_tree :
  exists r1 r2 r3 r4 r5 r6 r7,
    compiled lexeme_text 40 (utf16 "x = a; (b);") = Ret r1
    /\ result_ast r1
       = Some (Program
                 [ExpressionStatement
                    (AssignmentExpression (utf16 "=")
                       (Identifier (utf16 "x") (Some false))
                       (Identifier (utf16 "a") (Some false)));
                  ExpressionStatement (Identifier (utf16 "b") (Some false))])
    /\ compiled lexeme_text 40 (utf16 "x = a (b);") = Ret r2
    /\ result_ast r2
       = Some (Program
                 [ExpressionStatement
                    (AssignmentExpression (utf16 "=")
                       (Identifier (utf16 "x") (Some false))
                       (CallExpression (Identifier (utf16 "a") (Some false))
                          [Identifier (utf16 "b") (Some false)]))])
    /\ result_warnings r2 = result_warnings r1
    /\ compiled lexeme_text 40 (utf16 "x = 1; [a, b];") = Ret r3
    /\ success r3 = true
    /\ compiled lexeme_text 40 (utf16 "x = 1 [a, b];") = Ret r4
    /\ success r4 = false
    /\ result_errors r4
       = [utf16 "Expected token of type BRACKET, but got PUNCTUATION";
          utf16 "Parse error: Expected token of type BRACKET, but got PUNCTUATION"]
    /\ result_warnings r4 = []
    /\ compiled lexeme_text 40 (utf16 "return; x;") = Ret r5
    /\ result_ast r5
       = Some (Program
                 [ReturnStatement None;
                  ExpressionStatement (Identifier (utf16 "x") (Some false))])
    /\ compiled lexeme_text 40 (utf16 "return x;") = Ret r6
    /\ result_ast r6
       = Some (Program
                 [ReturnStatement (Some (Identifier (utf16 "x") (Some false)))])
    /\ compiled lexeme_text 40 (utf16 "function f() { return }") = Ret r7
    /\ success r7 = true
    /\ result_warnings r7 = [].
Proof.
  do 7 eexists.
  split; [vm_compute; reflexivity|]. split; [reflexivity|].
  split; [vm_compute; reflexivity|]. split; [reflexivity|].
  split; [reflexivity|].
  split; [vm_compute; reflexivity|]. split; [reflexivity|].
  split; [vm_compute; reflexivity|]. split; [reflexivity|].
  split; [reflexivity|]. split; [reflexivity|].
  split; [vm_compute; reflexivity|]. split; [reflexivity|].
  split; [vm_compute; reflexivity|]. split; [reflexivity|].
  split; [vm_compute; reflexivity|]. split; reflexivity.
Qed.

(** * Further properties *)

(** ** The lexer: what the tokens hold *)

(** The pattern of the entry is not an alternation at its top level, so that
    the caret that [tokenize] puts in front anchors all of it. *)
Definition anchored_entry (t : TokenType) : bool :=
  match tt_regex t with
  | Alt _ _ => false
  | _ => true
  end.

(** The token types whose entries are anchored: all but [STRING],
    [OPERATOR] and [COMMENT]. *)
Definition anchored (k : token_kind) : bool :=
  forallb (fun t => negb (kind_eqb (tt_type t) k) || anchored_entry t) tokenTypes.

(** [code.slice(offset, offset + length)] *)
Definition slice (code : jsstring) (offset length : nat) : jsstring :=
  firstn length (skipn offset code).

Lemma firstn_is_slice (n : nat) (l : jsstring) :
  length (firstn n l) <= length l
  /\ firstn n l = slice l 0 (length (firstn n l)).
Proof.
  unfold slice. cbn [skipn]. rewrite length_firstn. split; [apply Nat.le_min_r|].
  destruct (Nat.le_ge_cases n (length l)) as [H|H].
  - rewrite Nat.min_l by exact H. reflexivity.
  - rewrite Nat.min_r by exact H.
    rewrite !firstn_all2; [reflexivity|apply le_n|exact H].
Qed.

Lemma exec_from_slice (multiline : bool) (r : regex) :
  forall s prev v,
    exec_from multiline r prev s = Some v ->
    exists j, j + length v <= length s /\ v = slice s j (length v).
Proof.
  induction s as [|c s IH]; intros prev v H; cbn [exec_from] in H.
  - destruct (rmatch multiline r prev [] _) as [s'|] eqn:E; [|discriminate].
    injection H as <-. exists 0. split; reflexivity.
  - destruct (rmatch multiline r prev (c :: s) _) as [s'|] eqn:E.
    + injection H as <-. exists 0. apply firstn_is_slice.
    + destruct (IH _ _ H) as (j & Hj & Hv). exists (S j). cbn [length skipn].
      unfold slice in *. cbn [skipn]. split; [lia|exact Hv].
Qed.

Lemma exec_from_after_start (r : regex) :
  forall s c, exec_from false (Seq Bol r) (Some c) s = None.
Proof.
  induction s as [|x s IH]; intros c; cbn [exec_from rmatch andb].
  - reflexivity.
  - apply IH.
Qed.

Lemma exec_from_anchored (r : regex) (s v : jsstring) :
  exec_from false (Seq Bol r) None s = Some v -> v = slice s 0 (length v).
Proof.
  intros H. destruct s as [|c s]; cbn [exec_from] in H.
  - destruct (rmatch false (Seq Bol r) None [] _); [|discriminate].
    injection H as <-. reflexivity.
  - destruct (rmatch false (Seq Bol r) None (c :: s) _) as [s'|] eqn:E.
    + injection H as <-. apply firstn_is_slice.
    + rewrite exec_from_after_start in H. discriminate.
Qed.

(** What [first_match] finds is text of [remaining]; it stands at the start
    of [remaining] when the entry is anchored. *)
Lemma first_match_slice (remaining v : jsstring) (tokenType : TokenType) :
  first_match tokenTypes remaining = Some (v, tokenType) ->
  In tokenType tokenTypes
  /\ 1 <= length v
  /\ exists j, j + length v <= length remaining
               /\ v = slice remaining j (length v)
               /\ (anchored (tt_type tokenType) = true -> j = 0).
Proof.
  intros H.
  destruct (first_match_length _ _ _ _ tokenTypes_consuming H) as [[Hv _] Hin].
  split; [exact Hin|]. split; [exact Hv|].
  assert (G : forall table,
            first_match table remaining = Some (v, tokenType) ->
            exists j, j + length v <= length remaining
                      /\ v = slice remaining j (length v)
                      /\ (anchored_entry tokenType = true
                          -> tt_multiline tokenType = false -> j = 0)).
  { induction table as [|t table IH]; cbn [first_match]; [discriminate|].
    unfold str_match.
    destruct (exec_from _ _ None remaining) as [m|] eqn:E; [|exact IH].
    intros [= -> ->].
    destruct (anchored_entry tokenType) eqn:Ea;
      destruct (tt_multiline tokenType) eqn:Em.
    - destruct (exec_from_slice _ _ _ _ _ E) as (j & Hj & Hs).
      exists j. repeat split; try assumption. discriminate.
    - exists 0. unfold anchored_entry in Ea.
      assert (Ec : caret_source (tt_regex tokenType) = Seq Bol (tt_regex tokenType))
        by (destruct (tt_regex tokenType); try reflexivity; discriminate).
      rewrite Ec in E. pose proof (exec_from_anchored _ _ _ E) as Hs.
      split; [|split; [exact Hs|reflexivity]].
      pose proof (f_equal (@length code_unit) Hs) as Hl.
      unfold slice in Hl. cbn [skipn] in Hl. rewrite length_firstn in Hl. lia.
    - destruct (exec_from_slice _ _ _ _ _ E) as (j & Hj & Hs).
      exists j. repeat split; try assumption. discriminate.
    - destruct (exec_from_slice _ _ _ _ _ E) as (j & Hj & Hs).
      exists j. repeat split; try assumption. discriminate. }
  destruct (G _ H) as (j & Hj & Hs & Hz).
  exists j. split; [exact Hj|]. split; [exact Hs|]. intros Ha. apply Hz.
  - revert Ha Hin. clear. unfold anchored. rewrite forallb_forall. intros Ha Hin.
    specialize (Ha _ Hin).
    assert (Hk : kind_eqb (tt_type tokenType) (tt_type tokenType) = true)
      by (destruct (tt_type tokenType); reflexivity).
    rewrite Hk in Ha. exact Ha.
  - revert Ha Hin. clear. cbn [tokenTypes In]. intros Ha Hin.
    repeat (destruct Hin as [<-|Hin]; [first [reflexivity|discriminate]|]).
    contradiction.
Qed.

(** The loop of [tokenize] keeps [remaining] equal to the source from [pos]
    on; a property of the tokens and one of the errors are kept if every
    step keeps them. *)
Lemma tokenize_loop_keeps (code : jsstring) (P : Token -> Prop)
  (Q : jsstring -> Prop) :
  (forall pos v tokenType,
     pos <= length code ->
     first_match tokenTypes (skipn pos code) = Some (v, tokenType) ->
     tt_ignore tokenType = false ->
     P (mkToken (tt_type tokenType) v pos)) ->
  (forall pos c,
     nth_error code pos = Some c ->
     first_match tokenTypes (skipn pos code) = None ->
     Q (unexpected_character pos c)) ->
  forall fuel pos tokens errors tokens' errors',
    pos <= length code ->
    tokenize_loop fuel (skipn pos code) pos tokens errors
      = Some (tokens', errors') ->
    exists new_tokens new_errors,
      tokens' = tokens ++ new_tokens /\ errors' = errors ++ new_errors
      /\ Forall P new_tokens /\ Forall Q new_errors.
Proof.
  intros HP HQ. induction fuel as [|fuel IH];
    intros pos tokens errors tokens' errors' Hpos H.
  - destruct (skipn pos code) eqn:Er; cbn [tokenize_loop] in H; [|discriminate].
    injection H as <- <-. exists [], []. rewrite !app_nil_r. auto.
  - destruct (skipn pos code) as [|c rest] eqn:Er; cbn [tokenize_loop] in H.
    { injection H as <- <-. exists [], []. rewrite !app_nil_r. auto. }
    assert (Hlen : length (skipn pos code) = length code - pos) by apply length_skipn.
    rewrite Er in Hlen. cbn [length] in Hlen.
    destruct (first_match tokenTypes (c :: rest)) as [[v tokenType]|] eqn:E.
    + destruct (first_match_length _ _ _ _ tokenTypes_consuming E) as [[Hv1 Hv2] _].
      cbn [length] in Hv2.
      rewrite <- Er, skipn_skipn, Nat.add_comm in H.
      apply IH in H; [|lia].
      destruct H as (nt & ne & -> & -> & Hnt & Hne).
      destruct (tt_ignore tokenType) eqn:Ei.
      * exists nt, ne. auto.
      * exists (mkToken (tt_type tokenType) v pos :: nt), ne.
        rewrite <- app_assoc. cbn [app]. repeat split; try assumption.
        constructor; [|exact Hnt]. apply HP; [lia| |exact Ei].
        rewrite Er. exact E.
    + change (skipn 1 (c :: rest)) with rest in H.
      assert (Hrest : rest = skipn (pos + 1) code).
      { rewrite Nat.add_comm, <- skipn_skipn, Er. reflexivity. }
      rewrite Hrest in H. apply IH in H; [|lia].
      destruct H as (nt & ne & -> & -> & Hnt & Hne).
      exists nt, (unexpected_character pos c :: ne).
      rewrite <- app_assoc. cbn [app]. repeat split; try assumption.
      constructor; [|exact Hne]. apply HQ.
      * rewrite <- (Nat.add_0_r pos), <- nth_error_skipn, Er. reflexivity.
      * rewrite Er. exact E.
Qed.

Lemma tokenize_runs (code : jsstring) (errs : list jsstring) :
  exists toks errs',
    tokenize_loop (length code) code 0 [] errs = Some (toks, errs').
Proof.
  destruct (tokenize_loop_spec (length code) code 0 [] errs (le_n _))
    as (toks & errs' & Hrun & _).
  exists ([] ++ toks), (errs ++ errs'). exact Hrun.
Qed.

(** X1.  Every token but the final [EOF] holds text of the source: its value
    is not empty and is the slice of the source at some offset, which is not
    before the token's position.  For a token of an anchored type (all but
    [STRING] and [OPERATOR]) the offset is the token's position. *)
Theorem token_values_are_slices_of_the_source (code : jsstring)
  (errs : list jsstring) :
  exists toks errs',
    tokenize_fuel (length code) code errs = Some (toks ++ [eof_token code], errs')
    /\ Forall (fun t =>
                 1 <= length (value t)
                 /\ exists offset,
                      position t <= offset
                      /\ offset + length (value t) <= length code
                      /\ value t = slice code offset (length (value t))
                      /\ (anchored (type t) = true -> offset = position t))
         toks.
Proof.
  destruct (tokenize_runs code errs) as (toks & errs' & Hrun).
  exists toks, errs'. unfold tokenize_fuel. rewrite Hrun. split; [reflexivity|].
  change code with (skipn 0 code) in Hrun at 2.
  eapply tokenize_loop_keeps with (Q := fun _ => True) in Hrun;
    [|clear Hrun|auto|apply Nat.le_0_l].
  - destruct Hrun as (nt & ne & -> & _ & Hnt & _). exact Hnt.
  - intros pos v tokenType Hpos Hm _. cbn [value position type].
    destruct (first_match_slice _ _ _ Hm) as (_ & Hv & j & Hj & Hs & Hz).
    split; [exact Hv|]. exists (pos + j).
    rewrite length_skipn in Hj. unfold slice in *.
    rewrite skipn_skipn in Hs.
    split; [lia|]. split; [lia|]. split; [rewrite Nat.add_comm; exact Hs|].
    intros Ha. rewrite (Hz Ha). lia.
Qed.

(** X2.  White space and comments are left out: no token of the result has
    the type [WHITESPACE] or [COMMENT]. *)
Theorem no_whitespace_or_comment_tokens (code : jsstring)
  (errs : list jsstring) :
  exists toks errs',
    tokenize_fuel (length code) code errs = Some (toks, errs')
    /\ Forall (fun t => type t <> WHITESPACE /\ type t <> COMMENT) toks.
Proof.
  destruct (tokenize_runs code errs) as (toks & errs' & Hrun).
  exists (toks ++ [eof_token code]), errs'. unfold tokenize_fuel. rewrite Hrun.
  split; [reflexivity|].
  apply Forall_app. split; [|repeat constructor; discriminate].
  change code with (skipn 0 code) in Hrun at 2.
  eapply tokenize_loop_keeps with (Q := fun _ => True) in Hrun;
    [|clear Hrun|auto|apply Nat.le_0_l].
  - destruct Hrun as (nt & ne & -> & _ & Hnt & _). exact Hnt.
  - intros pos v tokenType _ Hm Hi. cbn [type].
    destruct (first_match_slice _ _ _ Hm) as (Hin & _).
    revert Hi. cbn [tokenTypes In] in Hin.
    repeat (destruct Hin as [<-|Hin];
            [cbn [tt_ignore tt_type]; intros Hi;
             first [discriminate Hi|split; discriminate]|]).
    contradiction.
Qed.

(** The offset at which the loop of [tokenize] starts its next iteration,
    from the offset [pos] of this one: after the text that was found, or
    after the code unit that was skipped. *)
Definition next_offset (code : jsstring) (pos : nat) : nat :=
  match first_match tokenTypes (skipn pos code) with
  | Some (tokenValue, _) => pos + length tokenValue
  | None => pos + 1
  end.

(** The offsets at which the loop starts an iteration, from [start] on:
    [start], and the ones that follow while text is left. *)
Inductive lexer_reaches (code : jsstring) : nat -> nat -> Prop :=
| reaches_here (start : nat) : lexer_reaches code start start
| reaches_next (start pos : nat) :
    start < length code ->
    lexer_reaches code (next_offset code start) pos ->
    lexer_reaches code start pos.

Lemma next_offset_grows (code : jsstring) (pos : nat) :
  pos < next_offset code pos.
Proof.
  unfold next_offset.
  destruct (first_match tokenTypes (skipn pos code)) as [[v t]|] eqn:E; [|lia].
  destruct (first_match_length _ _ _ _ tokenTypes_consuming E) as [[Hv _] _]. lia.
Qed.

Lemma lexer_reaches_grows (code : jsstring) (start pos : nat) :
  lexer_reaches code start pos -> start <= pos.
Proof.
  induction 1 as [|start pos _ _ IH]; [apply le_n|].
  pose proof (next_offset_grows code start). lia.
Qed.

(** The loop of [tokenize] from the offset [pos] on: the errors it adds are
    the messages for the offsets it reaches at which nothing matches, in the
    order of the offsets. *)
Lemma tokenize_loop_errors (code : jsstring) :
  forall fuel pos tokens errors tokens' errors',
    pos <= length code ->
    tokenize_loop fuel (skipn pos code) pos tokens errors
      = Some (tokens', errors') ->
    exists offsets,
      errors' = errors
                  ++ map (fun p => unexpected_character p (nth p code 0%N)) offsets
      /\ StronglySorted lt offsets
      /\ forall p, In p offsets <->
                   lexer_reaches code pos p /\ p < length code
                   /\ first_match tokenTypes (skipn p code) = None.
Proof.
  induction fuel as [|fuel IH]; intros pos tokens errors tokens' errors' Hpos H.
  - destruct (skipn pos code) eqn:Er; cbn [tokenize_loop] in H; [|discriminate].
    injection H as <- <-. exists []. cbn [map]. rewrite app_nil_r.
    split; [reflexivity|]. split; [constructor|].
    assert (Hl : length code <= pos).
    { apply (f_equal (@length _)) in Er. rewrite length_skipn in Er.
      cbn [length] in Er. lia. }
    intros p. split; [intros []|]. intros (Hr & Hp & _).
    apply lexer_reaches_grows in Hr. lia.
  - destruct (skipn pos code) as [|c rest] eqn:Er.
    { cbn [tokenize_loop] in H. injection H as <- <-. exists []. cbn [map].
      rewrite app_nil_r. split; [reflexivity|]. split; [constructor|].
      assert (Hl : length code <= pos).
      { apply (f_equal (@length _)) in Er. rewrite length_skipn in Er.
        cbn [length] in Er. lia. }
      intros p. split; [intros []|]. intros (Hr & Hp & _).
      apply lexer_reaches_grows in Hr. lia. }
    assert (Hlen : length (skipn pos code) = length code - pos) by apply length_skipn.
    rewrite Er in Hlen. cbn [length] in Hlen.
    assert (Hc : nth pos code 0%N = c).
    { apply nth_error_nth.
      rewrite <- (Nat.add_0_r pos), <- nth_error_skipn, Er. reflexivity. }
    pose proof (next_offset_grows code pos) as Hg.
    assert (Hstep : forall p, lexer_reaches code pos p <->
                              p = pos \/ lexer_reaches code (next_offset code pos) p).
    { intros p. split.
      - intros Hr. inversion Hr; subst; [left; reflexivity|right; assumption].
      - intros [->|Hr]; [constructor|]. apply reaches_next; [lia|exact Hr]. }
    cbn [tokenize_loop] in H. unfold next_offset in Hg, Hstep. rewrite Er in Hg, Hstep.
    destruct (first_match tokenTypes (c :: rest)) as [[v tokenType]|] eqn:E.
    + destruct (first_match_length _ _ _ _ tokenTypes_consuming E) as [[Hv1 Hv2] _].
      cbn [length] in Hv2.
      rewrite <- Er, skipn_skipn, Nat.add_comm in H.
      apply IH in H; [|lia].
      destruct H as (offsets & -> & Hs & Hin). exists offsets.
      split; [reflexivity|]. split; [exact Hs|].
      intros p. rewrite Hin, Hstep. split.
      * intros (Hr & Hp & Hm). auto.
      * intros ([->|Hr] & Hp & Hm); [|auto].
        rewrite Er, E in Hm. discriminate.
    + change (skipn 1 (c :: rest)) with rest in H.
      assert (Hrest : rest = skipn (pos + 1) code).
      { rewrite Nat.add_comm, <- skipn_skipn, Er. reflexivity. }
      rewrite Hrest in H. apply IH in H; [|lia].
      destruct H as (offsets & -> & Hs & Hin). exists (pos :: offsets).
      cbn [map]. rewrite Hc, <- app_assoc. cbn [app].
      split; [reflexivity|]. split.
      * constructor; [exact Hs|]. apply Forall_forall. intros p Hp.
        apply Hin in Hp. destruct Hp as (Hr & _).
        apply lexer_reaches_grows in Hr. lia.
      * intros p. cbn [In]. rewrite Hin, Hstep. split.
        -- intros [<-|(Hr & Hp & Hm)]; [|auto].
           split; [left; reflexivity|]. split; [lia|]. rewrite Er. exact E.
        -- intros ([->|Hr] & Hp & Hm); [left; reflexivity|right; auto].
Qed.

(** X3.  The lexer records one error for each code unit that it skips, in
    the order of the source, and drops none.  The errors after [tokenize]
    are those before, followed by the messages for the offsets, in
    increasing order, at which the loop started an iteration and no entry of
    the table matched in the rest of the source: each such offset has its
    message, once, naming the offset and the code unit there, and there is
    no other message. *)
Theorem lexical_errors_name_the_skipped_code_units (code : jsstring)
  (errs : list jsstring) :
  exists toks offsets,
    tokenize_fuel (length code) code errs
    = Some (toks,
            errs ++ map (fun pos => unexpected_character pos (nth pos code 0%N))
                      offsets)
    /\ StronglySorted lt offsets
    /\ forall pos,
         In pos offsets <->
         lexer_reaches code 0 pos /\ pos < length code
         /\ first_match tokenTypes (skipn pos code) = None.
Proof.
  destruct (tokenize_runs code errs) as (toks & errs' & Hrun).
  pose proof Hrun as Hk.
  change code with (skipn 0 code) in Hk at 2.
  apply tokenize_loop_errors in Hk; [|apply Nat.le_0_l].
  destruct Hk as (offsets & -> & Hs & Hin).
  exists (toks ++ [eof_token code]), offsets. unfold tokenize_fuel. rewrite Hrun.
  auto.
Qed.

(** In [a # b ~] the loop stops at the offsets 0, 1, 2, 3, 4, 5 and 6, and
    nothing matches at 2 and at 6. *)
Example lexical_errors_of_two_skipped_code_units :
  tokenize_fuel 7 (utf16 "a # b ~") []
  = Some ([ mkToken IDENTIFIER (utf16 "a") 0; mkToken IDENTIFIER (utf16 "b") 4;
            mkToken EOF [] 7 ],
          [ utf16 "Unexpected character at position 2: '#'";
            utf16 "Unexpected character at position 6: '~'" ]).
Proof. vm_compute. reflexivity. Qed.

(** ** The lexer: reserved words *)

(** The words of the [KEYWORD] and of the [SAAAM_KEYWORD] pattern. *)
Definition keywords : list string :=
  ["var"; "const"; "let"; "function"; "if"; "else"; "for"; "while"; "do";
   "switch"; "case"; "break"; "continue"; "return"; "this"; "new"; "true";
   "false"; "null"; "undefined"]%string.

Definition saaam_keywords : list string :=
  ["vec2"; "vec3"; "yield"; "signal"; "state"; "create"; "step"; "draw";
   "on_collision"]%string.

(** The type of the token that a reserved word makes. *)
Definition reserved (w : string) : option token_kind :=
  if existsb (String.eqb w) keywords then Some KEYWORD
  else if existsb (String.eqb w) saaam_keywords then Some SAAAM_KEYWORD
  else None.

Lemma firstn_app_exact (a b : jsstring) :
  firstn (length (a ++ b) - length b) (a ++ b) = a.
Proof.
  rewrite length_app. replace (length a + length b - length b) with (length a) by lia.
  rewrite firstn_app, Nat.sub_diag, firstn_all. cbn [firstn]. apply app_nil_r.
Qed.

Lemma exec_from_here (multiline : bool) (r : regex) (w rest : jsstring) :
  rmatch multiline r None (w ++ rest) (fun _ s' => Some s') = Some rest ->
  exec_from multiline r None (w ++ rest) = Some w.
Proof.
  intros H. destruct (w ++ rest) as [|c s] eqn:E; cbn [exec_from]; rewrite H;
    rewrite <- E, firstn_app_exact; reflexivity.
Qed.

Lemma exec_from_not_here (r : regex) (s : jsstring) :
  rmatch false (Seq Bol r) None s (fun _ s' => Some s') = None ->
  exec_from false (Seq Bol r) None s = None.
Proof.
  intros H. destruct s as [|c s]; cbn [exec_from]; rewrite H; [reflexivity|].
  apply exec_from_after_start.
Qed.

Ltac lex_word Hrest :=
  first
    [ (* the [KEYWORD] entry matches *)
      cbn [tokenTypes first_match]; unfold str_match;
      cbn [tt_regex tt_multiline];
      rewrite exec_from_here;
      [ eexists; split; [reflexivity|split; reflexivity]
      | lazy -[word_after]; rewrite Hrest; reflexivity ]
    | (* it does not, and the [SAAAM_KEYWORD] entry matches *)
      cbn [tokenTypes first_match]; unfold str_match;
      cbn [tt_regex tt_multiline];
      rewrite (exec_from_not_here keyword_regex);
      [ rewrite exec_from_here;
        [ eexists; split; [reflexivity|split; reflexivity]
        | lazy -[word_after]; rewrite Hrest; reflexivity ]
      | lazy -[word_after]; rewrite ?Hrest; reflexivity ] ].

(** X4.  A reserved word is never an identifier.  Where the lexer stands
    at one of the words of the [KEYWORD] or the [SAAAM_KEYWORD] pattern, and
    no letter, digit or underscore follows the word, the token is the word
    with that type -- [create], [step], [draw] and [on_collision], the names
    of the lifecycle functions, among them. *)
Theorem reserved_words_are_keywords (w : string) (k : token_kind)
  (rest : jsstring) :
  reserved w = Some k ->
  word_after rest = false ->
  exists entry,
    first_match tokenTypes (utf16 w ++ rest) = Some (utf16 w, entry)
    /\ tt_type entry = k /\ tt_ignore entry = false.
Proof.
  unfold reserved, keywords, saaam_keywords. cbn [existsb]. intros Hw Hrest.
  repeat match type of Hw with
         | context [String.eqb w ?x] =>
             let E := fresh "E" in
             destruct (String.eqb w x) eqn:E;
             [ apply String.eqb_eq in E; subst w; cbn [orb] in Hw;
               injection Hw as <-; lex_word Hrest
             | cbn [orb] in Hw ]
         end.
  discriminate.
Qed.

(** [step(] *)
Lemma reserved_words_are_keywords_witness :
  exists entry,
    first_match tokenTypes (utf16 "step" ++ utf16 "(") = Some (utf16 "step", entry)
    /\ tt_type entry = SAAAM_KEYWORD /\ tt_ignore entry = false.
Proof.
  apply (reserved_words_are_keywords "step" SAAAM_KEYWORD (utf16 "("));
    reflexivity.
Defined.

(** ** The parser: what every method keeps *)

(** A property of all the methods of a parser.  [parseVariableDeclaration]
    is the one method that consumes its first token unseen, so that a caller
    must have looked at that token: the property may depend on this. *)
Record every_method (P : bool -> M ASTNode -> Prop) (self : parsers) : Prop := {
  em_VariableDeclaration : P true (p_VariableDeclaration self);
  em_FunctionDefinition : P false (p_FunctionDefinition self);
  em_Block : P false (p_Block self);
  em_Statement : P false (p_Statement self);
  em_IfStatement : P false (p_IfStatement self);
  em_ForLoop : P false (p_ForLoop self);
  em_WhileLoop : P false (p_WhileLoop self);
  em_DoWhileLoop : P false (p_DoWhileLoop self);
  em_SwitchStatement : P false (p_SwitchStatement self);
  em_ReturnStatement : P false (p_ReturnStatement self);
  em_BreakStatement : P false (p_BreakStatement self);
  em_ContinueStatement : P false (p_ContinueStatement self);
  em_Expression : P false (p_Expression self);
  em_Assignment : P false (p_Assignment self);
  em_LogicalOr : P false (p_LogicalOr self);
  em_LogicalAnd : P false (p_LogicalAnd self);
  em_Equality : P false (p_Equality self);
  em_Comparison : P false (p_Comparison self);
  em_Additive : P false (p_Additive self);
  em_Multiplicative : P false (p_Multiplicative self);
  em_Unary : P false (p_Unary self);
  em_CallOrMember : P false (p_CallOrMember self);
  em_CallExpression : forall callee, P false (p_CallExpression self callee);
  em_MemberExpression : forall object, P false (p_MemberExpression self object);
  em_IndexExpression : forall object, P false (p_IndexExpression self object);
  em_ObjectLiteral : P false (p_ObjectLiteral self);
  em_ArrayLiteral : P false (p_ArrayLiteral self);
  em_Primary : P false (p_Primary self)
}.

(** What holds of a method that has run out of fuel, and of the methods
    written against a parser of which it holds, holds of every parser. *)
Lemma every_method_parser (P : bool -> M ASTNode -> Prop) :
  (forall b, P b out_of_fuel) ->
  (forall self fuel, every_method P self -> every_method P (methods self fuel)) ->
  forall n, every_method P (parser n).
Proof.
  intros H0 HS. induction n as [|n IH]; cbn [parser].
  - constructor; intros; apply H0.
  - apply HS. exact IH.
Qed.

Ltac by_self :=
  match goal with
  | H : every_method _ ?self |- _ =>
      first [ exact (em_VariableDeclaration _ _ H)
            | exact (em_FunctionDefinition _ _ H) | exact (em_Block _ _ H)
            | exact (em_Statement _ _ H) | exact (em_IfStatement _ _ H)
            | exact (em_ForLoop _ _ H) | exact (em_WhileLoop _ _ H)
            | exact (em_DoWhileLoop _ _ H) | exact (em_SwitchStatement _ _ H)
            | exact (em_ReturnStatement _ _ H) | exact (em_BreakStatement _ _ H)
            | exact (em_ContinueStatement _ _ H) | exact (em_Expression _ _ H)
            | exact (em_Assignment _ _ H) | exact (em_LogicalOr _ _ H)
            | exact (em_LogicalAnd _ _ H) | exact (em_Equality _ _ H)
            | exact (em_Comparison _ _ H) | exact (em_Additive _ _ H)
            | exact (em_Multiplicative _ _ H) | exact (em_Unary _ _ H)
            | exact (em_CallOrMember _ _ H) | exact (em_CallExpression _ _ H _)
            | exact (em_MemberExpression _ _ H _)
            | exact (em_IndexExpression _ _ H _)
            | exact (em_ObjectLiteral _ _ H) | exact (em_ArrayLiteral _ _ H)
            | exact (em_Primary _ _ H) ]
  end.

Ltac a_check :=
  solve [ unfold match_tv, match_type, match_declaration;
          repeat first [ apply match_is_check | apply not_eof_is_check
                       | apply match_any_is_check
                       | eapply orM_is_check | eapply andM_is_check
                       | eapply notM_is_check ] ].

(** [l'] is [l] with more at its end. *)
Definition extends {A} (l l' : list A) : Prop := exists more, l' = l ++ more.

(** From [st] to [st'] the parser has gone forward: the tokens and the tree
    are the same, the current token is not an earlier one, and the errors
    and the warnings are those of [st] with more at their end. *)
Definition forward (st st' : SaaamCompiler) : Prop :=
  tokens st' = tokens st /\ ast st' = ast st
  /\ currentToken st <= currentToken st'
  /\ extends (errors st) (errors st')
  /\ extends (warnings st) (warnings st').

(** However it ends, a run of [m] goes forward. *)
Definition goes_forward {A} (m : M A) : Prop :=
  forall st o st', m st = (o, st') -> forward st st'.

Lemma extends_refl {A} (l : list A) : extends l l.
Proof. exists []. symmetry. apply app_nil_r. Qed.

Lemma extends_trans {A} (l1 l2 l3 : list A) :
  extends l1 l2 -> extends l2 l3 -> extends l1 l3.
Proof. intros [a ->] [b ->]. exists (a ++ b). symmetry. apply app_assoc. Qed.

Lemma forward_refl (st : SaaamCompiler) : forward st st.
Proof. repeat split; try apply extends_refl. apply le_n. Qed.

Lemma forward_trans (st1 st2 st3 : SaaamCompiler) :
  forward st1 st2 -> forward st2 st3 -> forward st1 st3.
Proof.
  intros (T1 & A1 & C1 & E1 & W1) (T2 & A2 & C2 & E2 & W2).
  split; [congruence|]. split; [congruence|]. split; [lia|].
  split; eapply extends_trans; eassumption.
Qed.

Lemma forward_ret {A} (a : A) : goes_forward (ret a).
Proof. intros st o st' [= _ <-]. apply forward_refl. Qed.

Lemma forward_throw {A} (message : jsstring) : goes_forward (@throw A message).
Proof. intros st o st' [= _ <-]. apply forward_refl. Qed.

Lemma forward_out_of_fuel {A} : goes_forward (@out_of_fuel A).
Proof. intros st o st' [= _ <-]. apply forward_refl. Qed.

Lemma forward_bind {A B} (m : M A) (k : A -> M B) :
  goes_forward m -> (forall a, goes_forward (k a)) -> goes_forward (bind m k).
Proof.
  intros Hm Hk st o st'. unfold bind.
  destruct (m st) as [[a|e|] s1] eqn:E; intros H.
  - exact (forward_trans _ _ _ (Hm _ _ _ E) (Hk a _ _ _ H)).
  - injection H as _ <-. exact (Hm _ _ _ E).
  - injection H as _ <-. exact (Hm _ _ _ E).
Qed.

Lemma forward_try_catch {A} (m : M A) (handler : jsstring -> M A) :
  goes_forward m -> (forall e, goes_forward (handler e)) ->
  goes_forward (try_catch m handler).
Proof.
  intros Hm Hh st o st'. unfold try_catch.
  destruct (m st) as [[a|e|] s1] eqn:E; intros H.
  - injection H as _ <-. exact (Hm _ _ _ E).
  - exact (forward_trans _ _ _ (Hm _ _ _ E) (Hh e _ _ _ H)).
  - injection H as _ <-. exact (Hm _ _ _ E).
Qed.

Lemma forward_loop {S} (fuel : nat) (body : S -> M (loop_ctl S)) :
  (forall s, goes_forward (body s)) -> forall s, goes_forward (loop fuel body s).
Proof.
  intros Hb. induction fuel as [|fuel IH]; intros s; cbn [loop].
  - apply forward_out_of_fuel.
  - apply forward_bind; [apply Hb|]. intros [s'|s']; [apply IH|apply forward_ret].
Qed.

Lemma forward_peek : goes_forward peek.
Proof.
  intros st o st' H. rewrite (peek_keeps_state _ _ _ H). apply forward_refl.
Qed.

Lemma forward_check (c : M bool) (f : Token -> bool) :
  is_check c f -> goes_forward c.
Proof.
  intros Hc st o st'. rewrite Hc.
  destruct (peek st) as [[tok|e|] s1] eqn:E; intros [= _ <-];
    exact (forward_peek _ _ _ E).
Qed.

Lemma forward_addError (message : jsstring) : goes_forward (addError message).
Proof.
  intros st o st' [= _ <-]. repeat split; try apply extends_refl; try apply le_n.
  exists [message]. reflexivity.
Qed.

Lemma forward_addWarning (message : jsstring) :
  goes_forward (addWarning message).
Proof.
  intros st o st' [= _ <-]. repeat split; try apply extends_refl; try apply le_n.
  exists [message]. reflexivity.
Qed.

Lemma forward_advance : goes_forward advance.
Proof.
  intros st o st' [= _ <-]. repeat split; try apply extends_refl. cbn. lia.
Qed.

Ltac forwards :=
  lazymatch goal with
  | |- goes_forward (ret _) => apply forward_ret
  | |- goes_forward (throw _) => apply forward_throw
  | |- goes_forward out_of_fuel => apply forward_out_of_fuel
  | |- goes_forward (addError _) => apply forward_addError
  | |- goes_forward (addWarning _) => apply forward_addWarning
  | |- goes_forward advance => apply forward_advance
  | |- goes_forward peek => apply forward_peek
  | |- goes_forward (when _ _) => unfold when; forwards
  | |- goes_forward (if ?b then _ else _) => destruct b; forwards
  | |- goes_forward (match ?x with _ => _ end) => destruct x; forwards
  | |- goes_forward (let (_, _) := ?x in _) => destruct x; forwards
  | |- goes_forward (loop _ _ _) => apply forward_loop; intros; forwards
  | |- goes_forward (while_ _ _ _ _) => unfold while_; forwards
  | |- goes_forward (try_catch _ _) =>
      apply forward_try_catch; [forwards | intros; forwards]
  | |- goes_forward (bind _ _) =>
      apply forward_bind; [forwards | intros; forwards]
  | |- goes_forward _ =>
      first [ by_self
            | eapply forward_check; a_check
            | progress unfold optional_semicolon, consume_any, consume_type,
                consume_tv, consume, binary_loop, case_consequent_loop,
                default_consequent_loop, switch_clause, check_builtin_call,
                object_property, skip_to_next_statement; forwards ]
  end.

Lemma forward_methods (self : parsers) (fuel : nat) :
  every_method (fun _ m => goes_forward m) self ->
  every_method (fun _ m => goes_forward m) (methods self fuel).
Proof.
  intros Hself. constructor; intros; cbv beta;
    cbn [methods p_VariableDeclaration p_FunctionDefinition p_Block p_Statement
           p_IfStatement p_ForLoop p_WhileLoop p_DoWhileLoop p_SwitchStatement
           p_ReturnStatement p_BreakStatement p_ContinueStatement p_Expression
           p_Assignment p_LogicalOr p_LogicalAnd p_Equality p_Comparison
           p_Additive p_Multiplicative p_Unary p_CallOrMember p_CallExpression
           p_MemberExpression p_IndexExpression p_ObjectLiteral p_ArrayLiteral
           p_Primary].
  - unfold parseVariableDeclaration. forwards.
  - unfold parseFunctionDefinition. forwards.
  - unfold parseBlock. forwards.
  - unfold parseStatement. forwards.
  - unfold parseIfStatement. forwards.
  - unfold parseForLoop. forwards.
  - unfold parseWhileLoop. forwards.
  - unfold parseDoWhileLoop. forwards.
  - unfold parseSwitchStatement. forwards.
  - unfold parseReturnStatement. forwards.
  - unfold parseBreakStatement. forwards.
  - unfold parseContinueStatement. forwards.
  - unfold parseExpression. forwards.
  - unfold parseAssignment. forwards.
  - unfold parseLogicalOr. forwards.
  - unfold parseLogicalAnd. forwards.
  - unfold parseEquality. forwards.
  - unfold parseComparison. forwards.
  - unfold parseAdditive. forwards.
  - unfold parseMultiplicative. forwards.
  - unfold parseUnary. forwards.
  - unfold parseCallOrMember. forwards.
  - unfold parseCallExpression. forwards.
  - unfold parseMemberExpression. forwards.
  - unfold parseIndexExpression. forwards.
  - unfold parseObjectLiteral. forwards.
  - unfold parseArrayLiteral. forwards.
  - unfold parsePrimary. forwards.
Qed.

Lemma forward_parser (n : nat) :
  every_method (fun _ m => goes_forward m) (parser n).
Proof.
  apply every_method_parser.
  - intros _. apply forward_out_of_fuel.
  - apply forward_methods.
Qed.

Lemma forward_parseProgram (n fuel : nat) :
  goes_forward (parseProgram (parser n) fuel).
Proof.
  pose proof (forward_parser n) as Hself. unfold parseProgram. forwards.
Qed.

Lemma parse_keeps (fuel : nat) (st : SaaamCompiler) :
  tokens (snd (parse fuel st)) = tokens st
  /\ extends (errors st) (errors (snd (parse fuel st)))
  /\ extends (warnings st) (warnings (snd (parse fuel st))).
Proof.
  unfold parse, bind, try_catch, set_currentToken, set_ast, addError, ret.
  set (st0 := mkCompiler (tokens st) (ast st) 0 (errors st) (warnings st)).
  destruct (parseProgram (parser fuel) fuel st0) as [[program|e|] s1] eqn:E;
    destruct (forward_parseProgram _ _ _ _ _ E) as (T & _ & _ & He & Hw);
    cbn [snd tokens errors warnings] in *; repeat split; try assumption.
  destruct He as [more ->]. exists (more ++ [utf16 "Parsing error: " ++ e]).
  symmetry. apply app_assoc.
Qed.

(** X5.  Parsing goes forward.  However a method of the parser ends -- with a
    node, with an exception or still running --, the tokens and the tree of
    the compiler are the same as before, the current token is not an earlier
    one, and the errors and the warnings are those from before with more at
    their end.  [parse()], which starts at the first token again, keeps the
    tokens and all errors and warnings recorded before. *)
Theorem parsing_goes_forward (fuel : nat) (st : SaaamCompiler) :
  every_method (fun _ m => goes_forward m) (parser fuel)
  /\ goes_forward (parseProgram (parser fuel) fuel)
  /\ tokens (snd (parse fuel st)) = tokens st
  /\ extends (errors st) (errors (snd (parse fuel st)))
  /\ extends (warnings st) (warnings (snd (parse fuel st))).
Proof.
  split; [apply forward_parser|]. split; [apply forward_parseProgram|].
  apply parse_keeps.
Qed.


(** ** The parser: binary operators *)

(** The nodes that a chain of operators and right operands makes of a left
    operand, the first operator innermost. *)
Definition left_nested (left : ASTNode) (chain : list (jsstring * ASTNode))
  : ASTNode :=
  fold_left (fun acc step => BinaryExpression (fst step) acc (snd step))
    chain left.

(** The operators and right operands that are read from the tokens, one
    after the other, from the state [st] to the state [st']: the current
    token is one of the [operators], the operand is read from the token
    after it, and the rest is read from where the operand ended; at the end
    the condition of the loop is false. *)
Inductive reads_chain (operators : list string) (operand : M ASTNode)
  (name : Token -> jsstring)
  : SaaamCompiler -> list (jsstring * ASTNode) -> SaaamCompiler -> Prop :=
| chain_ends (st : SaaamCompiler) :
    match_any OPERATOR operators st = (Ret false, st) ->
    reads_chain operators operand name st [] st
| chain_goes_on (st : SaaamCompiler) (operator : Token) (right : ASTNode)
    (after : SaaamCompiler) (chain : list (jsstring * ASTNode))
    (st' : SaaamCompiler) :
    nth_error (tokens st) (currentToken st) = Some operator ->
    existsb (fun v => accepts operator OPERATOR (Some (utf16 v))) operators
    = true ->
    operand (mkCompiler (tokens st) (ast st) (S (currentToken st)) (errors st)
               (warnings st))
    = (Ret right, after) ->
    reads_chain operators operand name after chain st' ->
    reads_chain operators operand name st ((name operator, right) :: chain) st'.

(** X6.  Binary operators of one level associate to the left.  The loop
    that the six binary levels share reads the operators and the right
    operands in the order of the tokens -- an operator at the current token,
    its right operand from the next token on, the following operator where
    that operand ended -- until the current token is none of the level's
    operators, and returns its left operand with them nested around it, the
    one read first innermost.  Each operator is recorded as [name] gives it
    from its token. *)
Theorem binary_operators_associate_to_the_left
  (operators : list string) (operand : M ASTNode) (name : Token -> jsstring)
  (fuel : nat) (left : ASTNode) (st : SaaamCompiler) (node : ASTNode)
  (st' : SaaamCompiler) :
  binary_loop fuel operators operand name left st = (Ret node, st') ->
  exists chain,
    reads_chain operators operand name st chain st'
    /\ node = left_nested left chain.
Proof.
  unfold binary_loop, while_. revert left st.
  induction fuel as [|fuel IH]; intros left st; cbn [loop]; [discriminate|].
  unfold bind at 1 2.
  destruct (match_any OPERATOR operators st) as [[[]|e|] s0] eqn:Em;
    try discriminate.
  - destruct operators as [|v vs]; [discriminate|].
    rewrite (match_any_is_check OPERATOR v vs) in Em.
    destruct (peek st) as [[tok|e|] s1] eqn:Ep; try discriminate.
    pose proof (peek_keeps_state _ _ _ Ep) as ->.
    injection Em as Ef <-.
    unfold bind at 1 2. rewrite (consume_any_at _ _ Ep). unfold bind at 1.
    cbn [advance snd].
    destruct (operand _) as [[right|e|] s2] eqn:Eo; try discriminate.
    unfold ret at 1 2. intros H. apply IH in H.
    destruct H as (chain & Hr & ->).
    exists ((name tok, right) :: chain). split; [|reflexivity].
    apply chain_goes_on with (after := s2); try assumption.
    unfold peek in Ep. destruct (nth_error _ _) as [t|]; [|discriminate].
    injection Ep as ->. reflexivity.
  - assert (Es : s0 = st).
    { destruct operators as [|v vs]; [injection Em as <-; reflexivity|].
      rewrite (match_any_is_check OPERATOR v vs) in Em.
      destruct (peek st) as [[tok|e|] s1] eqn:Ep; try discriminate.
      pose proof (peek_keeps_state _ _ _ Ep) as ->.
      injection Em as _ <-. reflexivity. }
    subst s0. unfold ret. intros [= <- <-]. exists []. split; [|reflexivity].
    constructor. exact Em.
Qed.

(** [a - b - c] after [a]: the operands [b] and [c] are read by
    [parseMultiplicative], and the node is [(a - b) - c]. *)
Lemma binary_operators_associate_to_the_left_witness :
  exists chain,
    reads_chain ["+"; "-"]%string (p_Multiplicative (parser 10)) value
      (mkCompiler
         [mkToken IDENTIFIER (utf16 "a") 0; mkToken OPERATOR (utf16 "-") 2;
          mkToken IDENTIFIER (utf16 "b") 4; mkToken OPERATOR (utf16 "-") 6;
          mkToken IDENTIFIER (utf16 "c") 8; mkToken EOF [] 9]
         None 1 [] [])
      chain
      (mkCompiler
         [mkToken IDENTIFIER (utf16 "a") 0; mkToken OPERATOR (utf16 "-") 2;
          mkToken IDENTIFIER (utf16 "b") 4; mkToken OPERATOR (utf16 "-") 6;
          mkToken IDENTIFIER (utf16 "c") 8; mkToken EOF [] 9]
         None 5 [] [])
    /\ BinaryExpression (utf16 "-")
         (BinaryExpression (utf16 "-")
            (Identifier (utf16 "a") (Some false))
            (Identifier (utf16 "b") (Some false)))
         (Identifier (utf16 "c") (Some false))
       = left_nested (Identifier (utf16 "a") (Some false)) chain.
Proof.
  refine (binary_operators_associate_to_the_left ["+"; "-"]%string
            (p_Multiplicative (parser 10)) value 10
            (Identifier (utf16 "a") (Some false))
            (mkCompiler
               [mkToken IDENTIFIER (utf16 "a") 0; mkToken OPERATOR (utf16 "-") 2;
                mkToken IDENTIFIER (utf16 "b") 4; mkToken OPERATOR (utf16 "-") 6;
                mkToken IDENTIFIER (utf16 "c") 8; mkToken EOF [] 9]
               None 1 [] [])
            _
            (mkCompiler
               [mkToken IDENTIFIER (utf16 "a") 0; mkToken OPERATOR (utf16 "-") 2;
                mkToken IDENTIFIER (utf16 "b") 4; mkToken OPERATOR (utf16 "-") 6;
                mkToken IDENTIFIER (utf16 "c") 8; mkToken EOF [] 9]
               None 5 [] [])
            _).
  vm_compute. reflexivity.
Defined.

(** ** Static analysis *)

(** The three warnings of the analysis. *)
Definition already_declared (name : jsstring) : jsstring :=
  utf16 "Variable '" ++ name ++ utf16 "' is already declared".

Definition never_used (name : jsstring) : jsstring :=
  utf16 "Variable '" ++ name ++ utf16 "' is declared but never used".

Definition not_declared (name : jsstring) : jsstring :=
  utf16 "Variable '" ++ name ++ utf16 "' is used but not declared".

(** [l'] is [l] with warnings that a variable is already declared at its
    end. *)
Definition adds (l l' : list jsstring) : Prop :=
  exists more, l' = l ++ more
               /\ Forall (fun w => exists name, w = already_declared name) more.

Lemma adds_refl (l : list jsstring) : adds l l.
Proof. exists []. split; [symmetry; apply app_nil_r|constructor]. Qed.

Lemma adds_trans (l1 l2 l3 : list jsstring) :
  adds l1 l2 -> adds l2 l3 -> adds l1 l3.
Proof.
  intros (a & -> & Ha) (b & -> & Hb). exists (a ++ b).
  split; [symmetry; apply app_assoc|apply Forall_app; auto].
Qed.

Lemma adds_one (l : list jsstring) (w : jsstring) :
  (exists name, w = already_declared name) -> adds l (l ++ [w]).
Proof.
  intros H. exists [w]. split; [reflexivity|].
  constructor; [exact H|constructor].
Qed.

Lemma adds_extends (l l' : list jsstring) : adds l l' -> extends l l'.
Proof. intros (more & -> & _). exists more. reflexivity. Qed.

Lemma fold_left_adds {A} (f : walk -> A -> walk) (l : list A) :
  Forall (fun x => forall w, adds (snd w) (snd (f w x))) l ->
  forall w, adds (snd w) (snd (fold_left f l w)).
Proof.
  induction 1 as [|x l Hx _ IH]; intros w; cbn [fold_left].
  - apply adds_refl.
  - eapply adds_trans; [apply Hx|apply IH].
Qed.

Ltac visit_opt :=
  match goal with
  | |- adds _ (snd (visit_option visit ?o _)) =>
      destruct o; cbn [visit_option];
      [match goal with H : forall n : ASTNode, _ |- _ => apply H end
      |apply adds_refl]
  end.

(** The walk over the tree drops no warning, and adds none but that a
    variable is already declared. *)
Fixpoint visit_adds (node : ASTNode) {struct node} :
  forall w, adds (snd w) (snd (visit node w))
with visit_case_adds (c : SwitchCaseNode) {struct c} :
  forall w, adds (snd w) (snd (visit_case c w))
with visit_property_adds (p : PropertyNode) {struct p} :
  forall w, adds (snd w) (snd (visit_property p w)).
Proof.
  - destruct node; intros w; cbn [visit].
    + apply fold_left_adds.
      induction body as [|n body IH]; constructor; [apply visit_adds|exact IH].
    + eapply adds_trans; [|visit_opt].
      destruct (usage_get (fst w) identifier) as [[[] used]|]; cbn [snd];
        first [apply adds_refl|apply adds_one; eexists; reflexivity].
    + eapply adds_trans; [|apply visit_adds]. apply adds_refl.
    + apply fold_left_adds.
      induction statements as [|n l IH]; constructor; [apply visit_adds|exact IH].
    + apply visit_adds.
    + eapply adds_trans; [|visit_opt].
      eapply adds_trans; apply visit_adds.
    + eapply adds_trans; [|apply visit_adds].
      eapply adds_trans; [|visit_opt].
      eapply adds_trans; [|visit_opt].
      visit_opt.
    + eapply adds_trans; apply visit_adds.
    + eapply adds_trans; apply visit_adds.
    + eapply adds_trans; [apply visit_adds|].
      apply fold_left_adds.
      induction cases as [|c l IH]; constructor; [apply visit_case_adds|exact IH].
    + visit_opt.
    + apply adds_refl.
    + apply adds_refl.
    + apply adds_refl.
    + eapply adds_trans; apply visit_adds.
    + eapply adds_trans; apply visit_adds.
    + apply visit_adds.
    + eapply adds_trans; [apply visit_adds|].
      apply fold_left_adds.
      induction arguments as [|n l IH]; constructor; [apply visit_adds|exact IH].
    + destruct property as [name|q].
      * apply visit_adds.
      * eapply adds_trans; apply visit_adds.
    + apply adds_refl.
    + eapply adds_trans; apply visit_adds.
    + eapply adds_trans; [|apply visit_adds].
      eapply adds_trans; apply visit_adds.
    + apply fold_left_adds.
      induction properties as [|q l IH]; constructor;
        [apply visit_property_adds|exact IH].
    + apply fold_left_adds.
      induction elements as [|e l IH]; constructor; [|exact IH].
      destruct e as [n|]; intros w'; cbn [visit_option];
        [apply visit_adds|apply adds_refl].
    + destruct (is_predefined name); [apply adds_refl|].
      destruct (usage_get (fst w) name) as [[declared used]|]; apply adds_refl.
    + apply adds_refl.
  - destruct c as [test consequent]. intros w. cbn [visit_case].
    assert (Hc : Forall (fun x => forall w', adds (snd w') (snd (visit x w')))
                   consequent).
    { induction consequent as [|n l IH]; constructor; [apply visit_adds|exact IH]. }
    destruct test as [n|]; cbn [visit_option].
    + eapply adds_trans; [apply visit_adds|].
      apply fold_left_adds. exact Hc.
    + apply fold_left_adds. exact Hc.
  - destruct p as [key val computed]. intros w. cbn [visit_property].
    eapply adds_trans; apply visit_adds.
Qed.

Lemma analyzeCode_spec (st : SaaamCompiler) :
  fst (analyzeCode st) = Ret tt
  /\ tokens (snd (analyzeCode st)) = tokens st
  /\ ast (snd (analyzeCode st)) = ast st
  /\ currentToken (snd (analyzeCode st)) = currentToken st
  /\ errors (snd (analyzeCode st)) = errors st
  /\ extends (warnings st) (warnings (snd (analyzeCode st))).
Proof.
  unfold analyzeCode. destruct (ast st) as [root|] eqn:E; cbn [fst snd].
  - cbn [tokens ast currentToken errors warnings]. repeat split; try assumption.
    destruct (visit_adds root ([], warnings st)) as (more & Hm & _).
    cbn [snd] in Hm. rewrite Hm.
    exists (more ++ usage_warnings (fst (visit root ([], warnings st)))).
    symmetry. apply app_assoc.
  - repeat split; try assumption. apply extends_refl.
Qed.

(** ** The analysis on a stack *)

(** A step of the stack-limited walk from [w] follows the walk [v] when it
    ends as [v] does, or is stopped with the warnings of [w] and no others
    than that a variable is already declared after them. *)
Definition follows (w : walk) (r : walk_result) (v : walk) : Prop :=
  match r with
  | inl w' => w' = v
  | inr found => adds (snd w) found
  end.

Lemma follows_and_then (w : walk) (r : walk_result) (k : walk -> walk_result)
  (v1 v2 : walk) :
  follows w r v1 -> adds (snd w) (snd v1) -> follows v1 (k v1) v2 ->
  follows w (and_then r k) v2.
Proof.
  destruct r as [w1|found]; cbn [follows and_then]; [|auto].
  intros -> Ha. destruct (k v1) as [w2|found]; cbn [follows]; [auto|].
  intros Hf. eapply adds_trans; eassumption.
Qed.

Lemma follows_from (w w1 : walk) (r : walk_result) (v : walk) :
  adds (snd w) (snd w1) -> follows w1 r v -> follows w r v.
Proof.
  destruct r as [w'|found]; cbn [follows]; [auto|]. apply adds_trans.
Qed.

Lemma follows_all {A} (f : A -> walk -> walk_result) (g : A -> walk -> walk)
  (l : list A) :
  (forall x w, follows w (f x w) (g x w)) ->
  (forall x w, adds (snd w) (snd (g x w))) ->
  forall w, follows w (walk_all f l w) (fold_left (fun w x => g x w) l w).
Proof.
  intros Hf Hg. induction l as [|x l IH]; intros w; cbn [walk_all fold_left].
  - reflexivity.
  - eapply follows_and_then; [apply Hf|apply Hg|apply IH].
Qed.

Lemma follows_option (f : ASTNode -> walk -> walk_result) (o : option ASTNode) :
  (forall n w, follows w (f n w) (visit n w)) ->
  forall w, follows w (walk_option f o w) (visit_option visit o w).
Proof. intros Hf w. destruct o as [n|]; [apply Hf|reflexivity]. Qed.

Lemma visit_option_adds (o : option ASTNode) (w : walk) :
  adds (snd w) (snd (visit_option visit o w)).
Proof. destruct o; [apply visit_adds|apply adds_refl]. Qed.

Ltac walk_follows IH :=
  lazymatch goal with
  | |- follows _ (and_then _ _) _ =>
      eapply follows_and_then;
      [walk_follows IH
      |first [apply visit_adds|apply visit_option_adds]
      |walk_follows IH]
  | |- follows _ (walk_option _ _ _) _ => apply follows_option; apply IH
  | |- follows _ (walk_all _ _ _) _ =>
      first [apply (follows_all _ (fun n w => visit n w)); [apply IH|apply visit_adds]
            |apply (follows_all _ (fun o w => visit_option visit o w));
             [intros o w'; apply follows_option; apply IH
             |intros o w'; apply visit_option_adds]]
  | |- follows _ (inl _) _ => reflexivity
  | |- _ => apply IH
  end.

(** The walk on a stack of [stack] calls is the walk of [visit], up to where
    it is stopped. *)
Lemma visit_within_follows (stack : nat) :
  (forall node w, follows w (visit_within stack node w) (visit node w))
  /\ (forall c w, follows w (visit_case_within stack c w) (visit_case c w))
  /\ (forall p w,
        follows w (visit_property_within stack p w) (visit_property p w)).
Proof.
  induction stack as [|stack (IHn & IHc & IHp)].
  - repeat split; intros; apply adds_refl.
  - split; [|split].
    + intros node w. destruct node; cbn [visit_within visit];
        try solve [walk_follows IHn].
      * eapply follows_from; [|apply follows_option; exact IHn].
        destruct (usage_get (fst w) identifier) as [[[] used]|]; cbn [snd];
          first [apply adds_refl|apply adds_one; eexists; reflexivity].
      * eapply follows_from; [|apply IHn]. apply adds_refl.
      * eapply follows_and_then; [apply IHn|apply visit_adds|].
        apply (follows_all _ (fun c w => visit_case c w));
          [exact IHc|apply visit_case_adds].
      * destruct property as [name|q]; walk_follows IHn.
      * apply (follows_all _ (fun q w => visit_property q w));
          [exact IHp|apply visit_property_adds].
      * destruct (is_predefined name); [reflexivity|].
        destruct (usage_get (fst w) name) as [[declared used]|]; reflexivity.
    + intros [test consequent] w. cbn [visit_case_within visit_case].
      walk_follows IHn.
    + intros [key val computed] w. cbn [visit_property_within visit_property].
      walk_follows IHn.
Qed.

(** Whether the stack holds the walk depends on the tree, not on what the
    walk has found. *)
Definition holds_walk (r : walk_result) : bool :=
  match r with inl _ => true | inr _ => false end.

Lemma holds_and_then (r1 r2 : walk_result) (k1 k2 : walk -> walk_result) :
  holds_walk r1 = holds_walk r2 ->
  (forall a b, holds_walk (k1 a) = holds_walk (k2 b)) ->
  holds_walk (and_then r1 k1) = holds_walk (and_then r2 k2).
Proof.
  destruct r1, r2; cbn [holds_walk and_then]; try discriminate; auto.
Qed.

Lemma holds_all {A} (f : A -> walk -> walk_result) (l : list A) :
  (forall x w1 w2, holds_walk (f x w1) = holds_walk (f x w2)) ->
  forall w1 w2, holds_walk (walk_all f l w1) = holds_walk (walk_all f l w2).
Proof.
  intros Hf. induction l as [|x l IH]; intros w1 w2; cbn [walk_all];
    [reflexivity|].
  apply holds_and_then; [apply Hf|intros; apply IH].
Qed.

Lemma holds_option (f : ASTNode -> walk -> walk_result) (o : option ASTNode) :
  (forall n w1 w2, holds_walk (f n w1) = holds_walk (f n w2)) ->
  forall w1 w2, holds_walk (walk_option f o w1) = holds_walk (walk_option f o w2).
Proof. intros Hf w1 w2. destruct o; [apply Hf|reflexivity]. Qed.

Ltac walk_holds IH :=
  lazymatch goal with
  | |- holds_walk (and_then _ _) = holds_walk (and_then _ _) =>
      apply holds_and_then; [walk_holds IH|intros; walk_holds IH]
  | |- holds_walk (walk_option _ _ _) = _ => apply holds_option; apply IH
  | |- holds_walk (walk_all _ _ _) = _ =>
      apply holds_all;
      first [apply IH|intros o ? ?; apply holds_option; apply IH]
  | |- holds_walk (inl _) = holds_walk (inl _) => reflexivity
  | |- _ => apply IH
  end.

Lemma visit_within_holds (stack : nat) :
  (forall node w1 w2,
     holds_walk (visit_within stack node w1)
     = holds_walk (visit_within stack node w2))
  /\ (forall c w1 w2,
        holds_walk (visit_case_within stack c w1)
        = holds_walk (visit_case_within stack c w2))
  /\ (forall p w1 w2,
        holds_walk (visit_property_within stack p w1)
        = holds_walk (visit_property_within stack p w2)).
Proof.
  induction stack as [|stack (IHn & IHc & IHp)].
  - repeat split; intros; reflexivity.
  - split; [|split].
    + intros node w1 w2. destruct node; cbn [visit_within];
        try solve [walk_holds IHn].
      * apply holds_and_then; [apply IHn|intros; apply holds_all; exact IHc].
      * destruct property as [name|q]; walk_holds IHn.
      * apply holds_all. exact IHp.
      * destruct (is_predefined name); [reflexivity|].
        destruct (usage_get (fst w1) name) as [[d1 u1]|];
          destruct (usage_get (fst w2) name) as [[d2 u2]|]; reflexivity.
    + intros [test consequent] w1 w2. cbn [visit_case_within]. walk_holds IHn.
    + intros [key val computed] w1 w2. cbn [visit_property_within].
      walk_holds IHn.
Qed.

Lemma holds_walk_true (r : walk_result) :
  holds_walk r = true <-> exists w, r = inl w.
Proof.
  destruct r as [w|found]; cbn [holds_walk]; split;
    [eauto|reflexivity|discriminate|intros [w' [=]]].
Qed.

Lemma holds_walk_false (r : walk_result) :
  holds_walk r = false <-> exists found, r = inr found.
Proof.
  destruct r as [w|found]; cbn [holds_walk]; split;
    [discriminate|intros [w' [=]]|eauto|reflexivity].
Qed.

(** What [analyzeCode] does on a stack of [stack] calls. *)
Lemma analyzeCode_within_spec (stack : nat) (st : SaaamCompiler) :
  (analyzeCode_within stack st = analyzeCode st
   /\ (forall root, ast st = Some root ->
                    holds_walk (visit_within stack root ([], [])) = true)
   \/ fst (analyzeCode_within stack st) = Thrown stack_overflow
      /\ exists root, ast st = Some root
                      /\ holds_walk (visit_within stack root ([], [])) = false)
  /\ tokens (snd (analyzeCode_within stack st)) = tokens st
  /\ ast (snd (analyzeCode_within stack st)) = ast st
  /\ currentToken (snd (analyzeCode_within stack st)) = currentToken st
  /\ errors (snd (analyzeCode_within stack st)) = errors st
  /\ extends (warnings st) (warnings (snd (analyzeCode_within stack st))).
Proof.
  unfold analyzeCode_within, analyzeCode.
  destruct (ast st) as [root|] eqn:E.
  - pose proof (proj1 (visit_within_follows stack) root ([], warnings st)) as Hf.
    pose proof (proj1 (visit_within_holds stack) root ([], warnings st) ([], []))
      as Hh.
    destruct (visit_within stack root ([], warnings st)) as [w|found];
      cbn [follows holds_walk fst snd tokens ast currentToken errors warnings]
        in *.
    + subst w. split; [left; split; [reflexivity|]|].
      * intros root' [= <-]. symmetry. exact Hh.
      * do 4 (split; [first [reflexivity|assumption]|]).
        destruct (visit_adds root ([], warnings st)) as (more & Hm & _).
        cbn [snd] in Hm. rewrite Hm.
        exists (more ++ usage_warnings (fst (visit root ([], warnings st)))).
        symmetry. apply app_assoc.
    + split; [right; split; [reflexivity|]|].
      * exists root. split; [reflexivity|]. symmetry. exact Hh.
      * do 4 (split; [first [reflexivity|assumption]|]).
        apply adds_extends. exact Hf.
  - cbn [fst snd]. split; [left; split; [reflexivity|discriminate]|].
    do 4 (split; [first [reflexivity|assumption]|]). apply extends_refl.
Qed.

(** X7.  Static analysis only warns.  [analyzeCode] returns, or -- when the
    walk over the tree needs more nested calls of [visit] than the stack
    holds -- throws the [RangeError] of the engine; it catches nothing.
    Either way it leaves the tokens, the tree and the errors as they are, and
    keeps every warning recorded before, adding its own after them.  When it
    returns, the compiler is as the walk on a stack that holds every tree
    leaves it. *)
Theorem analysis_only_adds_warnings (stack : nat) (st : SaaamCompiler) :
  (fst (analyzeCode_within stack st) = Ret tt
   /\ snd (analyzeCode_within stack st) = snd (analyzeCode st)
   \/ fst (analyzeCode_within stack st) = Thrown stack_overflow
      /\ exists root found,
           ast st = Some root
           /\ visit_within stack root ([], warnings st) = inr found)
  /\ tokens (snd (analyzeCode_within stack st)) = tokens st
  /\ ast (snd (analyzeCode_within stack st)) = ast st
  /\ errors (snd (analyzeCode_within stack st)) = errors st
  /\ extends (warnings st) (warnings (snd (analyzeCode_within stack st))).
Proof.
  destruct (analyzeCode_within_spec stack st) as (H & H2 & H3 & _ & H5 & H6).
  split; [|auto].
  destruct H as [[H _]|[H (root & Hr & Hh)]].
  - left. rewrite H. split; [|reflexivity].
    apply (proj1 (analyzeCode_spec st)).
  - right. split; [exact H|]. exists root.
    rewrite (proj1 (visit_within_holds stack) root ([], []) ([], warnings st))
      in Hh.
    apply holds_walk_false in Hh. destruct Hh as [found Hh].
    exists found. auto.
Qed.

(** Three minus signs before [a] are three levels of the tree below the
    statement: a stack of five calls does not hold the walk, one of six
    does. *)
Example analysis_of_a_deep_tree :
  let tree :=
    Program
      [ExpressionStatement
         (UnaryExpression (utf16 "-")
            (UnaryExpression (utf16 "-")
               (UnaryExpression (utf16 "-")
                  (Identifier (utf16 "a") (Some false)))))] in
  let st := mkCompiler [] (Some tree) 0 [] [] in
  analyzeCode_within 5 st = (Thrown stack_overflow, st)
  /\ analyzeCode_within 6 st
     = (Ret tt,
        mkCompiler [] (Some tree) 0 []
          [utf16 "Variable 'a' is used but not declared"]).
Proof. split; vm_compute; reflexivity. Qed.


(** Two texts with different endings are different. *)
Lemma different_endings (x y e1 e2 : jsstring) (k : nat) :
  k <= length e1 -> k <= length e2 ->
  firstn k (rev e1) <> firstn k (rev e2) ->
  x ++ e1 <> y ++ e2.
Proof.
  intros H1 H2 Hne E. apply Hne.
  apply (f_equal (fun l => firstn k (rev l))) in E. cbv beta in E.
  rewrite !rev_app_distr, !firstn_app, !length_rev in E.
  replace (k - length e1) with 0 in E by lia.
  replace (k - length e2) with 0 in E by lia.
  cbn [firstn] in E. rewrite !app_nil_r in E. exact E.
Qed.

(** X8.  The analysis never says of a predefined variable or function that
    it is used but not declared: none of the warnings that [analyzeCode]
    adds is that warning for a name of [predefinedVariables] or
    [predefinedFunctions]. *)
Theorem predefined_names_are_never_reported (st : SaaamCompiler) :
  exists added,
    warnings (snd (analyzeCode st)) = warnings st ++ added
    /\ Forall (fun w =>
                 forall name, is_predefined name = true -> w <> not_declared name)
         added.
Proof.
  unfold analyzeCode. destruct (ast st) as [root|]; cbn [snd warnings].
  2:{ exists []. split; [symmetry; apply app_nil_r|constructor]. }
  destruct (visit_adds root ([], warnings st)) as (more & Hm & Hall).
  cbn [snd] in Hm. rewrite Hm.
  exists (more ++ usage_warnings (fst (visit root ([], warnings st)))).
  split; [symmetry; apply app_assoc|]. apply Forall_app. split.
  - eapply Forall_impl; [|exact Hall]. cbv beta.
    intros w [x ->] name _. unfold already_declared, not_declared.
    intros E. apply app_inv_head in E. revert E.
    apply (different_endings _ _ _ _ 10); [vm_compute; lia..|].
    vm_compute. discriminate.
  - unfold usage_warnings. apply Forall_flat_map. apply Forall_forall.
    intros [n [declared used]] _. apply Forall_app. split.
    + destruct (declared && negb used); constructor; [|constructor].
      intros name _ E. apply app_inv_head in E. revert E.
      apply (different_endings _ _ _ _ 3); [vm_compute; lia..|].
      vm_compute. discriminate.
    + destruct (negb declared && used && negb (is_predefined n)) eqn:Ec;
        constructor; [|constructor].
      intros name Hp E. apply app_inv_head, app_inv_tail in E. subst n.
      rewrite Hp in Ec. rewrite andb_false_r in Ec. discriminate.
Qed.

(** ** The entry points: what [compile] returns *)

(** X9.  No lexical error is lost on the way: the errors that [compile]
    returns begin with those of the lexer, in their order, so that a source
    with a code unit that the lexer skipped never compiles with success. *)
Theorem lexical_errors_fail_the_compile
  (number_toString : jsstring -> jsstring) (fuel : nat) (code : jsstring)
  (r : CompileResult) :
  compiled number_toString fuel code = Ret r ->
  exists toks lexical,
    tokenize_fuel (length code) code [] = Some (toks, lexical)
    /\ extends lexical (result_errors r)
    /\ (lexical <> [] -> success r = false).
Proof.
  unfold compiled. destruct (compile _ _ _ _) as [o st'] eqn:E. cbn [fst].
  intros ->. pose proof (compile_returns _ _ _ _ _ _ E) as Hr.
  destruct (tokenize_runs code []) as (toks & lex & Hrun).
  exists (toks ++ [eof_token code]), lex.
  assert (Ht : tokenize_fuel (length code) code []
               = Some (toks ++ [eof_token code], lex))
    by (unfold tokenize_fuel; rewrite Hrun; reflexivity).
  split; [exact Ht|].
  assert (Hext : extends lex (errors st')).
  { revert E. unfold compile, bind, try_catch, reset, tokenize.
    cbn [errors]. rewrite Ht. cbn [ast currentToken warnings].
    set (s0 := mkCompiler (toks ++ [eof_token code]) None 0 lex []).
    destruct (parse_keeps fuel s0) as (_ & He & _). cbn [errors] in He.
    destruct (parse fuel s0) as [[tree|e|] s1]; cbn [snd] in He.
    - unfold set_ast, optimizeCode, generate, get_state, ret.
      cbn [tokens ast currentToken errors warnings].
      match goal with |- context [analyzeCode ?s] =>
        destruct (analyzeCode_spec s) as (Ha & _ & _ & _ & Hae & _);
        destruct (analyzeCode s) as [oa sa]
      end.
      cbn [fst snd errors] in Ha, Hae. subst oa.
      destruct (ast sa); intros [= _ <-]; rewrite Hae; exact He.
    - unfold addError, get_state, ret. intros [= _ <-]. cbn [errors].
      destruct He as [more ->]. eexists. rewrite <- app_assoc. reflexivity.
    - discriminate. }
  rewrite Hr. cbn [result_errors success]. split; [exact Hext|].
  intros Hne. destruct Hext as [more ->]. destruct lex; [contradiction|reflexivity].
Qed.

(** [a @ b]: the lexer skips the [@]. *)
Lemma lexical_errors_fail_the_compile_witness :
  exists toks lexical,
    tokenize_fuel 5 (utf16 "a @ b") [] = Some (toks, lexical)
    /\ extends lexical [utf16 "Unexpected character at position 2: '@'"]
    /\ (lexical <> [] -> false = false).
Proof.
  refine (lexical_errors_fail_the_compile lexeme_text 20 (utf16 "a @ b")
            (mkResult false
               (Some (utf16 "a;" ++ nl ++ utf16 "b;"))
               [utf16 "Unexpected character at position 2: '@'"]
               [utf16 "Missing semicolon after expression";
                utf16 "Missing semicolon after expression";
                utf16 "Variable 'a' is used but not declared";
                utf16 "Variable 'b' is used but not declared"]
               (Some (Program [ExpressionStatement
                                 (Identifier (utf16 "a") (Some false));
                               ExpressionStatement
                                 (Identifier (utf16 "b") (Some false))]))) _).
  vm_compute. reflexivity.
Defined.

(** ** The parser: the end of the tokens *)

Section EndOfFile.

(** A token array that ends with a token of type [EOF], as [tokenize]
    returns it. *)
Variable body : list Token.
Variable eof_value : jsstring.
Variable eof_position : nat.

Definition eof : Token := mkToken EOF eof_value eof_position.

(** The parser stands at a token of the array. *)
Definition in_tokens (st : SaaamCompiler) : Prop :=
  tokens st = body ++ [eof] /\ currentToken st <= length body.

(** Started at a token of the array ([lt]: not at the last one), [m] ends at
    a token of the array, however it ends; [quiet]: and it throws no
    exception. *)
Definition stays (quiet lt : bool) {A} (m : M A) : Prop :=
  forall st o st',
    in_tokens st -> (lt = true -> currentToken st < length body) ->
    m st = (o, st') ->
    in_tokens st' /\ (quiet = true -> forall e, o <> Thrown e).

Lemma peek_in_tokens (st : SaaamCompiler) :
  in_tokens st ->
  exists tok, peek st = (Ret tok, st)
              /\ (currentToken st = length body -> tok = eof).
Proof.
  intros [Ht Hc]. unfold peek. rewrite Ht.
  destruct (Nat.eq_dec (currentToken st) (length body)) as [E|E].
  - rewrite E, nth_error_app2, Nat.sub_diag by apply le_n.
    exists eof. split; reflexivity.
  - destruct (nth_error (body ++ [eof]) (currentToken st)) as [tok|] eqn:En.
    + exists tok. split; [reflexivity|]. intros C. contradiction.
    + apply nth_error_None in En. rewrite length_app in En. cbn [length] in En. lia.
Qed.

Lemma stays_ret {A} (a : A) (quiet lt : bool) : stays quiet lt (ret a).
Proof. intros st o st' Hi _ [= <- <-]. split; [exact Hi|]. discriminate. Qed.

Lemma stays_throw {A} (message : jsstring) (lt : bool) :
  stays false lt (@throw A message).
Proof. intros st o st' Hi _ [= <- <-]. split; [exact Hi|]. discriminate. Qed.

Lemma stays_out_of_fuel {A} (quiet lt : bool) : stays quiet lt (@out_of_fuel A).
Proof. intros st o st' Hi _ [= <- <-]. split; [exact Hi|]. discriminate. Qed.

Lemma stays_lt {A} (m : M A) (quiet lt : bool) :
  stays quiet false m -> stays quiet lt m.
Proof. intros Hm st o st' Hi _. apply Hm; [exact Hi|discriminate]. Qed.

Lemma stays_at_a_token {A} (m : M A) (quiet lt : bool) :
  stays quiet lt m -> stays quiet true m.
Proof.
  intros Hm st o st' Hi Hl. apply Hm; [exact Hi|]. intros _. exact (Hl eq_refl).
Qed.

Lemma stays_loud {A} (m : M A) (quiet lt : bool) :
  stays quiet lt m -> stays false lt m.
Proof.
  intros Hm st o st' Hi Hl H. split; [exact (proj1 (Hm _ _ _ Hi Hl H))|discriminate].
Qed.

Lemma stays_bind {A B} (m : M A) (k : A -> M B) (quiet lt : bool) :
  stays quiet lt m -> (forall a, stays quiet false (k a)) ->
  stays quiet lt (bind m k).
Proof.
  intros Hm Hk st o st' Hi Hl. unfold bind.
  destruct (m st) as [[a|e|] s1] eqn:E; intros H;
    destruct (Hm _ _ _ Hi Hl E) as [Hi1 Hq].
  - apply (Hk a s1); [exact Hi1|discriminate|exact H].
  - injection H as <- <-. split; [exact Hi1|].
    intros Q e0 _. exact (Hq Q e eq_refl).
  - injection H as <- <-. split; [exact Hi1|discriminate].
Qed.

Lemma stays_try_catch {A} (m : M A) (handler : jsstring -> M A)
  (quiet lt : bool) :
  stays false lt m -> (forall e, stays quiet false (handler e)) ->
  stays quiet lt (try_catch m handler).
Proof.
  intros Hm Hh st o st' Hi Hl. unfold try_catch.
  destruct (m st) as [[a|e|] s1] eqn:E; intros H;
    destruct (Hm _ _ _ Hi Hl E) as [Hi1 _].
  - injection H as <- <-. split; [exact Hi1|discriminate].
  - apply (Hh e s1); [exact Hi1|discriminate|exact H].
  - injection H as <- <-. split; [exact Hi1|discriminate].
Qed.

Lemma stays_loop {S} (fuel : nat) (step : S -> M (loop_ctl S)) (quiet : bool) :
  (forall s, stays quiet false (step s)) ->
  forall s lt, stays quiet lt (loop fuel step s).
Proof.
  intros Hb. induction fuel as [|fuel IH]; intros s lt; cbn [loop].
  - apply stays_out_of_fuel.
  - apply stays_bind; [apply stays_lt; apply Hb|].
    intros [s'|s']; [apply IH|apply stays_ret].
Qed.

(** A check followed by [k]: at the last token the check gives [b0]. *)
Lemma stays_check {A} (c : M bool) (f : Token -> bool) (k : bool -> M A)
  (b0 : bool) (quiet lt : bool) :
  is_check c f -> f eof = b0 ->
  stays quiet true (k (negb b0)) -> stays quiet lt (k b0) ->
  stays quiet lt (bind c k).
Proof.
  intros Hc Hb0 Hother Hat st o st' Hi Hl. unfold bind. rewrite Hc.
  destruct (peek_in_tokens st Hi) as (tok & -> & Hlast).
  destruct (Nat.eq_dec (currentToken st) (length body)) as [E|E].
  - rewrite (Hlast E), Hb0. apply Hat; assumption.
  - assert (Hlt : currentToken st < length body) by (destruct Hi; lia).
    destruct (Bool.bool_dec (f tok) b0) as [Eb|Eb].
    + rewrite Eb. apply (stays_at_a_token _ _ _ Hat); [exact Hi|intros _; exact Hlt].
    + replace (f tok) with (negb b0)
        by (destruct (f tok), b0; try reflexivity; exfalso; apply Eb; reflexivity).
      apply Hother; [exact Hi|intros _; exact Hlt].
Qed.

Lemma stays_peek {A} (k : Token -> M A) (quiet lt : bool) :
  (forall tok, stays quiet lt (k tok)) -> stays quiet lt (bind peek k).
Proof.
  intros Hk st o st' Hi Hl. unfold bind.
  destruct (peek_in_tokens st Hi) as (tok & -> & _). apply Hk; assumption.
Qed.

(** Recording an error or a warning moves nothing. *)
Lemma stays_addError {A} (message : jsstring) (k : unit -> M A)
  (quiet lt : bool) :
  stays quiet lt (k tt) -> stays quiet lt (bind (addError message) k).
Proof.
  intros Hk st o st' Hi Hl. unfold bind, addError. apply Hk; [|exact Hl].
  exact Hi.
Qed.

Lemma stays_addWarning {A} (message : jsstring) (k : unit -> M A)
  (quiet lt : bool) :
  stays quiet lt (k tt) -> stays quiet lt (bind (addWarning message) k).
Proof.
  intros Hk st o st' Hi Hl. unfold bind, addWarning. apply Hk; [|exact Hl].
  exact Hi.
Qed.

Lemma stays_add (quiet lt : bool) (message : jsstring) :
  stays quiet lt (addError message) /\ stays quiet lt (addWarning message).
Proof.
  split; intros st o st' Hi _ [= <- <-]; (split; [exact Hi|discriminate]).
Qed.

(** [consume()] at a token that is not the last one. *)
Lemma stays_consume_any (quiet : bool) : stays quiet true consume_any.
Proof.
  intros st o st' Hi Hl. specialize (Hl eq_refl).
  destruct (peek_in_tokens st Hi) as (tok & Hp & _).
  rewrite (consume_any_at _ _ Hp). intros [= <- <-].
  split; [|discriminate]. destruct Hi as [Ht Hc]. split; [exact Ht|].
  cbn [advance snd currentToken]. lia.
Qed.

(** [consume(type, value)] of a token that the last one is not. *)
Lemma stays_consume (ty : token_kind) (val : option jsstring) (lt : bool) :
  accepts eof ty val = false -> stays false lt (consume (Some ty) val).
Proof.
  intros Hacc st o st' Hi _ H. split; [|discriminate].
  destruct (peek_in_tokens st Hi) as (tok & Hp & Hlast).
  revert H. unfold consume. unfold bind at 1. rewrite Hp.
  destruct Hi as [Ht Hc].
  assert (Hfail : forall msg o1 s1,
            (addError msg ;; @throw unit msg) st = (o1, s1) ->
            tokens s1 = body ++ [eof] /\ currentToken s1 <= length body).
  { intros msg o1 s1 [= _ <-]. cbn. auto. }
  destruct (negb (kind_eqb (type tok) ty)) eqn:Ek.
  { unfold bind at 1. intros H.
    destruct ((addError (expected_type ty (type tok)) ;;
               throw (expected_type ty (type tok))) st)
      as [[[]|e|] s1] eqn:E; try (injection H as <- <-); try exact (Hfail _ _ _ E).
    discriminate E. }
  assert (Hval : match val with
                 | Some v => negb (str_eqb (value tok) v)
                 | None => false
                 end = false ->
                 currentToken st < length body).
  { intros Hv. destruct (Nat.eq_dec (currentToken st) (length body)) as [E|E]; [|lia].
    exfalso. rewrite (Hlast E) in *. unfold accepts in Hacc.
    apply negb_false_iff in Ek. rewrite Ek in Hacc. cbn [andb] in Hacc.
    destruct val as [v|]; [|discriminate].
    apply negb_false_iff in Hv. congruence. }
  unfold bind at 1. unfold ret at 1.
  destruct val as [v|].
  - destruct (negb (str_eqb (value tok) v)) eqn:Ev.
    + unfold bind at 1. intros H.
      destruct ((addError (expected_value v (value tok)) ;;
                 throw (expected_value v (value tok))) st)
        as [[[]|e|] s1] eqn:E; try (injection H as <- <-); try exact (Hfail _ _ _ E).
      discriminate E.
    + unfold bind, ret, advance. intros [= <- <-]. specialize (Hval eq_refl).
      unfold in_tokens. cbn [tokens currentToken]. split; [exact Ht|lia].
  - unfold bind, ret, advance. intros [= <- <-]. specialize (Hval eq_refl).
    unfold in_tokens. cbn [tokens currentToken]. split; [exact Ht|lia].
Qed.

Ltac by_cases b :=
  lazymatch b with
  | true => fail
  | false => fail
  | _ => destruct b
  end.

Ltac stay_self :=
  first [ by_self | apply stays_lt; by_self ].

Ltac stay :=
  lazymatch goal with
  | |- stays _ _ (ret _) => apply stays_ret
  | |- stays false _ (throw _) => apply stays_throw
  | |- stays _ _ out_of_fuel => apply stays_out_of_fuel
  | |- stays _ _ (addError _) => apply stays_add
  | |- stays _ _ (addWarning _) => apply stays_add
  | |- stays _ _ (when _ _) => unfold when; stay
  | |- stays _ _ (if negb ?b then _ else _) =>
      by_cases b; cbn [negb]; stay
  | |- stays _ _ (if ?b then _ else _) => by_cases b; stay
  | |- stays _ _ (match ?x with _ => _ end) => destruct x; stay
  | |- stays _ _ (let (_, _) := ?x in _) => destruct x; stay
  | |- stays _ true consume_any => apply stays_consume_any
  | |- stays false _ (consume_tv _ _) => apply stays_consume; reflexivity
  | |- stays false _ (consume_type _) => apply stays_consume; reflexivity
  | |- stays _ _ (loop _ _ _) => apply stays_loop; intros; stay
  | |- stays _ _ (while_ _ _ _ _) => unfold while_; stay
  | |- stays _ _ (try_catch _ _) =>
      apply stays_try_catch; [stay | intros; stay]
  | |- stays _ _ (bind peek _) => apply stays_peek; intros; stay
  | |- stays _ _ (bind (addError _) _) => apply stays_addError; stay
  | |- stays _ _ (bind (addWarning _) _) => apply stays_addWarning; stay
  | |- stays _ _ (bind _ _) =>
      first [ eapply stays_check;
              [ a_check | lazy; reflexivity
              | cbv beta iota delta [negb]; stay
              | cbv beta iota delta [negb]; stay ]
            | apply stays_bind; [stay | intros; stay] ]
  | |- stays _ _ _ =>
      first [ stay_self
            | progress unfold optional_semicolon, binary_loop,
                case_consequent_loop, default_consequent_loop, switch_clause,
                check_builtin_call, object_property, skip_to_next_statement;
              stay ]
  end.

Lemma stays_methods (self : parsers) (fuel : nat) :
  every_method (fun lt m => stays false lt m) self ->
  every_method (fun lt m => stays false lt m) (methods self fuel).
Proof.
  intros Hself. constructor; intros;
    cbn [methods p_VariableDeclaration p_FunctionDefinition p_Block p_Statement
           p_IfStatement p_ForLoop p_WhileLoop p_DoWhileLoop p_SwitchStatement
           p_ReturnStatement p_BreakStatement p_ContinueStatement p_Expression
           p_Assignment p_LogicalOr p_LogicalAnd p_Equality p_Comparison
           p_Additive p_Multiplicative p_Unary p_CallOrMember p_CallExpression
           p_MemberExpression p_IndexExpression p_ObjectLiteral p_ArrayLiteral
           p_Primary].
  - unfold parseVariableDeclaration. stay.
  - unfold parseFunctionDefinition. stay.
  - unfold parseBlock. stay.
  - unfold parseStatement. stay.
  - unfold parseIfStatement. stay.
  - unfold parseForLoop. stay.
  - unfold parseWhileLoop. stay.
  - unfold parseDoWhileLoop. stay.
  - unfold parseSwitchStatement. stay.
  - unfold parseReturnStatement. stay.
  - unfold parseBreakStatement. stay.
  - unfold parseContinueStatement. stay.
  - unfold parseExpression. stay.
  - unfold parseAssignment. stay.
  - unfold parseLogicalOr. stay.
  - unfold parseLogicalAnd. stay.
  - unfold parseEquality. stay.
  - unfold parseComparison. stay.
  - unfold parseAdditive. stay.
  - unfold parseMultiplicative. stay.
  - unfold parseUnary. stay.
  - unfold parseCallOrMember. stay.
  - unfold parseCallExpression. stay.
  - unfold parseMemberExpression. stay.
  - unfold parseIndexExpression. stay.
  - unfold parseObjectLiteral. stay.
  - unfold parseArrayLiteral. stay.
  - unfold parsePrimary. stay.
Qed.

Lemma stays_parser (n : nat) : every_method (fun lt m => stays false lt m) (parser n).
Proof.
  apply every_method_parser.
  - intros b. apply stays_out_of_fuel.
  - apply stays_methods.
Qed.

(** [parseProgram] catches what its statements throw. *)
Lemma stays_parseProgram (n fuel : nat) :
  stays true false (parseProgram (parser n) fuel).
Proof.
  pose proof (stays_parser n) as Hself. unfold parseProgram. stay.
Qed.

Lemma parseProgram_returns_a_program (self : parsers) (fuel : nat)
  (st : SaaamCompiler) (node : ASTNode) (st' : SaaamCompiler) :
  parseProgram self fuel st = (Ret node, st') ->
  exists statements, node = Program statements.
Proof.
  unfold parseProgram, bind.
  destruct (while_ _ _ _ _ st) as [[statements|e|] s1]; try discriminate.
  intros [= <- _]. exists statements. reflexivity.
Qed.

(** A [while] loop that returns has found its condition false. *)
Lemma while_exit {S} (cond : M bool) (f : Token -> bool) (step : S -> M S) :
  is_check cond f ->
  forall fuel s st s' st',
    while_ fuel cond step s st = (Ret s', st') ->
    exists tok, peek st' = (Ret tok, st') /\ f tok = false.
Proof.
  intros Hc. unfold while_. induction fuel as [|fuel IH]; intros s st s' st';
    cbn [loop]; [discriminate|].
  unfold bind at 1 2. rewrite Hc.
  destruct (peek st) as [[tok|e|] s0] eqn:Ep; try discriminate.
  pose proof (peek_keeps_state _ _ _ Ep) as ->.
  destruct (f tok) eqn:Ef.
  - unfold bind at 1. destruct (step s st) as [[s1|e|] st1]; try discriminate.
    unfold ret at 1. apply IH.
  - intros [= <- <-]. exists tok. auto.
Qed.

Lemma parse_spec (fuel : nat) (st : SaaamCompiler) (o : outcome (option ASTNode))
  (st' : SaaamCompiler) :
  tokens st = body ++ [eof] ->
  parse fuel st = (o, st') ->
  (o = OutOfFuel \/ exists statements, o = Ret (Some (Program statements)))
  /\ in_tokens st'
  /\ (forallb (fun t => negb (kind_eqb (type t) EOF)) body = true ->
      o <> OutOfFuel -> currentToken st' = length body).
Proof.
  intros Ht. unfold parse, bind, try_catch, set_currentToken.
  set (st0 := mkCompiler (tokens st) (ast st) 0 (errors st) (warnings st)).
  assert (Hi : in_tokens st0) by (split; [exact Ht|apply Nat.le_0_l]).
  destruct (parseProgram (parser fuel) fuel st0) as [[program|e|] s1] eqn:E;
    destruct (stays_parseProgram fuel fuel _ _ _ Hi (no_true _) E) as [Hi1 Hq].
  - destruct (parseProgram_returns_a_program _ _ _ _ _ E) as [statements ->].
    unfold set_ast, ret. intros [= <- <-].
    split; [right; exists statements; reflexivity|].
    split; [exact Hi1|]. cbn [currentToken]. intros Hbody _.
    revert E. unfold parseProgram. unfold bind at 1.
    destruct (while_ _ _ _ _ st0) as [[stmts|e|] s2] eqn:Ew; try discriminate.
    intros [= _ <-].
    destruct (while_exit _ _ _ not_eof_is_check _ _ _ _ _ Ew) as (tok & Hp & Hf).
    destruct Hi1 as [Ht1 Hc1].
    destruct (Nat.eq_dec (currentToken s2) (length body)) as [El|El]; [exact El|].
    exfalso. unfold peek in Hp. rewrite Ht1, nth_error_app1 in Hp by lia.
    destruct (nth_error body (currentToken s2)) as [t|] eqn:En; [|discriminate].
    injection Hp as ->. apply nth_error_In in En.
    rewrite forallb_forall in Hbody. rewrite (Hbody _ En) in Hf. discriminate.
  - exfalso. exact (Hq eq_refl e eq_refl).
  - intros [= <- <-]. split; [left; reflexivity|].
    split; [exact Hi1|]. intros _ C. contradiction.
Qed.

End EndOfFile.

(** X10.  On tokens that end with an [EOF] token, [parse()] never returns
    [null]: unless it is still running when its fuel is gone, it returns a
    [Program] node.  It never reads past the last token, and nothing is
    thrown out of [parseProgram], so that the [catch] of [parse] is not
    reached. *)
Theorem parse_never_returns_null (fuel : nat) (st : SaaamCompiler)
  (body : list Token) (eof_value : jsstring) (eof_position : nat) :
  tokens st = body ++ [mkToken EOF eof_value eof_position] ->
  (fst (parse fuel st) = OutOfFuel
   \/ exists statements, fst (parse fuel st) = Ret (Some (Program statements)))
  /\ currentToken (snd (parse fuel st)) <= length body.
Proof.
  intros Ht. destruct (parse fuel st) as [o st'] eqn:E.
  destruct (parse_spec body eof_value eof_position fuel st o st' Ht E)
    as (Ho & [_ Hc] & _).
  split; [exact Ho|exact Hc].
Qed.

(** The tokens of [var a; )]. *)
Lemma parse_never_returns_null_witness :
  (fst (parse 20
          (mkCompiler
             ([mkToken KEYWORD (utf16 "var") 0; mkToken IDENTIFIER (utf16 "a") 4;
               mkToken PUNCTUATION (utf16 ";") 5;
               mkToken PUNCTUATION (utf16 ")") 7] ++ [mkToken EOF [] 8])
             None 0 [] [])) = OutOfFuel
   \/ exists statements,
        fst (parse 20
               (mkCompiler
                  ([mkToken KEYWORD (utf16 "var") 0;
                    mkToken IDENTIFIER (utf16 "a") 4;
                    mkToken PUNCTUATION (utf16 ";") 5;
                    mkToken PUNCTUATION (utf16 ")") 7] ++ [mkToken EOF [] 8])
                  None 0 [] [])) = Ret (Some (Program statements)))
  /\ currentToken
       (snd (parse 20
               (mkCompiler
                  ([mkToken KEYWORD (utf16 "var") 0;
                    mkToken IDENTIFIER (utf16 "a") 4;
                    mkToken PUNCTUATION (utf16 ";") 5;
                    mkToken PUNCTUATION (utf16 ")") 7] ++ [mkToken EOF [] 8])
                  None 0 [] []))) <= 4.
Proof.
  apply (parse_never_returns_null 20 _
           [mkToken KEYWORD (utf16 "var") 0; mkToken IDENTIFIER (utf16 "a") 4;
            mkToken PUNCTUATION (utf16 ";") 5; mkToken PUNCTUATION (utf16 ")") 7]
           [] 8).
  reflexivity.
Defined.

(** X11.  [parse()] reads all the tokens: on tokens that end with their only
    [EOF] token, a run of [parse()] that returns has stopped at that
    token. *)
Theorem parse_stops_at_the_end (fuel : nat) (st : SaaamCompiler)
  (body : list Token) (eof_value : jsstring) (eof_position : nat)
  (tree : option ASTNode) (st' : SaaamCompiler) :
  tokens st = body ++ [mkToken EOF eof_value eof_position] ->
  forallb (fun t => negb (kind_eqb (type t) EOF)) body = true ->
  parse fuel st = (Ret tree, st') ->
  currentToken st' = length body
  /\ nth_error (tokens st') (currentToken st')
     = Some (mkToken EOF eof_value eof_position).
Proof.
  intros Ht Hbody E.
  destruct (parse_spec body eof_value eof_position fuel st _ st' Ht E)
    as (_ & [Ht' _] & Hc).
  assert (Hl : currentToken st' = length body)
    by (apply Hc; [exact Hbody|discriminate]).
  split; [exact Hl|]. rewrite Ht', Hl, nth_error_app2, Nat.sub_diag by apply le_n.
  reflexivity.
Qed.

(** The tokens of [var a; )]: the parser recovers from the [)] and goes
    on to the end. *)
Lemma parse_stops_at_the_end_witness :
  4 = 4
  /\ nth_error
       [mkToken KEYWORD (utf16 "var") 0; mkToken IDENTIFIER (utf16 "a") 4;
        mkToken PUNCTUATION (utf16 ";") 5; mkToken PUNCTUATION (utf16 ")") 7;
        mkToken EOF [] 8] 4
     = Some (mkToken EOF [] 8).
Proof.
  refine (parse_stops_at_the_end 20
            (mkCompiler
               ([mkToken KEYWORD (utf16 "var") 0; mkToken IDENTIFIER (utf16 "a") 4;
                 mkToken PUNCTUATION (utf16 ";") 5;
                 mkToken PUNCTUATION (utf16 ")") 7] ++ [mkToken EOF [] 8])
               None 0 [] [])
            [mkToken KEYWORD (utf16 "var") 0; mkToken IDENTIFIER (utf16 "a") 4;
             mkToken PUNCTUATION (utf16 ";") 5; mkToken PUNCTUATION (utf16 ")") 7]
            [] 8
            (Some (Program [VariableDeclaration (utf16 "var") (utf16 "a") None]))
            (mkCompiler
               [mkToken KEYWORD (utf16 "var") 0; mkToken IDENTIFIER (utf16 "a") 4;
                mkToken PUNCTUATION (utf16 ";") 5; mkToken PUNCTUATION (utf16 ")") 7;
                mkToken EOF [] 8]
               (Some (Program [VariableDeclaration (utf16 "var") (utf16 "a") None]))
               4
               [utf16 "Unexpected token: )"; utf16 "Parse error: Unexpected token: )"]
               [])
            _ _ _); vm_compute; reflexivity.
Defined.

(** ** The entry points on a stack *)

Lemma texts_of_agree {A} (f : A -> option jsstring) (g : A -> jsstring)
  (l : list A) (texts : list jsstring) :
  (forall x text, f x = Some text -> text = g x) ->
  texts_of f l = Some texts -> texts = map g l.
Proof.
  intros Hf. revert texts. induction l as [|x l IH]; intros texts; cbn [texts_of map].
  - intros [= <-]. reflexivity.
  - destruct (f x) as [text|] eqn:E; [|discriminate].
    destruct (texts_of f l) as [ts|]; [|discriminate].
    intros [= <-]. rewrite (Hf _ _ E), (IH ts eq_refl). reflexivity.
Qed.

(** Where the stack holds the tree, the text is that of [generateNode]. *)
Lemma generateNode_within_agrees (number_toString : jsstring -> jsstring)
  (stack : nat) :
  forall node text,
    generateNode_within number_toString stack node = Some text ->
    text = generateNode number_toString node.
Proof.
  induction stack as [|stack IH]; intros node text; [discriminate|].
  assert (Hopt : forall o : option ASTNode, forall t,
            match o with
            | Some n => generateNode_within number_toString stack n
            | None => Some []
            end = Some t ->
            t = match o with
                | Some n => generateNode number_toString n
                | None => []
                end).
  { intros [n|] t; [apply IH|intros [= <-]; reflexivity]. }
  destruct node; cbn [generateNode_within generateNode option_map].
  - destruct (texts_of _ body) as [ts|] eqn:E; [|discriminate].
    intros [= <-]. rewrite (texts_of_agree _ _ _ _ IH E). reflexivity.
  - destruct init as [i|]; [|intros [= <-]; reflexivity].
    destruct (generateNode_within _ stack i) as [t|] eqn:E; [|discriminate].
    intros [= <-]. rewrite (IH _ _ E). reflexivity.
  - destruct (generateNode_within _ stack node) as [t|] eqn:E; [|discriminate].
    intros [= <-]. rewrite (IH _ _ E). reflexivity.
  - destruct (texts_of _ statements) as [ts|] eqn:E; [|discriminate].
    intros [= <-]. rewrite (texts_of_agree _ _ _ _ IH E). reflexivity.
  - destruct (generateNode_within _ stack node) as [t|] eqn:E; [|discriminate].
    intros [= <-]. rewrite (IH _ _ E). reflexivity.
  - destruct (generateNode_within _ stack node1) as [c|] eqn:E1; [|discriminate].
    destruct (generateNode_within _ stack node2) as [t|] eqn:E2; [|discriminate].
    rewrite (IH _ _ E1), (IH _ _ E2).
    destruct alternate as [a|]; [|intros [= <-]; reflexivity].
    destruct (generateNode_within _ stack a) as [e|] eqn:E3; [|discriminate].
    intros [= <-]. rewrite (IH _ _ E3). reflexivity.
  - match goal with
    | |- match ?i with Some x => _ | None => None end = _ -> _ =>
        destruct i as [it|] eqn:Ei; [|discriminate]
    end.
    match goal with
    | |- match ?c with Some x => _ | None => None end = _ -> _ =>
        destruct c as [ct|] eqn:Ec; [|discriminate]
    end.
    match goal with
    | |- match ?u with Some x => _ | None => None end = _ -> _ =>
        destruct u as [ut|] eqn:Eu; [|discriminate]
    end.
    destruct (generateNode_within _ stack node) as [bt|] eqn:Eb; [|discriminate].
    intros [= <-]. rewrite (IH _ _ Eb), (Hopt _ _ Eu).
    assert (Hc : ct = match condition with
                      | Some c => generateNode number_toString c
                      | None => utf16 "true"
                      end).
    { destruct condition as [c|]; [apply IH; exact Ec|].
      injection Ec as <-. reflexivity. }
    assert (Hi : it = match init with
                      | Some (VariableDeclaration _ _ _ as i) =>
                          generateNode number_toString i
                      | Some i => generateNode number_toString i ++ utf16 ";"
                      | None => []
                      end).
    { destruct init as [i|]; [|injection Ei as <-; reflexivity].
      destruct i; cbn [option_map] in Ei;
        try (apply IH; exact Ei);
        (destruct (generateNode_within _ stack _) as [t|] eqn:E in Ei;
         [|discriminate]; injection Ei as <-; rewrite (IH _ _ E); reflexivity). }
    rewrite Hc, Hi. reflexivity.
  - destruct (generateNode_within _ stack node1) as [c|] eqn:E1; [|discriminate].
    destruct (generateNode_within _ stack node2) as [t|] eqn:E2; [|discriminate].
    intros [= <-]. rewrite (IH _ _ E1), (IH _ _ E2). reflexivity.
  - destruct (generateNode_within _ stack node1) as [c|] eqn:E1; [|discriminate].
    destruct (generateNode_within _ stack node2) as [t|] eqn:E2; [|discriminate].
    intros [= <-]. rewrite (IH _ _ E1), (IH _ _ E2). reflexivity.
  - destruct (generateNode_within _ stack node) as [d|] eqn:E1; [|discriminate].
    destruct (texts_of _ cases) as [clauses|] eqn:E2; [|discriminate].
    intros [= <-]. rewrite (IH _ _ E1).
    apply (texts_of_agree _ (generateCase number_toString)) in E2;
      [rewrite E2; reflexivity|].
    intros [test consequent] t. cbn [generateCase].
    destruct (match test with
              | Some t0 => _
              | None => Some (utf16 "default:" ++ nl)
              end) as [label|] eqn:El; [|discriminate].
    destruct (texts_of _ consequent) as [ls|] eqn:Ec; [|discriminate].
    intros [= <-].
    apply (texts_of_agree _ (fun stmt => indent (generateNode number_toString stmt) ++ nl))
      in Ec.
    + rewrite Ec. destruct test as [t0|].
      * cbn [option_map] in El.
        destruct (generateNode_within _ stack t0) as [x|] eqn:Et; [|discriminate].
        injection El as <-. rewrite (IH _ _ Et). reflexivity.
      * injection El as <-. reflexivity.
    + intros stmt t. destruct (generateNode_within _ stack stmt) as [x|] eqn:Es;
        [|discriminate]. cbn [option_map]. intros [= <-].
      rewrite (IH _ _ Es). reflexivity.
  - destruct argument as [a|]; [|intros [= <-]; reflexivity].
    destruct (generateNode_within _ stack a) as [t|] eqn:E; [|discriminate].
    intros [= <-]. rewrite (IH _ _ E). reflexivity.
  - intros [= <-]. reflexivity.
  - intros [= <-]. reflexivity.
  - intros [= <-]. reflexivity.
  - destruct (generateNode_within _ stack node1) as [c|] eqn:E1; [|discriminate].
    destruct (generateNode_within _ stack node2) as [t|] eqn:E2; [|discriminate].
    intros [= <-]. rewrite (IH _ _ E1), (IH _ _ E2). reflexivity.
  - destruct (generateNode_within _ stack node1) as [c|] eqn:E1; [|discriminate].
    destruct (generateNode_within _ stack node2) as [t|] eqn:E2; [|discriminate].
    intros [= <-]. rewrite (IH _ _ E1), (IH _ _ E2). reflexivity.
  - destruct (generateNode_within _ stack node) as [t|] eqn:E; [|discriminate].
    intros [= <-]. rewrite (IH _ _ E). reflexivity.
  - destruct (generateNode_within _ stack node) as [c|] eqn:E1; [|discriminate].
    destruct (texts_of _ arguments) as [args|] eqn:E2; [|discriminate].
    intros [= <-]. rewrite (IH _ _ E1), (texts_of_agree _ _ _ _ IH E2). reflexivity.
  - destruct property as [name|p].
    + destruct (generateNode_within _ stack node) as [o|] eqn:E; [|discriminate].
      intros [= <-]. rewrite (IH _ _ E). reflexivity.
    + destruct (generateNode_within _ stack node) as [o|] eqn:E1; [|discriminate].
      destruct (generateNode_within _ stack p) as [x|] eqn:E2; [|discriminate].
      intros [= <-]. rewrite (IH _ _ E1), (IH _ _ E2). reflexivity.
  - intros [= <-]. reflexivity.
  - destruct (generateNode_within _ stack node1) as [c|] eqn:E1; [|discriminate].
    destruct (generateNode_within _ stack node2) as [t|] eqn:E2; [|discriminate].
    intros [= <-]. rewrite (IH _ _ E1), (IH _ _ E2). reflexivity.
  - destruct (generateNode_within _ stack node1) as [a|] eqn:E1; [|discriminate].
    destruct (generateNode_within _ stack node2) as [b|] eqn:E2; [|discriminate].
    destruct (generateNode_within _ stack node3) as [c|] eqn:E3; [|discriminate].
    intros [= <-]. rewrite (IH _ _ E1), (IH _ _ E2), (IH _ _ E3). reflexivity.
  - destruct properties as [|q properties]; [intros [= <-]; reflexivity|].
    destruct (texts_of _ (q :: properties)) as [props|] eqn:E; [|discriminate].
    intros [= <-].
    apply (texts_of_agree _ (generateProperty number_toString)) in E;
      [rewrite E; reflexivity|].
    intros [key val computed] t. cbn [generateProperty]. destruct computed.
    + destruct (generateNode_within _ stack key) as [k|] eqn:E1; [|discriminate].
      destruct (generateNode_within _ stack val) as [v|] eqn:E2; [|discriminate].
      intros [= <-]. rewrite (IH _ _ E1), (IH _ _ E2). reflexivity.
    + destruct (generateNode_within _ stack val) as [v|] eqn:E2; [|discriminate].
      cbn [option_map]. intros [= <-]. rewrite (IH _ _ E2). reflexivity.
  - destruct (texts_of _ elements) as [ts|] eqn:E; [|discriminate].
    intros [= <-].
    apply (texts_of_agree _ (fun element => match element with
                                            | None => []
                                            | Some e => generateNode number_toString e
                                            end)) in E; [rewrite E; reflexivity|].
    intros [e|] t; [apply IH|intros [= <-]; reflexivity].
  - intros [= <-]. reflexivity.
  - intros [= <-]. reflexivity.
Qed.

(** [P] holds of every stack from some size on. *)
Definition deep_enough (P : nat -> Prop) : Prop :=
  exists enough, forall stack, enough <= stack -> P stack.

Lemma deep_enough_true : deep_enough (fun _ => True).
Proof. exists 0. auto. Qed.

Lemma deep_enough_and (P Q : nat -> Prop) :
  deep_enough P -> deep_enough Q -> deep_enough (fun stack => P stack /\ Q stack).
Proof.
  intros [p Hp] [q Hq]. exists (p + q). intros stack H.
  split; [apply Hp|apply Hq]; lia.
Qed.

Lemma deep_enough_next (P Q : nat -> Prop) :
  deep_enough P -> (forall stack, P stack -> Q (S stack)) -> deep_enough Q.
Proof.
  intros [p Hp] H. exists (S p). intros [|stack] Hs; [lia|].
  apply H, Hp. lia.
Qed.

Lemma deep_enough_all {A} (P : nat -> A -> Prop) (l : list A) :
  Forall (fun x => deep_enough (fun stack => P stack x)) l ->
  deep_enough (fun stack => Forall (P stack) l).
Proof.
  induction 1 as [|x l Hx _ IH].
  - exists 0. constructor.
  - destruct (deep_enough_and _ _ Hx IH) as [enough H]. exists enough.
    intros stack Hs. constructor; apply (H stack Hs).
Qed.

Lemma texts_of_all {A} (f : A -> option jsstring) (g : A -> jsstring)
  (l : list A) :
  Forall (fun x => f x = Some (g x)) l -> texts_of f l = Some (map g l).
Proof.
  induction 1 as [|x l Hx _ IH]; cbn [texts_of map]; [reflexivity|].
  rewrite Hx, IH. reflexivity.
Qed.

(** Every tree has a stack that holds the generator on it, and on any
    stack that does the generator returns the text of [generateNode]. *)
Fixpoint generateNode_within_enough (number_toString : jsstring -> jsstring)
  (node : ASTNode) {struct node} :
  deep_enough (fun stack =>
                 generateNode_within number_toString stack node
                 = Some (generateNode number_toString node)).
Proof.
  pose proof (generateNode_within_enough number_toString) as IH.
  assert (IHl : forall l : list ASTNode,
            Forall (fun n => deep_enough
                               (fun stack =>
                                  generateNode_within number_toString stack n
                                  = Some (generateNode number_toString n))) l ->
            deep_enough
              (fun stack =>
                 texts_of (generateNode_within number_toString stack) l
                 = Some (map (generateNode number_toString) l))).
  { intros l Hl. apply deep_enough_all in Hl. destruct Hl as [enough Hl].
    exists enough. intros stack Hs. apply texts_of_all. exact (Hl stack Hs). }
  destruct node.
  - eapply deep_enough_next; [apply (IHl body)|].
    + induction body as [|n l IHb]; constructor; [apply IH|exact IHb].
    + intros stack H. cbn [generateNode_within generateNode]. rewrite H.
      reflexivity.
  - assert (Hinit : deep_enough
                     (fun stack =>
                        match init with
                        | Some n => generateNode_within number_toString stack n
                                    = Some (generateNode number_toString n)
                        | None => True
                        end))
      by (destruct init as [child|]; [apply IH|apply deep_enough_true]).
    eapply deep_enough_next;
      [apply Hinit|].
    intros stack H. cbn [generateNode_within generateNode].
    destruct init as [i|]; [rewrite H|]; reflexivity.
  - eapply deep_enough_next; [apply (IH node)|].
    intros stack H. cbn [generateNode_within generateNode]. rewrite H.
    reflexivity.
  - eapply deep_enough_next; [apply (IHl statements)|].
    + induction statements as [|n l IHb]; constructor; [apply IH|exact IHb].
    + intros stack H. cbn [generateNode_within generateNode]. rewrite H.
      reflexivity.
  - eapply deep_enough_next; [apply (IH node)|].
    intros stack H. cbn [generateNode_within generateNode]. rewrite H.
    reflexivity.
  - assert (Halternate : deep_enough
                     (fun stack =>
                        match alternate with
                        | Some n => generateNode_within number_toString stack n
                                    = Some (generateNode number_toString n)
                        | None => True
                        end))
      by (destruct alternate as [child|]; [apply IH|apply deep_enough_true]).
    eapply deep_enough_next;
      [apply (deep_enough_and _ _ (IH node1)
                (deep_enough_and _ _ (IH node2)
                   Halternate))|].
    intros stack (H1 & H2 & H3). cbn [generateNode_within generateNode].
    rewrite H1, H2. destruct alternate as [a|]; [rewrite H3|]; reflexivity.
  - assert (Hinit : deep_enough
                     (fun stack =>
                        match init with
                        | Some n => generateNode_within number_toString stack n
                                    = Some (generateNode number_toString n)
                        | None => True
                        end))
      by (destruct init as [child|]; [apply IH|apply deep_enough_true]).
    assert (Hcondition : deep_enough
                     (fun stack =>
                        match condition with
                        | Some n => generateNode_within number_toString stack n
                                    = Some (generateNode number_toString n)
                        | None => True
                        end))
      by (destruct condition as [child|]; [apply IH|apply deep_enough_true]).
    assert (Hupdate : deep_enough
                     (fun stack =>
                        match update with
                        | Some n => generateNode_within number_toString stack n
                                    = Some (generateNode number_toString n)
                        | None => True
                        end))
      by (destruct update as [child|]; [apply IH|apply deep_enough_true]).
    eapply deep_enough_next;
      [apply (deep_enough_and _ _
                Hinit
                (deep_enough_and _ _
                   Hcondition
                   (deep_enough_and _ _
                      Hupdate
                      (IH node))))|].
    intros stack (H1 & H2 & H3 & H4). cbn [generateNode_within generateNode].
    destruct init as [i|]; [|].
    + destruct i; cbn [option_map]; rewrite ?H1; cbn [option_map];
        (destruct condition as [c|]; [rewrite H2|]);
        (destruct update as [u|]; [rewrite H3|]); rewrite H4; reflexivity.
    + destruct condition as [c|]; [rewrite H2|];
        (destruct update as [u|]; [rewrite H3|]); rewrite H4; reflexivity.
  - eapply deep_enough_next;
      [apply (deep_enough_and _ _ (IH node1) (IH node2))|].
    intros stack (H1 & H2). cbn [generateNode_within generateNode].
    rewrite H1, H2. reflexivity.
  - eapply deep_enough_next;
      [apply (deep_enough_and _ _ (IH node1) (IH node2))|].
    intros stack (H1 & H2). cbn [generateNode_within generateNode].
    rewrite H1, H2. reflexivity.
  - eapply deep_enough_next;
      [refine (deep_enough_and _ _ (IH node)
                (deep_enough_all
                   (fun stack c =>
                      match c with
                      | SwitchCase test consequent =>
                          match test with
                          | Some t =>
                              generateNode_within number_toString stack t
                              = Some (generateNode number_toString t)
                          | None => True
                          end
                          /\ texts_of (generateNode_within number_toString stack)
                               consequent
                             = Some (map (generateNode number_toString) consequent)
                      end) cases _))|].
    + induction cases as [|c l IHc]; constructor; [|exact IHc].
      destruct c as [test consequent]. apply deep_enough_and.
      * destruct test as [t|]; [apply IH|apply deep_enough_true].
      * apply IHl.
        induction consequent as [|n l' IHb]; constructor; [apply IH|exact IHb].
    + intros stack (H1 & H2). cbn [generateNode_within generateNode].
      rewrite H1.
      erewrite texts_of_all with (g := generateCase number_toString);
        [reflexivity|].
      eapply Forall_impl; [|exact H2]. cbv beta.
      intros [test consequent] (Ht & Hc). cbn [generateCase].
      assert (Hl : texts_of
                     (fun stmt =>
                        option_map (fun x => indent x ++ nl)
                          (generateNode_within number_toString stack stmt))
                     consequent
                   = Some (map (fun stmt =>
                                  indent (generateNode number_toString stmt) ++ nl)
                             consequent)).
      { clear Ht. revert Hc. generalize (map (generateNode number_toString) consequent).
        induction consequent as [|n l' IHb]; intros texts; cbn [texts_of map];
          [reflexivity|].
        destruct (generateNode_within number_toString stack n) as [x|] eqn:E;
          [|discriminate].
        destruct (texts_of _ l') as [xs|] eqn:E'; [|discriminate].
        intros [= <-]. cbn [option_map].
        rewrite (IHb _ eq_refl).
        rewrite (generateNode_within_agrees _ _ _ _ E). reflexivity. }
      rewrite Hl. destruct test as [t|]; [rewrite Ht|]; reflexivity.
  - assert (Hargument : deep_enough
                     (fun stack =>
                        match argument with
                        | Some n => generateNode_within number_toString stack n
                                    = Some (generateNode number_toString n)
                        | None => True
                        end))
      by (destruct argument as [child|]; [apply IH|apply deep_enough_true]).
    eapply deep_enough_next;
      [apply Hargument|].
    intros stack H. cbn [generateNode_within generateNode].
    destruct argument as [a|]; [rewrite H|]; reflexivity.
  - exists 1. intros [|stack] Hs; [lia|reflexivity].
  - exists 1. intros [|stack] Hs; [lia|reflexivity].
  - exists 1. intros [|stack] Hs; [lia|reflexivity].
  - eapply deep_enough_next;
      [apply (deep_enough_and _ _ (IH node1) (IH node2))|].
    intros stack (H1 & H2). cbn [generateNode_within generateNode].
    rewrite H1, H2. reflexivity.
  - eapply deep_enough_next;
      [apply (deep_enough_and _ _ (IH node1) (IH node2))|].
    intros stack (H1 & H2). cbn [generateNode_within generateNode].
    rewrite H1, H2. reflexivity.
  - eapply deep_enough_next; [apply (IH node)|].
    intros stack H. cbn [generateNode_within generateNode]. rewrite H.
    reflexivity.
  - eapply deep_enough_next;
      [refine (deep_enough_and _ _ (IH node) (IHl arguments _))|].
    + induction arguments as [|n l IHb]; constructor; [apply IH|exact IHb].
    + intros stack (H1 & H2). cbn [generateNode_within generateNode].
      rewrite H1, H2. reflexivity.
  - destruct property as [name|q].
    + eapply deep_enough_next; [apply (IH node)|].
      intros stack H. cbn [generateNode_within generateNode]. rewrite H.
      reflexivity.
    + eapply deep_enough_next;
        [apply (deep_enough_and _ _ (IH node) (IH q))|].
      intros stack (H1 & H2). cbn [generateNode_within generateNode].
      rewrite H1, H2. reflexivity.
  - exists 1. intros [|stack] Hs; [lia|reflexivity].
  - eapply deep_enough_next;
      [apply (deep_enough_and _ _ (IH node1) (IH node2))|].
    intros stack (H1 & H2). cbn [generateNode_within generateNode].
    rewrite H1, H2. reflexivity.
  - eapply deep_enough_next;
      [apply (deep_enough_and _ _ (IH node1)
                (deep_enough_and _ _ (IH node2) (IH node3)))|].
    intros stack (H1 & H2 & H3). cbn [generateNode_within generateNode].
    rewrite H1, H2, H3. reflexivity.
  - eapply deep_enough_next;
      [apply (deep_enough_all
                (fun stack q =>
                   match q with
                   | Property key val computed =>
                       generateNode_within number_toString stack key
                       = Some (generateNode number_toString key)
                       /\ generateNode_within number_toString stack val
                          = Some (generateNode number_toString val)
                   end) properties)|].
    + induction properties as [|q l IHq]; constructor; [|exact IHq].
      destruct q as [key val computed]. apply deep_enough_and; apply IH.
    + intros stack H. cbn [generateNode_within generateNode].
      destruct properties as [|q l]; [reflexivity|].
      erewrite texts_of_all with (g := generateProperty number_toString);
        [reflexivity|].
      eapply Forall_impl; [|exact H]. cbv beta.
      intros [key val computed] (Hk & Hv). cbn [generateProperty].
      destruct computed; rewrite ?Hk, Hv; reflexivity.
  - eapply deep_enough_next;
      [apply (deep_enough_all
                (fun stack e =>
                   match e with
                   | Some n => generateNode_within number_toString stack n
                               = Some (generateNode number_toString n)
                   | None => True
                   end) elements)|].
    + induction elements as [|e l IHe]; constructor; [|exact IHe].
      destruct e as [n|]; [apply IH|apply deep_enough_true].
    + intros stack H. cbn [generateNode_within generateNode].
      erewrite texts_of_all
        with (g := fun element => match element with
                                  | None => []
                                  | Some e => generateNode number_toString e
                                  end);
        [reflexivity|].
      eapply Forall_impl; [|exact H]. cbv beta.
      intros [n|] Hn; [exact Hn|reflexivity].
  - exists 1. intros [|stack] Hs; [lia|reflexivity].
  - exists 1. intros [|stack] Hs; [lia|reflexivity].
Qed.

Lemma walk_all_inl {A} (f : A -> walk -> walk_result) (g : A -> walk -> walk)
  (l : list A) :
  Forall (fun x => forall w, f x w = inl (g x w)) l ->
  forall w, walk_all f l w = inl (fold_left (fun w x => g x w) l w).
Proof.
  induction 1 as [|x l Hx _ IH]; intros w; cbn [walk_all fold_left];
    [reflexivity|].
  rewrite Hx. cbn [and_then]. apply IH.
Qed.

(** Every tree has a stack that holds the walk over it, and on any stack
    that does the walk ends as [visit] does. *)
Fixpoint visit_within_enough (node : ASTNode) {struct node} :
  deep_enough (fun stack => forall w, visit_within stack node w = inl (visit node w))
with visit_case_within_enough (c : SwitchCaseNode) {struct c} :
  deep_enough (fun stack =>
                 forall w, visit_case_within stack c w = inl (visit_case c w))
with visit_property_within_enough (p : PropertyNode) {struct p} :
  deep_enough (fun stack =>
                 forall w,
                   visit_property_within stack p w = inl (visit_property p w)).
Proof.
  - assert (Hopt : forall o : option ASTNode,
              match o with
              | Some n => deep_enough (fun stack => forall w,
                                         visit_within stack n w = inl (visit n w))
              | None => True
              end ->
              deep_enough
                (fun stack => forall w,
                   walk_option (visit_within stack) o w
                   = inl (visit_option visit o w))).
    { intros [n|] H; [exact H|]. exists 0. reflexivity. }
    assert (Hall : forall l : list ASTNode,
              Forall (fun n => deep_enough (fun stack => forall w,
                                              visit_within stack n w
                                              = inl (visit n w))) l ->
              deep_enough
                (fun stack => forall w,
                   walk_all (visit_within stack) l w
                   = inl (fold_left (fun w n => visit n w) l w))).
    { intros l Hl. apply deep_enough_all in Hl. destruct Hl as [enough Hl].
      exists enough. intros stack Hs.
      apply (walk_all_inl _ (fun n w => visit n w)). exact (Hl stack Hs). }
    destruct node.
    + eapply deep_enough_next; [refine (Hall body _)|].
      * induction body as [|n l IHb]; constructor;
          [apply visit_within_enough|exact IHb].
      * intros stack H w. cbn [visit_within visit]. apply H.
    + eapply deep_enough_next; [refine (Hopt init _)|].
      * destruct init as [i|]; [apply visit_within_enough|exact I].
      * intros stack H w. cbn [visit_within visit]. apply H.
    + eapply deep_enough_next; [apply (visit_within_enough node)|].
      intros stack H w. cbn [visit_within visit]. apply H.
    + eapply deep_enough_next; [refine (Hall statements _)|].
      * induction statements as [|n l IHb]; constructor;
          [apply visit_within_enough|exact IHb].
      * intros stack H w. cbn [visit_within visit]. apply H.
    + eapply deep_enough_next; [apply (visit_within_enough node)|].
      intros stack H w. cbn [visit_within visit]. apply H.
    + eapply deep_enough_next;
        [refine (deep_enough_and _ _ (visit_within_enough node1)
                   (deep_enough_and _ _ (visit_within_enough node2)
                      (Hopt alternate _)))|].
      * destruct alternate as [a|]; [apply visit_within_enough|exact I].
      * intros stack (H1 & H2 & H3) w. cbn [visit_within visit].
        rewrite H1. cbn [and_then]. rewrite H2. cbn [and_then]. apply H3.
    + eapply deep_enough_next;
        [refine (deep_enough_and _ _ (Hopt init _)
                   (deep_enough_and _ _ (Hopt condition _)
                      (deep_enough_and _ _ (Hopt update _)
                         (visit_within_enough node))))|].
      * destruct init as [i|]; [apply visit_within_enough|exact I].
      * destruct condition as [i|]; [apply visit_within_enough|exact I].
      * destruct update as [i|]; [apply visit_within_enough|exact I].
      * intros stack (H1 & H2 & H3 & H4) w. cbn [visit_within visit].
        rewrite H1. cbn [and_then]. rewrite H2. cbn [and_then].
        rewrite H3. cbn [and_then]. apply H4.
    + eapply deep_enough_next;
        [apply (deep_enough_and _ _ (visit_within_enough node1)
                  (visit_within_enough node2))|].
      intros stack (H1 & H2) w. cbn [visit_within visit].
      rewrite H1. cbn [and_then]. apply H2.
    + eapply deep_enough_next;
        [apply (deep_enough_and _ _ (visit_within_enough node1)
                  (visit_within_enough node2))|].
      intros stack (H1 & H2) w. cbn [visit_within visit].
      rewrite H1. cbn [and_then]. apply H2.
    + eapply deep_enough_next;
        [refine (deep_enough_and _ _ (visit_within_enough node)
                   (deep_enough_all
                      (fun stack c => forall w,
                         visit_case_within stack c w = inl (visit_case c w))
                      cases _))|].
      * induction cases as [|c l IHc]; constructor;
          [apply visit_case_within_enough|exact IHc].
      * intros stack (H1 & H2) w. cbn [visit_within visit].
        rewrite H1. cbn [and_then].
        apply (walk_all_inl _ (fun c w => visit_case c w)). exact H2.
    + eapply deep_enough_next; [refine (Hopt argument _)|].
      * destruct argument as [i|]; [apply visit_within_enough|exact I].
      * intros stack H w. cbn [visit_within visit]. apply H.
    + exists 1. intros [|stack] Hs w; [lia|reflexivity].
    + exists 1. intros [|stack] Hs w; [lia|reflexivity].
    + exists 1. intros [|stack] Hs w; [lia|reflexivity].
    + eapply deep_enough_next;
        [apply (deep_enough_and _ _ (visit_within_enough node1)
                  (visit_within_enough node2))|].
      intros stack (H1 & H2) w. cbn [visit_within visit].
      rewrite H1. cbn [and_then]. apply H2.
    + eapply deep_enough_next;
        [apply (deep_enough_and _ _ (visit_within_enough node1)
                  (visit_within_enough node2))|].
      intros stack (H1 & H2) w. cbn [visit_within visit].
      rewrite H1. cbn [and_then]. apply H2.
    + eapply deep_enough_next; [apply (visit_within_enough node)|].
      intros stack H w. cbn [visit_within visit]. apply H.
    + eapply deep_enough_next;
        [refine (deep_enough_and _ _ (visit_within_enough node)
                   (Hall arguments _))|].
      * induction arguments as [|n l IHb]; constructor;
          [apply visit_within_enough|exact IHb].
      * intros stack (H1 & H2) w. cbn [visit_within visit].
        rewrite H1. cbn [and_then]. apply H2.
    + destruct property as [name|q].
      * eapply deep_enough_next; [apply (visit_within_enough node)|].
        intros stack H w. cbn [visit_within visit]. apply H.
      * eapply deep_enough_next;
          [apply (deep_enough_and _ _ (visit_within_enough node)
                    (visit_within_enough q))|].
        intros stack (H1 & H2) w. cbn [visit_within visit].
        rewrite H1. cbn [and_then]. apply H2.
    + exists 1. intros [|stack] Hs w; [lia|reflexivity].
    + eapply deep_enough_next;
        [apply (deep_enough_and _ _ (visit_within_enough node1)
                  (visit_within_enough node2))|].
      intros stack (H1 & H2) w. cbn [visit_within visit].
      rewrite H1. cbn [and_then]. apply H2.
    + eapply deep_enough_next;
        [apply (deep_enough_and _ _ (visit_within_enough node1)
                  (deep_enough_and _ _ (visit_within_enough node2)
                     (visit_within_enough node3)))|].
      intros stack (H1 & H2 & H3) w. cbn [visit_within visit].
      rewrite H1. cbn [and_then]. rewrite H2. cbn [and_then]. apply H3.
    + eapply deep_enough_next;
        [refine (deep_enough_all
                   (fun stack q => forall w,
                      visit_property_within stack q w
                      = inl (visit_property q w))
                   properties _)|].
      * induction properties as [|q l IHq]; constructor;
          [apply visit_property_within_enough|exact IHq].
      * intros stack H w. cbn [visit_within visit].
        apply (walk_all_inl _ (fun q w => visit_property q w)). exact H.
    + eapply deep_enough_next;
        [refine (deep_enough_all
                   (fun stack e => forall w,
                      walk_option (visit_within stack) e w
                      = inl (visit_option visit e w))
                   elements _)|].
      * induction elements as [|e l IHe]; constructor; [|exact IHe].
        apply Hopt. destruct e as [n|]; [apply visit_within_enough|exact I].
      * intros stack H w. cbn [visit_within visit].
        apply (walk_all_inl _ (fun e w => visit_option visit e w)). exact H.
    + exists 1. intros [|stack] Hs w; [lia|]. cbn [visit_within visit].
      destruct (is_predefined name); [reflexivity|].
      destruct (usage_get (fst w) name) as [[declared used]|]; reflexivity.
    + exists 1. intros [|stack] Hs w; [lia|reflexivity].
  - destruct c as [test consequent].
    assert (Ht : deep_enough
                   (fun stack => forall w,
                      walk_option (visit_within stack) test w
                      = inl (visit_option visit test w))).
    { destruct test as [t|]; [apply visit_within_enough|].
      exists 0. reflexivity. }
    assert (Hc : deep_enough
                   (fun stack =>
                      Forall (fun n => forall w,
                                visit_within stack n w = inl (visit n w))
                        consequent)).
    { apply deep_enough_all.
      induction consequent as [|n l IHb]; constructor;
        [apply visit_within_enough|exact IHb]. }
    eapply deep_enough_next; [apply (deep_enough_and _ _ Ht Hc)|].
    intros stack (H1 & H2) w. cbn [visit_case_within visit_case].
    rewrite H1. cbn [and_then].
    apply (walk_all_inl _ (fun n w => visit n w)). exact H2.
  - destruct p as [key val computed].
    eapply deep_enough_next;
      [apply (deep_enough_and _ _ (visit_within_enough key)
                (visit_within_enough val))|].
    intros stack (H1 & H2) w. cbn [visit_property_within visit_property].
    rewrite H1. cbn [and_then]. apply H2.
Qed.

(** On a stack that is deep enough for the tree that the parser makes of the
    source, [compile] and [compileToJS] are the functions on a stack that
    holds every tree. *)
Lemma compile_within_enough (number_toString : jsstring -> jsstring)
  (fuel : nat) (code : jsstring) (st : SaaamCompiler) :
  exists enough,
    forall walk_stack emit_stack,
      enough <= walk_stack -> enough <= emit_stack ->
      compile_within number_toString walk_stack emit_stack fuel code st
      = compile number_toString fuel code st
      /\ compileToJS_within number_toString walk_stack emit_stack fuel code st
         = compileToJS number_toString fuel code st.
Proof.
  assert (H : exists enough,
            forall walk_stack emit_stack,
              enough <= walk_stack -> enough <= emit_stack ->
              compile_within number_toString walk_stack emit_stack fuel code st
              = compile number_toString fuel code st).
  { unfold compile_within, compile, bind, try_catch, reset, tokenize.
    cbn [errors]. destruct (tokenize_fuel _ code _) as [[toks errs]|];
      [|exists 0; reflexivity].
    destruct (parse fuel _) as [[tree|message|] s1];
      [|exists 0; reflexivity|exists 0; reflexivity].
    unfold set_ast, analyzeCode_within, analyzeCode, optimizeCode,
      generate_within, generate, get_state, ret.
    cbn [ast tokens currentToken errors warnings].
    destruct tree as [root|]; [|exists 0; reflexivity].
    destruct (deep_enough_and _ _ (visit_within_enough root)
                (generateNode_within_enough number_toString root))
      as [enough H].
    exists enough. intros walk_stack emit_stack Hw He.
    rewrite (proj1 (H walk_stack Hw)). cbn [ast].
    rewrite (proj2 (H emit_stack He)). reflexivity. }
  destruct H as [enough H]. exists enough.
  intros walk_stack emit_stack Hw He. split; [apply H; assumption|].
  unfold compileToJS_within, compileToJS, bind. rewrite (H _ _ Hw He).
  reflexivity.
Qed.

(** The message that the [catch] of [compile] records for the exception of
    the call stack. *)
Definition stack_overflow_error : jsstring :=
  utf16 "Compilation error: " ++ stack_overflow.

(** What [compile] returns when it returns: the tree is the program that the
    parser has made, and the text is that of the generator unless the walk of
    the analysis or the generator has gone beyond the stack. *)
Lemma compile_within_returns (number_toString : jsstring -> jsstring)
  (walk_stack emit_stack fuel : nat) (code : jsstring)
  (st st' : SaaamCompiler) (r : CompileResult) :
  compile_within number_toString walk_stack emit_stack fuel code st
  = (Ret r, st') ->
  exists statements,
    let root := Program statements in
    result_ast r = Some root
    /\ result_errors r = errors st'
    /\ result_warnings r = warnings st'
    /\ (holds_walk (visit_within walk_stack root ([], [])) = true
        /\ generateNode_within number_toString emit_stack root
           = Some (generateNode number_toString root)
        /\ js r = Some (generateNode number_toString root)
        /\ success r = (length (errors st') =? 0)
        \/ (holds_walk (visit_within walk_stack root ([], [])) = false
            \/ generateNode_within number_toString emit_stack root = None)
           /\ js r = None
           /\ success r = false
           /\ exists earlier, errors st' = earlier ++ [stack_overflow_error]).
Proof.
  destruct (tokenize_runs code []) as (toks & lex & Hrun).
  unfold compile_within, bind, try_catch, reset, tokenize, tokenize_fuel.
  cbn [errors]. rewrite Hrun. cbn [ast currentToken warnings].
  set (s0 := mkCompiler (toks ++ [eof_token code]) None 0 lex []).
  destruct (parse fuel s0) as [o1 s1] eqn:Ep.
  destruct (parse_spec toks [] (length code) fuel s0 o1 s1 eq_refl Ep)
    as ([->|[statements ->]] & _ & _); [discriminate|].
  intros H. exists statements. cbv zeta. revert H.
  unfold set_ast, optimizeCode, get_state, ret.
  match goal with |- context [analyzeCode_within walk_stack ?s] =>
    set (s2 := s);
    destruct (analyzeCode_within_spec walk_stack s2)
      as (Ha & Ht & Haa & Hc & He & Hw);
    destruct (analyzeCode_within walk_stack s2) as [oa sa] eqn:Ea
  end.
  cbn [fst snd] in *. cbn [s2 ast] in Haa.
  destruct Ha as [[Ha Hh]|[Ha (root & Hr & Hh)]].
  - unfold analyzeCode in Ha. cbn [s2 ast] in Ha. injection Ha as -> _.
    specialize (Hh _ eq_refl).
    unfold generate_within. rewrite Haa.
    destruct (generateNode_within number_toString emit_stack (Program statements))
      as [text|] eqn:Eg.
    + pose proof (generateNode_within_agrees _ _ _ _ Eg) as ->.
      intros [= <- <-]. cbn [result_ast result_errors result_warnings js success].
      split; [exact Haa|]. do 2 (split; [reflexivity|]). left. auto.
    + unfold addError. cbn [tokens ast currentToken errors warnings].
      intros [= <- <-]. cbn [result_ast result_errors result_warnings js success
                              errors warnings].
      split; [exact Haa|]. do 2 (split; [reflexivity|]). right.
      split; [right; reflexivity|]. do 2 (split; [reflexivity|]).
      exists (errors sa). reflexivity.
  - subst oa. cbn [s2 ast] in Hr. injection Hr as <-.
    unfold addError. cbn [tokens ast currentToken errors warnings].
    intros [= <- <-]. cbn [result_ast result_errors result_warnings js success
                            errors warnings].
    split; [exact Haa|]. do 2 (split; [reflexivity|]). right.
    split; [left; exact Hh|]. do 2 (split; [reflexivity|]).
    exists (errors sa). reflexivity.
Qed.

(** C4, as the code has it.  [compile] does not look at the errors before it
    runs the generator: it runs it whenever the lexer, the parser and the
    analysis have returned.  The text [js] of its result is the text
    generated from the tree that the parser recovered, errors or not; it is
    null only where the [catch] of [compile] was reached, that is where the
    walk of the analysis or the generator needed more nested calls than the
    stack holds, and then [success] is false and the last error is that of
    the exception.  [success] is true exactly when no error was recorded.  It
    is [compileToJS] that looks at the flag: when it is false the text it
    returns is the header comment followed by all the error messages, each
    after a line break and a comment mark, and nothing of the generated
    text; when it is true, the generated text between the two parts of the
    wrapper. *)
Theorem generator_runs_unless_the_stack_overflows
  (number_toString : jsstring -> jsstring) (walk_stack emit_stack fuel : nat)
  (code : jsstring) (st st' : SaaamCompiler) (r : CompileResult) :
  compile_within number_toString walk_stack emit_stack fuel code st
  = (Ret r, st') ->
  exists root,
    result_ast r = Some root
    /\ result_errors r = errors st'
    /\ (success r = true <-> result_errors r = [])
    /\ match js r with
       | Some text =>
           text = generateNode number_toString root
           /\ (exists w, visit_within walk_stack root ([], []) = inl w)
           /\ generateNode_within number_toString emit_stack root = Some text
       | None =>
           ((exists found, visit_within walk_stack root ([], []) = inr found)
            \/ generateNode_within number_toString emit_stack root = None)
           /\ success r = false
           /\ exists earlier,
                result_errors r
                = earlier
                    ++ [utf16 "Compilation error: Maximum call stack size exceeded"]
       end
    /\ compileToJS_within number_toString walk_stack emit_stack fuel code st
       = (Ret (if success r
               then wrapper_prologue
                      ++ indent (generateNode number_toString root)
                      ++ wrapper_epilogue
               else utf16 "// Compilation failed with errors:" ++ nl
                      ++ utf16 "// "
                      ++ join (nl ++ utf16 "// ") (result_errors r)),
          st').
Proof.
  intros H.
  destruct (compile_within_returns _ _ _ _ _ _ _ _ H)
    as (statements & Hast & Herr & _ & Hjs).
  cbv zeta in *. exists (Program statements).
  split; [exact Hast|]. split; [exact Herr|].
  unfold compileToJS_within, bind. rewrite H.
  destruct Hjs as [(Hw & Hg & -> & Hs)|(Hx & -> & Hs & earlier & He)].
  - split; [|split].
    + rewrite Hs, Herr. destruct (errors st'); cbn [length Nat.eqb]; split;
        congruence.
    + split; [reflexivity|]. split; [|exact Hg].
      apply holds_walk_true. exact Hw.
    + destruct (success r); reflexivity.
  - split; [|split].
    + rewrite Hs, Herr, He. split; [discriminate|].
      destruct earlier; discriminate.
    + split; [|split; [exact Hs|]].
      * destruct Hx as [Hx|Hx]; [left|right; exact Hx].
        apply holds_walk_false. exact Hx.
      * exists earlier. rewrite Herr. exact He.
    + rewrite Hs. reflexivity.
Qed.

(** At [var a; )] the parser records an error at the parenthesis, and the
    text that [compileToJS] returns is the header with the two messages. *)
Lemma generator_runs_unless_the_stack_overflows_witness :
  compileToJS_within lexeme_text 64 64 20 (utf16 "var a; )") new_compiler
  = (Ret (utf16 "// Compilation failed with errors:" ++ nl
            ++ utf16 "// Unexpected token: )" ++ nl
            ++ utf16 "// Parse error: Unexpected token: )"),
     mkCompiler
       [ mkToken KEYWORD (utf16 "var") 0; mkToken IDENTIFIER (utf16 "a") 4;
         mkToken PUNCTUATION (utf16 ";") 5; mkToken PUNCTUATION (utf16 ")") 7;
         mkToken EOF [] 8 ]
       (Some (Program [VariableDeclaration (utf16 "var") (utf16 "a") None]))
       4
       [ utf16 "Unexpected token: )"; utf16 "Parse error: Unexpected token: )" ]
       [ utf16 "Variable 'a' is declared but never used" ]).
Proof.
  assert (H : compile_within lexeme_text 64 64 20 (utf16 "var a; )") new_compiler
              = (Ret (mkResult false (Some (utf16 "var a;"))
                        [ utf16 "Unexpected token: )";
                          utf16 "Parse error: Unexpected token: )" ]
                        [ utf16 "Variable 'a' is declared but never used" ]
                        (Some (Program [VariableDeclaration (utf16 "var")
                                          (utf16 "a") None]))),
                 mkCompiler
                   [ mkToken KEYWORD (utf16 "var") 0;
                     mkToken IDENTIFIER (utf16 "a") 4;
                     mkToken PUNCTUATION (utf16 ";") 5;
                     mkToken PUNCTUATION (utf16 ")") 7;
                     mkToken EOF [] 8 ]
                   (Some (Program [VariableDeclaration (utf16 "var")
                                     (utf16 "a") None]))
                   4
                   [ utf16 "Unexpected token: )";
                     utf16 "Parse error: Unexpected token: )" ]
                   [ utf16 "Variable 'a' is declared but never used" ]))
    by (vm_compute; reflexivity).
  destruct (generator_runs_unless_the_stack_overflows _ _ _ _ _ _ _ _ H)
    as (root & _ & _ & _ & _ & E).
  exact E.
Defined.

(** C4, as stated, fails: at [var a; )] an error is recorded and [success] is
    false, yet the generator has run and the text that [compile] returns is
    the statement [var a;], neither null nor a comment. *)
Lemma generated_code_despite_errors :
  exists r,
    fst (compile_within lexeme_text 64 64 20 (utf16 "var a; )") new_compiler)
    = Ret r
    /\ success r = false
    /\ result_errors r
       = [ utf16 "Unexpected token: )"; utf16 "Parse error: Unexpected token: )" ]
    /\ js r = Some (utf16 "var a;")
    /\ starts_with (utf16 "//") (utf16 "var a;") = false.
Proof. eexists. split; [vm_compute; reflexivity|]. repeat split. Qed.

(** The text is null where the stack does not hold the tree: the tree of
    [- - - a;] has six levels, and on a stack of five calls of
    [generateNode], or one of five calls of [visit], [compile] returns no
    text, with the error of the exception. *)
Example no_text_when_the_stack_overflows :
  let tree :=
    Program
      [ExpressionStatement
         (UnaryExpression (utf16 "-")
            (UnaryExpression (utf16 "-")
               (UnaryExpression (utf16 "-")
                  (Identifier (utf16 "a") (Some false)))))] in
  fst (compile_within lexeme_text 64 64 20 (utf16 "- - - a;") new_compiler)
  = Ret (mkResult true (Some (utf16 "---a;")) []
           [utf16 "Variable 'a' is used but not declared"] (Some tree))
  /\ fst (compile_within lexeme_text 64 5 20 (utf16 "- - - a;") new_compiler)
     = Ret (mkResult false None
              [utf16 "Compilation error: Maximum call stack size exceeded"]
              [utf16 "Variable 'a' is used but not declared"] (Some tree))
  /\ fst (compile_within lexeme_text 5 64 20 (utf16 "- - - a;") new_compiler)
     = Ret (mkResult false None
              [utf16 "Compilation error: Maximum call stack size exceeded"]
              [] (Some tree))
  /\ fst (compileToJS_within lexeme_text 5 64 20 (utf16 "- - - a;") new_compiler)
     = Ret (utf16 "// Compilation failed with errors:" ++ nl
              ++ utf16 "// Compilation error: Maximum call stack size exceeded").
Proof. repeat split; vm_compute; reflexivity. Qed.

(** X12.  [compile] always has a tree to return, and a text unless the call
    stack overflowed: whatever the source and its errors, the [ast] of the
    result is a [Program] node, and [js] is the text generated from it, the
    statements' texts one to a line.  The [catch] of [compile], which
    returns no text, is reached only by the exception of the call stack,
    from the walk of the analysis or from the generator: then [success] is
    false and the last error is that of the exception. *)
Theorem compile_returns_a_program_and_its_text
  (number_toString : jsstring -> jsstring) (walk_stack emit_stack fuel : nat)
  (code : jsstring) (r : CompileResult) :
  fst (compile_within number_toString walk_stack emit_stack fuel code
         new_compiler)
  = Ret r ->
  exists statements,
    result_ast r = Some (Program statements)
    /\ (js r = Some (join nl (map (generateNode number_toString) statements))
        \/ js r = None
           /\ success r = false
           /\ exists earlier,
                result_errors r
                = earlier
                    ++ [utf16 "Compilation error: Maximum call stack size exceeded"]).
Proof.
  destruct (compile_within _ _ _ _ _ _) as [o st'] eqn:E. cbn [fst].
  intros ->.
  destruct (compile_within_returns _ _ _ _ _ _ _ _ E)
    as (statements & Hast & Herr & _ & Hjs).
  cbv zeta in *. exists statements. split; [exact Hast|].
  destruct Hjs as [(_ & _ & Hj & _)|(_ & Hj & Hs & earlier & He)].
  - left. exact Hj.
  - right. split; [exact Hj|]. split; [exact Hs|].
    exists earlier. rewrite Herr. exact He.
Qed.

(** [var a; )] *)
Lemma compile_returns_a_program_and_its_text_witness :
  exists statements,
    Some (Program [VariableDeclaration (utf16 "var") (utf16 "a") None])
    = Some (Program statements)
    /\ (Some (utf16 "var a;")
        = Some (join nl (map (generateNode lexeme_text) statements))
        \/ Some (utf16 "var a;") = None
           /\ false = false
           /\ exists earlier,
                [utf16 "Unexpected token: )";
                 utf16 "Parse error: Unexpected token: )"]
                = earlier
                    ++ [utf16 "Compilation error: Maximum call stack size exceeded"]).
Proof.
  refine (compile_returns_a_program_and_its_text lexeme_text 64 64 20
            (utf16 "var a; )")
            (mkResult false (Some (utf16 "var a;"))
               [utf16 "Unexpected token: )"; utf16 "Parse error: Unexpected token: )"]
               [utf16 "Variable 'a' is declared but never used"]
               (Some (Program [VariableDeclaration (utf16 "var") (utf16 "a") None])))
            _).
  vm_compute. reflexivity.
Defined.

(** ** The generator: lines and quotes *)

Lemma split_on_not_nil (sep : code_unit) (s : jsstring) : split_on sep s <> [].
Proof.
  destruct s as [|c s]; cbn [split_on]; [discriminate|].
  destruct (N.eqb c sep); [discriminate|].
  destruct (split_on sep s); discriminate.
Qed.

Lemma split_on_lines (sep : code_unit) (s : jsstring) :
  Forall (fun line => ~ In sep line) (split_on sep s).
Proof.
  induction s as [|c s IH]; cbn [split_on].
  - constructor; [intros []|constructor].
  - destruct (N.eqb c sep) eqn:E.
    + constructor; [intros []|exact IH].
    + apply N.eqb_neq in E.
      destruct (split_on sep s) as [|line rest].
      * constructor; [|constructor]. intros [C|[]]. congruence.
      * inversion IH as [|? ? Hline Hrest]; subst. constructor; [|exact Hrest].
        intros [C|C]; [congruence|contradiction].
Qed.

Lemma join_cons (sep x : jsstring) (l : list jsstring) :
  l <> [] -> join sep (x :: l) = x ++ sep ++ join sep l.
Proof. destruct l; [contradiction|reflexivity]. Qed.

Lemma join_split_on (sep : code_unit) (s : jsstring) :
  join [sep] (split_on sep s) = s.
Proof.
  induction s as [|c s IH]; cbn [split_on]; [reflexivity|].
  destruct (N.eqb c sep) eqn:E.
  - apply N.eqb_eq in E. subst c.
    rewrite join_cons by apply split_on_not_nil. rewrite IH. reflexivity.
  - pose proof (split_on_not_nil sep s) as Hn.
    destruct (split_on sep s) as [|line rest]; [contradiction|].
    destruct rest as [|line' rest].
    + cbn [join] in *. rewrite IH. reflexivity.
    + rewrite join_cons by discriminate. rewrite join_cons in IH by discriminate.
      rewrite <- IH. reflexivity.
Qed.

Lemma split_on_app_line (sep : code_unit) (line s : jsstring) :
  ~ In sep line ->
  split_on sep (line ++ sep :: s) = line :: split_on sep s.
Proof.
  induction line as [|c line IH]; intros Hn; cbn [app split_on].
  - rewrite N.eqb_refl. reflexivity.
  - destruct (N.eqb c sep) eqn:E.
    + apply N.eqb_eq in E. exfalso. apply Hn. left. exact E.
    + rewrite IH by (intros C; apply Hn; right; exact C). reflexivity.
Qed.

Lemma split_on_one_line (sep : code_unit) (line : jsstring) :
  ~ In sep line -> split_on sep line = [line].
Proof.
  induction line as [|c line IH]; intros Hn; cbn [split_on]; [reflexivity|].
  destruct (N.eqb c sep) eqn:E.
  - apply N.eqb_eq in E. exfalso. apply Hn. left. exact E.
  - rewrite IH by (intros C; apply Hn; right; exact C). reflexivity.
Qed.

Lemma split_on_join (sep : code_unit) (l : list jsstring) :
  l <> [] -> Forall (fun line => ~ In sep line) l ->
  split_on sep (join [sep] l) = l.
Proof.
  induction l as [|x l IH]; intros Hne Hall; [contradiction|].
  inversion Hall as [|? ? Hx Hl]; subst.
  destruct l as [|y l].
  - cbn [join]. apply split_on_one_line. exact Hx.
  - rewrite join_cons by discriminate. cbn [app].
    rewrite split_on_app_line by exact Hx.
    rewrite IH; [reflexivity|discriminate|exact Hl].
Qed.

(** X13.  [indent] works line by line: the lines of the indented text are
    the lines of the text, each after two spaces, as many as before; taking
    the first two code units off every line gives the text back. *)
Theorem indent_puts_two_spaces_before_every_line (code : jsstring) :
  lines (indent code) = map (fun line => utf16 "  " ++ line) (lines code)
  /\ length (lines (indent code)) = length (lines code)
  /\ join nl (map (skipn 2) (lines (indent code))) = code.
Proof.
  assert (H : lines (indent code)
              = map (fun line => utf16 "  " ++ line) (lines code)).
  { unfold lines, indent, nl. apply split_on_join.
    - pose proof (split_on_not_nil 10%N code) as Hn.
      destruct (split_on 10%N code); [contradiction|discriminate].
    - apply Forall_map. eapply Forall_impl; [|apply split_on_lines].
      cbv beta. intros line Hline [C|[C|C]]; [discriminate C|discriminate C|].
      exact (Hline C). }
  split; [exact H|]. split; [rewrite H; apply length_map|].
  rewrite H, map_map. cbn [utf16 list_ascii_of_string map app skipn].
  rewrite map_id. apply join_split_on.
Qed.

(** X14.  In the text that the generator writes between the quotes of a
    string literal, every double quote stands after a backslash, and none is
    the first code unit; a value without a double quote is written as it
    is, and no value gets shorter. *)
Theorem escaped_quotes_follow_a_backslash (s : jsstring) :
  (forall i, nth_error (escape_quotes s) (S i) = Some 34%N ->
             nth_error (escape_quotes s) i = Some 92%N)
  /\ nth_error (escape_quotes s) 0 <> Some 34%N
  /\ (~ In 34%N s -> escape_quotes s = s)
  /\ length s <= length (escape_quotes s).
Proof.
  unfold escape_quotes.
  set (F := fun c : N => if N.eqb c 34 then backslash ++ dquote else [c]).
  induction s as [|c s (IH1 & IH2 & IH3 & IH4)].
  - cbn [flat_map]. split; [intros [|i]; discriminate|].
    split; [discriminate|]. split; [reflexivity|apply le_n].
  - cbn [flat_map]. destruct (N.eqb c 34) eqn:E.
    + assert (HF : F c = [92%N; 34%N]) by (unfold F; rewrite E; reflexivity).
      rewrite HF. apply N.eqb_eq in E. subst c. cbn [app].
      split; [|split; [discriminate|split]].
      * intros [|i]; cbn [nth_error]; [reflexivity|]. intros H.
        destruct i as [|i]; [contradiction (IH2 H)|].
        cbn [nth_error]. apply IH1. exact H.
      * intros Hn. exfalso. apply Hn. left. reflexivity.
      * cbn [length]. lia.
    + assert (HF : F c = [c]) by (unfold F; rewrite E; reflexivity).
      rewrite HF. apply N.eqb_neq in E. cbn [app].
      split; [|split; [intros [= C]; congruence|split]].
      * intros [|i]; cbn [nth_error]; [intros H; contradiction (IH2 H)|].
        apply IH1.
      * intros Hn. rewrite IH3; [reflexivity|]. intros C. apply Hn. right. exact C.
      * cbn [length]. lia.
Qed.

(** ** The generator's identifiers *)

(** The names of the [Identifier] nodes that [generateNode] is called on, in
    the order in which it puts their texts: every [Identifier] node of the
    tree but the keys of properties that are not computed. *)
Fixpoint identifiers (node : ASTNode) {struct node} : list jsstring :=
  let of_option (n : option ASTNode) :=
    match n with
    | Some child => identifiers child
    | None => []
    end in
  match node with
  | Program body => flat_map identifiers body
  | VariableDeclaration _ _ init => of_option init
  | FunctionDefinition _ _ body => identifiers body
  | Block statements => flat_map identifiers statements
  | ExpressionStatement expression => identifiers expression
  | IfStatement condition consequent alternate =>
      identifiers condition ++ identifiers consequent ++ of_option alternate
  | ForLoop init condition update body =>
      of_option init ++ of_option condition ++ of_option update
        ++ identifiers body
  | WhileLoop condition body => identifiers condition ++ identifiers body
  | DoWhileLoop body condition => identifiers body ++ identifiers condition
  | SwitchStatement discriminant cases =>
      identifiers discriminant ++ flat_map case_identifiers cases
  | ReturnStatement argument => of_option argument
  | BreakStatement | ContinueStatement | EmptyStatement | ThisExpression => []
  | AssignmentExpression _ lhs rhs => identifiers lhs ++ identifiers rhs
  | BinaryExpression _ lhs rhs => identifiers lhs ++ identifiers rhs
  | UnaryExpression _ argument => identifiers argument
  | CallExpression callee arguments =>
      identifiers callee ++ flat_map identifiers arguments
  | MemberExpression object property =>
      identifiers object
        ++ match property with
           | inl _ => []
           | inr p => identifiers p
           end
  | Vec2Expression x y => identifiers x ++ identifiers y
  | Vec3Expression x y z => identifiers x ++ identifiers y ++ identifiers z
  | ObjectExpression properties => flat_map property_identifiers properties
  | ArrayExpression elements =>
      flat_map (fun element =>
                  match element with
                  | Some e => identifiers e
                  | None => []
                  end) elements
  | Identifier name _ => [name]
  | Literal _ _ => []
  end
with case_identifiers (c : SwitchCaseNode) {struct c} : list jsstring :=
  match c with
  | SwitchCase test consequent =>
      match test with
      | Some t => identifiers t
      | None => []
      end
      ++ flat_map identifiers consequent
  end
with property_identifiers (p : PropertyNode) {struct p} : list jsstring :=
  match p with
  | Property key val computed =>
      (if computed then identifiers key else []) ++ identifiers val
  end.

(** The [texts] stand in [out] one after the other, in their order. *)
Fixpoint in_order (texts : list jsstring) (out : jsstring) : Prop :=
  match texts with
  | [] => True
  | text :: rest =>
      exists before after,
        out = before ++ text ++ after /\ in_order rest after
  end.

Lemma in_order_right (texts : list jsstring) (x y : jsstring) :
  in_order texts y -> in_order texts (x ++ y).
Proof.
  destruct texts as [|t ts]; cbn [in_order]; [auto|].
  intros (b & a & -> & H). exists (x ++ b), a. rewrite <- app_assoc. auto.
Qed.

Lemma in_order_app (a b : list jsstring) (x y : jsstring) :
  in_order a x -> in_order b y -> in_order (a ++ b) (x ++ y).
Proof.
  revert x. induction a as [|t ts IH]; intros x; cbn [in_order app].
  - intros _. apply in_order_right.
  - intros (g & rest & -> & H) Hb. exists g, (rest ++ y).
    rewrite <- !app_assoc. auto.
Qed.

Lemma in_order_left (texts : list jsstring) (x y : jsstring) :
  in_order texts x -> in_order texts (x ++ y).
Proof.
  intros H. rewrite <- (app_nil_r texts). apply in_order_app; [exact H|exact I].
Qed.

(** [indent] puts two blanks at the start and after every line break. *)
Definition indent_rest (code : jsstring) : jsstring :=
  flat_map (fun c => if N.eqb c 10 then [10%N; 32%N; 32%N] else [c]) code.

Lemma indent_is_indent_rest (code : jsstring) :
  indent code = utf16 "  " ++ indent_rest code.
Proof.
  unfold indent. induction code as [|c code IH]; cbn [split_on]; [reflexivity|].
  cbn [indent_rest flat_map]. fold (indent_rest code).
  destruct (N.eqb c 10) eqn:E.
  - cbn [map]. rewrite join_cons.
    + rewrite IH. reflexivity.
    + pose proof (split_on_not_nil 10%N code) as Hn.
      destruct (split_on 10%N code); [contradiction|discriminate].
  - pose proof (split_on_not_nil 10%N code) as Hn.
    destruct (split_on 10%N code) as [|line lines]; [contradiction|].
    cbn [map] in *. destruct lines as [|line' lines].
    + cbn [map join] in *. cbn [utf16 list_ascii_of_string map app] in *.
      injection IH as ->. reflexivity.
    + rewrite join_cons in IH by discriminate. rewrite join_cons by discriminate.
      cbn [utf16 list_ascii_of_string map app] in *.
      injection IH as IH. rewrite <- IH. reflexivity.
Qed.

Lemma indent_rest_app (x y : jsstring) :
  indent_rest (x ++ y) = indent_rest x ++ indent_rest y.
Proof. apply flat_map_app. Qed.

Lemma indent_rest_line (text : jsstring) :
  ~ In 10%N text -> indent_rest text = text.
Proof.
  induction text as [|c text IH]; intros H; [reflexivity|].
  cbn [indent_rest flat_map]. fold (indent_rest text).
  destruct (N.eqb c 10) eqn:E.
  - apply N.eqb_eq in E. exfalso. apply H. left. exact E.
  - rewrite IH; [reflexivity|]. intros C. apply H. right. exact C.
Qed.

Lemma in_order_indent (texts : list jsstring) (out : jsstring) :
  Forall (fun text => ~ In 10%N text) texts ->
  in_order texts out -> in_order texts (indent out).
Proof.
  intros Hall H. rewrite indent_is_indent_rest. apply in_order_right.
  revert out H. induction Hall as [|t ts Ht _ IH]; intros out; cbn [in_order];
    [auto|].
  intros (b & a & -> & H). exists (indent_rest b), (indent_rest a).
  rewrite !indent_rest_app, (indent_rest_line _ Ht). auto.
Qed.

(** The text of a name that has no line break has none. *)
Lemma generateIdentifier_line (name : jsstring) :
  ~ In 10%N name -> ~ In 10%N (generateIdentifier name).
Proof.
  intros H. unfold generateIdentifier.
  destruct (find _ identifier_cases) as [[I T]|] eqn:E; [|exact H].
  apply find_some in E. destruct E as [Hin _]. cbn [snd].
  assert (Hc : forallb (fun c => negb (existsb (N.eqb 10) (utf16 (snd c))))
                 identifier_cases = true) by (vm_compute; reflexivity).
  rewrite forallb_forall in Hc. specialize (Hc _ Hin). cbn [snd] in Hc.
  intros C. apply negb_true_iff in Hc.
  assert (Hx : existsb (N.eqb 10) (utf16 T) = true).
  { apply existsb_exists. exists 10%N. split; [exact C|reflexivity]. }
  congruence.
Qed.

(** The texts of the [names] stand in [out] in their order, if no name has a
    line break. *)
Definition emits (names : list jsstring) (out : jsstring) : Prop :=
  Forall (fun name => ~ In 10%N name) names ->
  in_order (map generateIdentifier names) out.

Lemma emits_nil (out : jsstring) : emits [] out.
Proof. intros _. exact I. Qed.

Lemma emits_app (a b : list jsstring) (x y : jsstring) :
  emits a x -> emits b y -> emits (a ++ b) (x ++ y).
Proof.
  intros Ha Hb H. apply Forall_app in H. destruct H as [H1 H2].
  rewrite map_app. apply in_order_app; auto.
Qed.

Lemma emits_right (names : list jsstring) (x y : jsstring) :
  emits names y -> emits names (x ++ y).
Proof. intros H Hn. apply in_order_right. auto. Qed.

Lemma emits_left (names : list jsstring) (x y : jsstring) :
  emits names x -> emits names (x ++ y).
Proof. intros H Hn. apply in_order_left. auto. Qed.

Lemma emits_indent (names : list jsstring) (out : jsstring) :
  emits names out -> emits names (indent out).
Proof.
  intros H Hn. apply in_order_indent; [|auto].
  apply Forall_map. eapply Forall_impl; [|exact Hn].
  apply generateIdentifier_line.
Qed.

Lemma emits_join {A} (names : A -> list jsstring) (text : A -> jsstring)
  (sep : jsstring) (l : list A) :
  Forall (fun x => emits (names x) (text x)) l ->
  emits (flat_map names l) (join sep (map text l)).
Proof.
  induction 1 as [|x l Hx Hl IH]; [apply emits_nil|].
  cbn [flat_map map]. destruct l as [|y l].
  - cbn [flat_map map join]. rewrite app_nil_r. exact Hx.
  - rewrite join_cons by discriminate.
    apply emits_app; [exact Hx|]. apply emits_right. exact IH.
Qed.

Lemma emits_concat {A} (names : A -> list jsstring) (text : A -> jsstring)
  (l : list A) :
  Forall (fun x => emits (names x) (text x)) l ->
  emits (flat_map names l) (concat (map text l)).
Proof.
  induction 1 as [|x l Hx Hl IH]; [apply emits_nil|].
  cbn [flat_map map concat]. apply emits_app; assumption.
Qed.

Ltac emit_step IH :=
  lazymatch goal with
  | |- emits [] _ => apply emits_nil
  | |- emits (identifiers ?n) (generateNode _ ?n) => apply IH
  | |- emits (identifiers ?n) (generateNode _ ?n ++ _) =>
      apply emits_left; apply IH
  | |- emits (identifiers ?n ++ _) (generateNode _ ?n ++ _) =>
      apply emits_app; [apply IH|]
  | |- emits _ (generateNode _ _ ++ _) => fail "a child out of order"
  | |- emits _ ((_ ++ _) ++ _) => rewrite <- app_assoc
  | |- emits _ (_ ++ _) => apply emits_right
  end.

(** The generator puts the text of every [Identifier] node that it comes to,
    in the order of [identifiers]. *)
Fixpoint generateNode_emits (number_toString : jsstring -> jsstring)
  (node : ASTNode) {struct node} :
  emits (identifiers node) (generateNode number_toString node)
with generateCase_emits (number_toString : jsstring -> jsstring)
  (c : SwitchCaseNode) {struct c} :
  emits (case_identifiers c) (generateCase number_toString c)
with generateProperty_emits (number_toString : jsstring -> jsstring)
  (p : PropertyNode) {struct p} :
  emits (property_identifiers p) (generateProperty number_toString p).
Proof.
  - pose proof (generateNode_emits number_toString) as IH.
    destruct node; cbn [identifiers generateNode].
    + apply emits_join.
      induction body as [|n l IHl]; constructor; [apply IH|exact IHl].
    + destruct init as [i|]; repeat emit_step IH.
    + repeat emit_step IH.
    + do 2 apply emits_right. apply emits_left. apply emits_indent.
      apply emits_join.
      induction statements as [|n l IHl]; constructor; [apply IH|exact IHl].
    + repeat emit_step IH.
    + destruct alternate as [a|]; repeat emit_step IH.
    + apply emits_right. apply emits_app.
      { destruct init as [i|]; [|apply emits_nil].
        pose proof (IH i) as Hi.
        destruct i; first [exact Hi|apply emits_left; exact Hi]. }
      apply emits_right. apply emits_app.
      { destruct condition as [c|]; [apply IH|apply emits_nil]. }
      apply emits_right. apply emits_app.
      { destruct update as [u|]; [apply IH|apply emits_nil]. }
      apply emits_right. apply IH.
    + repeat emit_step IH.
    + repeat emit_step IH.
    + apply emits_right. apply emits_app; [apply IH|].
      do 2 apply emits_right. apply emits_left. apply emits_concat.
      induction cases as [|c l IHl]; constructor;
        [apply generateCase_emits|exact IHl].
    + destruct argument as [a|]; repeat emit_step IH.
    + apply emits_nil.
    + apply emits_nil.
    + apply emits_nil.
    + repeat emit_step IH.
    + repeat emit_step IH.
    + repeat emit_step IH.
    + apply emits_app; [apply IH|]. apply emits_right. apply emits_left.
      apply emits_join.
      induction arguments as [|n l IHl]; constructor; [apply IH|exact IHl].
    + destruct property as [name|q].
      * rewrite app_nil_r. apply emits_left. apply IH.
      * repeat emit_step IH.
    + apply emits_nil.
    + repeat emit_step IH.
    + repeat emit_step IH.
    + destruct properties as [|q l]; [apply emits_nil|].
      apply emits_right. apply emits_left. apply emits_join.
      generalize (q :: l). clear q l. intros l.
      induction l as [|q l IHl]; constructor;
        [apply generateProperty_emits|exact IHl].
    + apply emits_right. apply emits_left. apply emits_join.
      induction elements as [|e l IHl]; constructor; [|exact IHl].
      destruct e as [n|]; [apply IH|apply emits_nil].
    + intros Hn. cbn [map in_order]. exists [], []. rewrite app_nil_r. auto.
    + apply emits_nil.
  - pose proof (generateNode_emits number_toString) as IH.
    destruct c as [test consequent]. cbn [case_identifiers generateCase].
    apply emits_app.
    + destruct test as [t|]; [|apply emits_nil].
      apply emits_right. apply emits_left. apply IH.
    + apply emits_concat.
      induction consequent as [|n l IHl]; constructor; [|exact IHl].
      apply emits_left. apply emits_indent. apply IH.
  - pose proof (generateNode_emits number_toString) as IH.
    destruct p as [key val computed]. cbn [property_identifiers generateProperty].
    destruct computed; cbn [app]; repeat emit_step IH.
Qed.


